(** * The paragraph diff engine of constitution-monitor

    Shallow embedding of the diff engine that [src/monitor.js] and
    [src/backfill.js] share (the two copies are textually the same
    functions): [normalizeWord], [splitIntoParagraphs],
    [normalizeForMatching], [findBestMatch], [diffParagraphs], [escapeHtml]
    and the paragraph loop of [generateDiff].

    Modelling choices.
    - A JavaScript string is the list of its code units.  The development
      covers the strings whose code units are below 256 (the Latin-1 range),
      so a code unit is an [ascii]; the character classes of the regular
      expressions ([\w], [\s], [[A-Z]], [[.!?]]) and [toLowerCase] are the
      ECMAScript ones restricted to that range.
    - What the engine does with the characters that are not in [\w] is
      not settled within Latin-1: the Kelvin sign U+212A and U+0130 are not
      in [\w], and [toLowerCase] turns them into the letters k and i.  The
      module [Utf16] has [normalizeWord], [normalizeForMatching],
      [findBestMatch] and [diffParagraphs] over all 16-bit code units, with
      the built-in [toLowerCase] as a parameter constrained by
      [Utf16.lower_contract]; on Latin-1 the two embeddings agree
      ([widen_normalize]).
    - [String.prototype.split] is modelled by a left-to-right scanner per
      separator, [Set] by stdpp's [gset], array indexing by list lookup.
    - A JavaScript number that is the quotient of two array or set sizes is
      modelled by the exact rational (or NaN / Infinity for a zero divisor).
      Division of doubles is correctly rounded, so [3 / 10] is the double of
      the literal [0.3] and [1 / 2] the double [0.5]; below 2^26 elements
      two quotients of sizes, or a quotient and one of the two literals,
      compare as doubles the way the rationals do.
    - [Diff.diffArrays] belongs to the npm package [diff], which is not part
      of the repository: it is a parameter of the development, constrained
      by the contract [diff_contract], and [lcsDiff] is a reference
      implementation that meets the contract.
    - [generateDiff] is modelled up to the array [paragraphs] it builds; the
      network call for the summary and [JSON.stringify] are left out.

    The development also covers the code around the engine: the line
    statistics ([generateDiffSummary]), the line diff of the first version
    of [monitor.js], the description of the changes for the summary
    ([generateDiffLLMSummary]), the clean-up of the fetched text
    ([fetchConstitution]), timestamps and file names, the changelog
    ([updateChangelog], [updateChangelogWithHistory]), the selection of
    snapshots and the merge of the metadata in [backfill.js], and the
    stored versions ([saveVersion], [getVersion], [getDiff], [runMonitor]).
    - The files that the code reads and writes are a state, [disk], that
      the functions pass on.  The hash of a content (module [crypto]), the
      text of a diff with its summary (network) and the clock are
      parameters.
    - [Array.prototype.sort] is stable; it is modelled by an insertion
      sort.  [localeCompare] is applied to timestamps of one layout only,
      on which it is the order of the code units. *)

From stdpp Require Import gmap strings list numbers.
From Stdlib Require Import Ascii QArith Qcanon.

Local Open Scope list_scope.
Local Open Scope nat_scope.

Abbreviation str := (list ascii).

(** A string literal as a list of code units. *)
Definition lit (s : string) : str := String.list_ascii_of_string s.

(** ** Character classes *)

Definition code (c : ascii) : nat := nat_of_ascii c.

Definition inRange (lo hi : nat) (c : ascii) : bool :=
  (lo <=? code c) && (code c <=? hi).

(** [[A-Z]] *)
Definition isUpper (c : ascii) : bool := inRange 65 90 c.

(** [\w], that is [[A-Za-z0-9_]] *)
Definition isWordChar (c : ascii) : bool :=
  inRange 65 90 c || inRange 97 122 c || inRange 48 57 c || (code c =? 95).

(** [\s] (and the characters [trim] strips): tab, line feed, vertical tab,
    form feed, carriage return, space and the no-break space. *)
Definition isSpace (c : ascii) : bool :=
  inRange 9 13 c || (code c =? 32) || (code c =? 160).

(** [[.!?]] *)
Definition isTerminal (c : ascii) : bool :=
  (code c =? 46) || (code c =? 33) || (code c =? 63).

(** [toLowerCase] on one code unit: A-Z, and the Latin-1 capitals
    U+00C0-U+00DE except the multiplication sign U+00D7.  Outside Latin-1
    the lower case form can be longer than one code unit, and it can hold
    a character of [\w] where the character is not in [\w]: see
    [Utf16.keptLower]. *)
Definition toLowerChar (c : ascii) : ascii :=
  if inRange 65 90 c then ascii_of_nat (code c + 32)
  else if inRange 192 222 c && negb (code c =? 215) then ascii_of_nat (code c + 32)
  else c.

Definition toLowerCase (s : str) : str := map toLowerChar s.

(** ** String helpers *)

Fixpoint trimStart (s : str) : str :=
  match s with
  | c :: r => if isSpace c then trimStart r else s
  | [] => []
  end.

Definition trimEnd (s : str) : str := rev (trimStart (rev s)).

(** [s.trim()] *)
Definition trim (s : str) : str := trimEnd (trimStart s).

(** Truthiness of a string: it is not empty. *)
Definition truthy (s : str) : bool :=
  match s with
  | [] => false
  | _ => true
  end.

(** Every character of [s] is whitespace. *)
Definition isBlank (s : str) : bool := forallb isSpace s.

(** [s.replace(/c/g, rep)] for a single character [c]. *)
Definition replaceAll (c : ascii) (rep : str) (s : str) : str :=
  flat_map (fun x => if Ascii.eqb x c then rep else [x]) s.

(** [escapeHtml] *)
Definition escapeHtml (text : str) : str :=
  replaceAll ">" (lit "&gt;")
    (replaceAll "<" (lit "&lt;")
       (replaceAll "&" (lit "&amp;") text)).

(** [normalizeWord]: lower-case, then drop every character outside [\w]. *)
Definition normalizeWord (word : str) : str :=
  List.filter isWordChar (toLowerCase word).

(** [s.replace(/\s+/g, ' ')]: every maximal whitespace run becomes one
    space.  [inWs] tells that the previous character was whitespace. *)
Fixpoint collapseSpaces (inWs : bool) (s : str) : str :=
  match s with
  | [] => []
  | c :: r =>
      if isSpace c
      then (if inWs then collapseSpaces true r else " "%char :: collapseSpaces true r)
      else c :: collapseSpaces false r
  end.

(** [normalizeForMatching] *)
Definition normalizeForMatching (text : str) : str :=
  trim (collapseSpaces false
          (List.filter (fun c => isWordChar c || isSpace c) (toLowerCase text))).

(** A string that starts, and one that ends, with a character that is not
    whitespace. *)
Definition startsNonSpace (s : str) : bool :=
  match s with
  | c :: _ => negb (isSpace c)
  | [] => false
  end.

Definition endsNonSpace (s : str) : bool := startsNonSpace (rev s).

(** A non-empty string that [trim] leaves alone. *)
Definition tight (s : str) : Prop :=
  startsNonSpace s = true /\ endsNonSpace s = true.

(** ** [split] *)

(** [s.split(' ')]: [sdone] holds the closed pieces, [scur] the open one. *)
Record splitState := { sdone : list str; scur : str }.

Definition splitStep (sep : ascii) (st : splitState) (c : ascii) : splitState :=
  if Ascii.eqb c sep
  then {| sdone := sdone st ++ [scur st]; scur := [] |}
  else {| sdone := sdone st; scur := scur st ++ [c] |}.

Definition splitOn (sep : ascii) (s : str) : list str :=
  let st := fold_left (splitStep sep) s {| sdone := []; scur := [] |} in
  sdone st ++ [scur st].

(** [s.split(/(\s+)/)]: the whitespace runs are separators and, being
    captured, are kept as tokens of their own.  [tword] is the open
    non-whitespace token, [tws] the whitespace run that follows it. *)
Record tokState := { tdone : list str; tword : str; tws : str }.

Definition tokStep (st : tokState) (c : ascii) : tokState :=
  if isSpace c
  then {| tdone := tdone st; tword := tword st; tws := tws st ++ [c] |}
  else match tws st with
       | [] => {| tdone := tdone st; tword := tword st ++ [c]; tws := [] |}
       | _ => {| tdone := tdone st ++ [tword st; tws st]; tword := [c]; tws := [] |}
       end.

Definition tokFinish (st : tokState) : list str :=
  tdone st ++ match tws st with
              | [] => [tword st]
              | _ => [tword st; tws st; []]
              end.

Definition tokInit : tokState := {| tdone := []; tword := []; tws := [] |}.

Definition splitKeepSpaces (s : str) : list str :=
  tokFinish (fold_left tokStep s tokInit).

(** The non-whitespace tokens of a paragraph, in order. *)
Definition words (s : str) : list str :=
  List.filter (fun t => negb (isBlank t)) (splitKeepSpaces s).

(** A word token: non-empty, without whitespace.  A gap token: a non-empty
    whitespace run. *)
Definition isWord (w : str) : Prop :=
  w <> [] /\ forallb (fun c => negb (isSpace c)) w = true.

Definition isGap (s : str) : Prop := s <> [] /\ isBlank s = true.

(** A token list made of word-gap pairs. *)
Inductive pairs : list str -> Prop :=
  | pairs_nil : pairs []
  | pairs_snoc l w s : pairs l -> isWord w -> isGap s -> pairs (l ++ [w; s]).

(** [text.split(/(?<=[.!?])\s+(?=[A-Z])/)]: a whitespace run is a separator
    when the character before it is one of [.!?] and the character after it
    is in [A-Z].  A match has to start right after a terminal character and
    to end right before a capital, so it is a whole whitespace run; in a run
    that is not a separator no later position matches, the character before
    it being whitespace.  [ecur] is the open sentence, [epend] a whitespace
    run that follows a terminal character and is not yet known to be a
    separator. *)
Record sentState := { edone : list str; ecur : str; epend : str }.

Definition endsWithTerminal (s : str) : bool :=
  match rev s with
  | c :: _ => isTerminal c
  | [] => false
  end.

Definition sentStep (st : sentState) (c : ascii) : sentState :=
  match epend st with
  | [] =>
      if isSpace c && endsWithTerminal (ecur st)
      then {| edone := edone st; ecur := ecur st; epend := [c] |}
      else {| edone := edone st; ecur := ecur st ++ [c]; epend := [] |}
  | _ =>
      if isSpace c
      then {| edone := edone st; ecur := ecur st; epend := epend st ++ [c] |}
      else if isUpper c
      then {| edone := edone st ++ [ecur st]; ecur := [c]; epend := [] |}
      else {| edone := edone st; ecur := ecur st ++ epend st ++ [c]; epend := [] |}
  end.

Definition sentFinish (st : sentState) : list str :=
  edone st ++ [ecur st ++ epend st].

Definition sentInit : sentState := {| edone := []; ecur := []; epend := [] |}.

Definition splitSentences (text : str) : list str :=
  sentFinish (fold_left sentStep text sentInit).

(** ** [splitIntoParagraphs] *)

Record paraState := { paragraphs : list str; current : str }.

(** [current += (current ? ' ' : '') + sentence] *)
Definition appendSentence (current sentence : str) : str :=
  current ++ (match current with [] => [] | _ => lit " " end) ++ sentence.

(** [current.length + sentence.length > 500 && current.length > 0] *)
Definition capExceeded (current sentence : str) : bool :=
  (500 <? length current + length sentence) && (0 <? length current).

Definition paraStep (st : paraState) (sentence : str) : paraState :=
  if capExceeded (current st) sentence
  then {| paragraphs := paragraphs st ++ [trim (current st)]; current := sentence |}
  else {| paragraphs := paragraphs st; current := appendSentence (current st) sentence |}.

Definition paraInit : paraState := {| paragraphs := []; current := [] |}.

Definition paraFinish (text : str) (st : paraState) : list str :=
  let ps := match trim (current st) with
            | [] => paragraphs st
            | _ => paragraphs st ++ [trim (current st)]
            end in
  match ps with
  | [] => [text]
  | _ => ps
  end.

Definition splitIntoParagraphs (text : str) : list str :=
  paraFinish text (fold_left paraStep (splitSentences text) paraInit).

(** ** The sentences behind the paragraphs

    The code keeps the paragraph under construction as one string.  The
    definitions below keep the sentences apart, to state what a paragraph
    is made of. *)

(** The buffer that the loop has built from the sentences [g]. *)
Definition bufferOf (g : list str) : str := fold_left appendSentence g [].

(** The groups of sentences: [gclosed] for the paragraphs already pushed,
    [gopen] for the sentences in [current]. *)
Record groupState := { gclosed : list (list str); gopen : list str }.

Definition groupStep (st : groupState) (sentence : str) : groupState :=
  if capExceeded (bufferOf (gopen st)) sentence
  then {| gclosed := gclosed st ++ [gopen st]; gopen := [sentence] |}
  else {| gclosed := gclosed st; gopen := gopen st ++ [sentence] |}.

Definition groupInit : groupState := {| gclosed := []; gopen := [] |}.

Definition groupsOf (st : groupState) : list (list str) := gclosed st ++ [gopen st].

Definition sentenceGroups (sentences : list str) : list (list str) :=
  groupsOf (fold_left groupStep sentences groupInit).

(** The state of the loop of [splitIntoParagraphs] that the groups stand
    for. *)
Definition renderState (st : groupState) : paraState :=
  {| paragraphs := (fun g => trim (bufferOf g)) <$> gclosed st;
     current := bufferOf (gopen st) |}.

(** The loop closes the paragraph when [sentence] arrives. *)
Definition closesAt (st : paraState) (sentence : str) : Prop :=
  paraStep st sentence =
  {| paragraphs := paragraphs st ++ [trim (current st)]; current := sentence |}.

(** The sentences of [g] joined by single spaces. *)
Fixpoint joinSp (g : list str) : str :=
  match g with
  | [] => []
  | [s] => s
  | s :: rest => s ++ lit " " ++ joinSp rest
  end.

(** What the regular expression matches: [s] contains a terminal character,
    a whitespace run and a capital letter in a row. *)
Definition hasSeparator (s : str) : Prop :=
  exists a t ws u b,
    s = a ++ [t] ++ ws ++ [u] ++ b /\
    isTerminal t = true /\ ws <> [] /\ isBlank ws = true /\ isUpper u = true.

(** The scanner state with the sentences [d] closed before it. *)
Definition prependDone (d : list str) (st : sentState) : sentState :=
  {| edone := d ++ edone st; ecur := ecur st; epend := epend st |}.

(** [s] is scanned without a split and without a pending whitespace run. *)
Definition closed (s : str) : Prop :=
  fold_left sentStep s sentInit = {| edone := []; ecur := s; epend := [] |}.

(** [sentences text ss]: [ss] cuts [text] at whitespace runs that follow a
    terminal character and precede a capital letter, and no sentence of
    [ss] contains such a run. *)
Inductive sentences : str -> list str -> Prop :=
  | sentences_one s : splitSentences s = [s] -> sentences s [s]
  | sentences_cons s ws u rest ss :
      closed s -> endsWithTerminal s = true ->
      ws <> [] -> isBlank ws = true -> isUpper u = true ->
      sentences (u :: rest) ss ->
      sentences (s ++ ws ++ u :: rest) (s :: ss).

(** [lead] put before the first sentence, [trail] after the last one. *)
Definition padFirst (lead : str) (ss : list str) : list str :=
  match ss with
  | [] => []
  | s :: rest => (lead ++ s) :: rest
  end.

Fixpoint padLast (trail : str) (ss : list str) : list str :=
  match ss with
  | [] => []
  | [s] => [s ++ trail]
  | s :: rest => s :: padLast trail rest
  end.

(** The scanner state for a text that has [lead] before it. *)
Definition padState (lead : str) (st : sentState) : sentState :=
  match edone st with
  | [] => {| edone := []; ecur := lead ++ ecur st; epend := epend st |}
  | d :: ds => {| edone := (lead ++ d) :: ds; ecur := ecur st; epend := epend st |}
  end.

(** The same, for sentences without the separators between them. *)
Inductive chain : list str -> Prop :=
  | chain_one s : splitSentences s = [s] -> chain [s]
  | chain_cons s u r ss :
      closed s -> endsWithTerminal s = true -> isUpper u = true ->
      chain ((u :: r) :: ss) ->
      chain (s :: (u :: r) :: ss).

(** ** Numbers *)

(** The value of [a / b] for two sizes: NaN for [0 / 0], Infinity for a
    positive size over 0, the exact quotient otherwise. *)
Inductive num : Type :=
  | NaN
  | PosInf
  | Fin (q : Qc).

Definition divide (a b : nat) : num :=
  match b, a with
  | 0, 0 => NaN
  | 0, _ => PosInf
  | _, _ => Fin (Q2Qc (Z.of_nat a # Pos.of_nat b))
  end.

(** [x > y]; every comparison with NaN is false. *)
Definition greater (x y : num) : bool :=
  match x, y with
  | Fin a, Fin b => bool_decide (b < a)%Qc
  | PosInf, Fin _ => true
  | _, _ => false
  end.

(** [x < y] *)
Definition less (x y : num) : bool := greater y x.

Definition zero : num := Fin 0%Qc.
Definition one : num := Fin 1%Qc.
(** The literals [0.3] and [0.5]. *)
Definition threshold : num := Fin (Q2Qc (3 # 10)).
Definition half : num := Fin (Q2Qc (1 # 2)).

(** ** [findBestMatch] *)

(** [new Set(normalizeForMatching(text).split(' '))] *)
Definition wordSet (text : str) : gset str :=
  list_to_set (splitOn " " (normalizeForMatching text)).

(** [intersection / union] of the loop body. *)
Definition jaccard (paraWords otherWords : gset str) : num :=
  let intersection := size (filter (fun w => w ∈ otherWords) paraWords) in
  let union := size (paraWords ∪ otherWords) in
  divide intersection union.

(** The score the loop computes for the candidate [other]. *)
Definition similarity (para other : str) : num :=
  jaccard (wordSet para) (wordSet other).

Record bestMatch := { index : option nat; score : num }.

(** The [for] loop from index [i] on; [index = None] stands for [-1]. *)
Fixpoint scanCandidates (paraWords : gset str) (usedIndices : gset nat)
    (i : nat) (candidates : list str) (best : bestMatch) : bestMatch :=
  match candidates with
  | [] => best
  | other :: rest =>
      if decide (i ∈ usedIndices)
      then scanCandidates paraWords usedIndices (S i) rest best
      else
        let s := jaccard paraWords (wordSet other) in
        if greater s (score best) && greater s threshold
        then scanCandidates paraWords usedIndices (S i) rest {| index := Some i; score := s |}
        else scanCandidates paraWords usedIndices (S i) rest best
  end.

Definition findBestMatch (para : str) (paragraphs : list str)
    (usedIndices : gset nat) : bestMatch :=
  scanCandidates (wordSet para) usedIndices 0 paragraphs
    {| index := None; score := zero |}.

(** ** [diffParagraphs] *)

(** A change object of [Diff.diffArrays]: a run of tokens that is added,
    removed, or common to both arrays. *)
Record part := { value : list str; added : bool; removed : bool }.

Definition commonPart (v : list str) : part :=
  {| value := v; added := false; removed := false |}.
Definition addedPart (v : list str) : part :=
  {| value := v; added := true; removed := false |}.
Definition removedPart (v : list str) : part :=
  {| value := v; added := false; removed := true |}.

(** The comparator handed to [Diff.diffArrays]. *)
Definition comparator (a b : str) : bool :=
  bool_decide (normalizeWord a = normalizeWord b).

(** The local variables of the loop over the change objects. *)
Record diffState := {
  html : str;
  hasRealChanges : bool;
  unchangedChars : nat;
  totalChars : nat
}.

Definition diffInit : diffState :=
  {| html := []; hasRealChanges := false; unchangedChars := 0; totalChars := 0 |}.

(** [part.value.join('')] *)
Definition partText (p : part) : str := concat (value p).

(** [text.replace(/\s+/g, '').length] *)
Definition trimmedLen (text : str) : nat :=
  length (List.filter (fun c => negb (isSpace c)) text).

Definition diffStep (st : diffState) (p : part) : diffState :=
  let text := partText p in
  if added p then
    if truthy (trim text)
    then {| html := html st ++ lit "<add>" ++ escapeHtml text ++ lit "</add>";
            hasRealChanges := true;
            unchangedChars := unchangedChars st;
            totalChars := totalChars st + trimmedLen text |}
    else {| html := html st ++ text;
            hasRealChanges := hasRealChanges st;
            unchangedChars := unchangedChars st;
            totalChars := totalChars st |}
  else if removed p then
    if truthy (trim text)
    then {| html := html st ++ lit "<del>" ++ escapeHtml text ++ lit "</del>";
            hasRealChanges := true;
            unchangedChars := unchangedChars st;
            totalChars := totalChars st + trimmedLen text |}
    else st
  else {| html := html st ++ escapeHtml text;
          hasRealChanges := hasRealChanges st;
          unchangedChars := unchangedChars st + trimmedLen text;
          totalChars := totalChars st + trimmedLen text |}.

Definition unchangedRatio (st : diffState) : num :=
  if 0 <? totalChars st then divide (unchangedChars st) (totalChars st) else one.

Inductive diffType : Type := replaced | changed.

Record diffResult := {
  type : diffType;
  resHtml : str;
  hasChanges : bool;
  oldContent : str;
  newContent : str
}.

(** The four tagged entries of the array [paragraphs] of [generateDiff]. *)
Inductive entry : Type :=
  | EAdded (content : str)
  | ERemoved (content : str)
  | EChanged (content : str)
  | EReplaced (oldC newC : str).

Definition isRemoved (e : entry) : bool :=
  match e with ERemoved _ => true | _ => false end.

Section Engine.

(** [Diff.diffArrays(oldWords, newWords, { comparator })] *)
Variable diffArrays : (str -> str -> bool) -> list str -> list str -> list part.

(** The loop of [diffParagraphs] over the change objects. *)
Definition diffLoop (oldPara newPara : str) : diffState :=
  let oldWords := splitKeepSpaces oldPara in
  let newWords := splitKeepSpaces newPara in
  let changes := diffArrays comparator oldWords newWords in
  fold_left diffStep changes diffInit.

Definition diffParagraphs (oldPara newPara : str) : diffResult :=
  let st := diffLoop oldPara newPara in
  let isReplacement := hasRealChanges st && less (unchangedRatio st) half in
  {| type := if isReplacement then replaced else changed;
     resHtml := html st;
     hasChanges := hasRealChanges st;
     oldContent := escapeHtml oldPara;
     newContent := escapeHtml newPara |}.

(** The state of the first loop of [generateDiff]. *)
Record genState := { entries : list entry; usedOld : gset nat }.

Definition genInit : genState := {| entries := []; usedOld := ∅ |}.

(** One iteration of the loop over [newParas]. *)
Definition genStep (oldParas : list str) (st : genState) (newPara : str) : genState :=
  let m := findBestMatch newPara oldParas (usedOld st) in
  match index m with
  | Some j =>
      let used := {[ j ]} ∪ usedOld st in
      let oldPara := oldParas !!! j in
      let d := diffParagraphs oldPara newPara in
      if hasChanges d then
        match type d with
        | replaced =>
            {| entries := entries st ++ [EReplaced (oldContent d) (newContent d)];
               usedOld := used |}
        | changed =>
            {| entries := entries st ++ [EChanged (resHtml d)]; usedOld := used |}
        end
      else {| entries := entries st; usedOld := used |}
  | None =>
      {| entries := entries st ++ [EAdded (escapeHtml newPara)]; usedOld := usedOld st |}
  end.

(** The second loop: the old paragraphs from index [i] on that no match
    used. *)
Fixpoint removedFrom (used : gset nat) (i : nat) (oldParas : list str) : list entry :=
  match oldParas with
  | [] => []
  | p :: rest =>
      (if decide (i ∈ used) then [] else [ERemoved (escapeHtml p)])
        ++ removedFrom used (S i) rest
  end.

Definition diffParas (oldParas newParas : list str) : list entry :=
  let st := fold_left (genStep oldParas) newParas genInit in
  entries st ++ removedFrom (usedOld st) 0 oldParas.

(** The array [paragraphs] that [generateDiff] serialises. *)
Definition generateDiff (oldContent newContent : str) : list entry :=
  diffParas (splitIntoParagraphs oldContent) (splitIntoParagraphs newContent).

(** ** The alignment behind the loop of [generateDiff]

    The code keeps no record of the pairs it forms; [align] lists, for
    every new paragraph in order, the [index] that [findBestMatch]
    returned for it, with [usedOld] threaded as in the loop. *)

(** [usedOld.add(match.index)] when there is a match. *)
Definition markUsed (m : option nat) (used : gset nat) : gset nat :=
  match m with
  | Some j => {[ j ]} ∪ used
  | None => used
  end.

Fixpoint align (oldParas : list str) (used : gset nat) (newParas : list str)
    : list (option nat) :=
  match newParas with
  | [] => []
  | newPara :: rest =>
      let m := index (findBestMatch newPara oldParas used) in
      m :: align oldParas (markUsed m used) rest
  end.

(** The old indices that the pairs of an alignment consume. *)
Definition matchedOld (al : list (option nat)) : list nat := omap id al.

(** What one new paragraph contributes to the output, given its match. *)
Definition outcome (oldParas : list str) (newPara : str) (m : option nat) : list entry :=
  match m with
  | Some j =>
      let d := diffParagraphs (oldParas !!! j) newPara in
      if hasChanges d then
        match type d with
        | replaced => [EReplaced (oldContent d) (newContent d)]
        | changed => [EChanged (resHtml d)]
        end
      else []
  | None => [EAdded (escapeHtml newPara)]
  end.

(** The old paragraphs whose index is not in [used], in index order. *)
Definition unmatchedOld (used : gset nat) (oldParas : list str) : list str :=
  (List.filter (fun ip => bool_decide (fst ip ∉ used)) (imap pair oldParas)).*2.

End Engine.

(** ** The contract of [Diff.diffArrays] *)

(** [editScript cmp old new ps]: the change objects [ps] transform [old]
    into [new].  A common run carries the tokens of the new array, each
    equal under the comparator to the old token it stands for; a removed
    run carries tokens of the old array, an added run tokens of the new
    one. *)
Inductive editScript (cmp : str -> str -> bool) :
    list str -> list str -> list part -> Prop :=
  | es_nil : editScript cmp [] [] []
  | es_common os ns old new ps :
      Forall2 (fun o n => cmp o n = true) os ns ->
      editScript cmp old new ps ->
      editScript cmp (os ++ old) (ns ++ new) (commonPart ns :: ps)
  | es_removed os old new ps :
      editScript cmp old new ps ->
      editScript cmp (os ++ old) new (removedPart os :: ps)
  | es_added ns old new ps :
      editScript cmp old new ps ->
      editScript cmp old (ns ++ new) (addedPart ns :: ps).

Definition isCommon (p : part) : Prop := added p = false /\ removed p = false.

(** Modelled from the spec: [Diff.diffArrays], of the npm package [diff],
    is not under src/.  The spec (4.3, step 2) has it as a sequence
    alignment of the two token lists under the comparator, "producing a
    sequence of {unchanged, added, removed} runs of tokens".  The engine
    relies on two facts: the result is an edit script, and two arrays that
    are equal token by token under the comparator differ by no added or
    removed run (the library returns at once when the common prefix covers
    both arrays). *)
Definition diff_contract
    (diffArrays : (str -> str -> bool) -> list str -> list str -> list part) : Prop :=
  (forall cmp old new, editScript cmp old new (diffArrays cmp old new)) /\
  (forall cmp old new,
      Forall2 (fun o n => cmp o n = true) old new ->
      Forall isCommon (diffArrays cmp old new)).

(** ** A reference implementation of the contract *)

Inductive op : Type :=
  | Keep (n : str)
  | Del (o : str)
  | Ins (n : str).

Definition opCost (o : op) : nat :=
  match o with Keep _ => 0 | _ => 1 end.

Definition cost (ops : list op) : nat := sum_list (map opCost ops).

(** Modelled from the spec: an array diff by longest common subsequence
    (4.3, step 2), standing for [Diff.diffArrays] where a definition has to
    be run.  Equal heads are kept; otherwise the cheaper of deleting the old
    head and inserting the new one is taken, deletion first. *)
Fixpoint lcsOps (cmp : str -> str -> bool) (old new : list str) : list op :=
  match old with
  | [] => map Ins new
  | o :: os =>
      (fix inner (new : list str) : list op :=
         match new with
         | [] => map Del old
         | n :: ns =>
             if cmp o n then Keep n :: lcsOps cmp os ns
             else
               let d := Del o :: lcsOps cmp os (n :: ns) in
               let i := Ins n :: inner ns in
               if cost i <? cost d then i else d
         end) new
  end.

(** Consecutive operations of one kind form one change object. *)
Definition pushOp (o : op) (ps : list part) : list part :=
  match o, ps with
  | Keep n, p :: ps' =>
      if negb (added p) && negb (removed p)
      then commonPart (n :: value p) :: ps' else commonPart [n] :: ps
  | Del x, p :: ps' =>
      if removed p then removedPart (x :: value p) :: ps' else removedPart [x] :: ps
  | Ins n, p :: ps' =>
      if added p then addedPart (n :: value p) :: ps' else addedPart [n] :: ps
  | Keep n, [] => [commonPart [n]]
  | Del x, [] => [removedPart [x]]
  | Ins n, [] => [addedPart [n]]
  end.

Definition runs (ops : list op) : list part := foldr pushOp [] ops.

Definition lcsDiff (cmp : str -> str -> bool) (old new : list str) : list part :=
  runs (lcsOps cmp old new).

(** ** Predicates used in the statements and proofs *)

(** A number that is neither NaN nor Infinity. *)
Definition finite (x : num) : Prop := exists q, x = Fin q.

(** The loop of [findBestMatch] for the paragraph [para], from index [i]. *)
Definition scanFrom (para : str) (used : gset nat) (i : nat) (cands : list str)
    (best : bestMatch) : bestMatch :=
  scanCandidates (wordSet para) used i cands best.

(** The counters of [diffParagraphs]: a marked change means a counted
    character, and the unchanged characters are among the counted ones. *)
Definition countersOk (st : diffState) : Prop :=
  (hasRealChanges st = true -> 0 < totalChars st) /\
  unchangedChars st <= totalChars st.

(** The tokenizer is past the first character of a trimmed paragraph. *)
Definition tokOk (st : tokState) : Prop :=
  pairs (tdone st) /\ isWord (tword st) /\ isBlank (tws st) = true.

(** Every closed group is non-empty, and so is the open one once a sentence
    has been read. *)
Definition groupsOk (st : groupState) : Prop :=
  Forall (fun g => g <> []) (gclosed st) /\ (gopen st = [] -> gclosed st = []).

(** ** The engine over all code units

    [normalizeWord] and [normalizeForMatching] lower-case their input, and
    [findBestMatch] and [diffParagraphs] are built on them.  What they do
    with a character that is not in [\w] depends on characters outside
    Latin-1: the dashes and quotation marks of a text are there, and so are
    the two characters that are not in [\w] while their lower case form
    holds a character of [\w].  The module [Utf16] has these four functions
    over the strings of 16-bit code units, a code unit being a number. *)
Module Utf16.

Abbreviation ustr := (list N).

(** A Latin-1 string as a string of code units. *)
Definition widen (s : str) : ustr := N_of_ascii <$> s.

(** A string literal as a list of code units. *)
Definition lit (s : string) : ustr := widen (String.list_ascii_of_string s).

(** *** Character classes *)

Definition inRange (lo hi c : N) : bool := ((lo <=? c) && (c <=? hi))%N.

(** [[A-Z]] *)
Definition isUpper (c : N) : bool := inRange 65 90 c.

(** [\w], that is [[A-Za-z0-9_]] *)
Definition isWordChar (c : N) : bool :=
  inRange 65 90 c || inRange 97 122 c || inRange 48 57 c || (c =? 95)%N.

(** [\s] (and the characters [trim] strips): tab, line feed, vertical tab,
    form feed, carriage return, space, the no-break space, U+1680,
    U+2000-U+200A, the line and paragraph separators U+2028 and U+2029,
    U+202F, U+205F, U+3000 and the byte order mark U+FEFF. *)
Definition isSpace (c : N) : bool :=
  inRange 9 13 c || (c =? 32)%N || (c =? 0xA0)%N || (c =? 0x1680)%N ||
  inRange 0x2000 0x200A c || (c =? 0x2028)%N || (c =? 0x2029)%N ||
  (c =? 0x202F)%N || (c =? 0x205F)%N || (c =? 0x3000)%N || (c =? 0xFEFF)%N.

(** A character that the replacement of [normalizeForMatching] keeps:
    [[\w\s]]. *)
Definition isKept (c : N) : bool := isWordChar c || isSpace c.

(** *** [toLowerCase]

    Modelled from the spec: [String.prototype.toLowerCase] is a built-in of
    the language (ECMA-262, 22.1.3.28), which maps the code points of the
    string by the lower case mappings of the Unicode Character Database;
    it is not code of the repository, and it is a parameter here.  The
    engine deletes every character outside [\w] (or [[\w\s]]) right after
    lower-casing, so that it sees of the lower case form the characters of
    [[\w\s]] only.  [keptLower c] lists them for the code unit [c]: a
    capital of [A-Z] becomes its small letter, any other character of
    [[\w\s]] is unchanged, U+0130 (LATIN CAPITAL LETTER I WITH DOT ABOVE)
    becomes [i] followed by U+0307, the KELVIN SIGN U+212A becomes [k], and
    the lower case form of no other character holds a character of
    [[\w\s]] (the mapping of the capital sigma, the only one that depends
    on the characters around it, gives one of two small sigmas; the code
    units of a surrogate pair are mapped to surrogates). *)
Definition keptLower (c : N) : ustr :=
  if isUpper c then [(c + 32)%N]
  else if isKept c then [c]
  else if (c =? 0x130)%N then [0x69%N]
  else if (c =? 0x212A)%N then [0x6B%N]
  else [].

Definition lower_contract (toLowerCase : ustr -> ustr) : Prop :=
  forall s, List.filter isKept (toLowerCase s) = flat_map keptLower s.

(** Modelled from the spec: a lower-casing that stands for [toLowerCase]
    where a definition has to be run.  It is the built-in on Basic Latin
    and Latin-1, on U+0130, on the Kelvin sign and on the Angstrom sign
    U+212B, and it leaves the other code units as they are. *)
Definition lowerUnit (c : N) : ustr :=
  if isUpper c then [(c + 32)%N]
  else if inRange 0xC0 0xDE c && negb (c =? 0xD7)%N then [(c + 32)%N]
  else if (c =? 0x130)%N then [0x69%N; 0x307%N]
  else if (c =? 0x212A)%N then [0x6B%N]
  else if (c =? 0x212B)%N then [0xE5%N]
  else [c].

Definition lowerCase (s : ustr) : ustr := flat_map lowerUnit s.

(** *** String helpers *)

Fixpoint trimStart (s : ustr) : ustr :=
  match s with
  | c :: r => if isSpace c then trimStart r else s
  | [] => []
  end.

Definition trimEnd (s : ustr) : ustr := rev (trimStart (rev s)).

(** [s.trim()] *)
Definition trim (s : ustr) : ustr := trimEnd (trimStart s).

(** Truthiness of a string: it is not empty. *)
Definition truthy (s : ustr) : bool :=
  match s with
  | [] => false
  | _ => true
  end.

(** Every character of [s] is whitespace. *)
Definition isBlank (s : ustr) : bool := forallb isSpace s.

(** [s.replace(/c/g, rep)] for a single character [c]. *)
Definition replaceAll (c : N) (rep : ustr) (s : ustr) : ustr :=
  flat_map (fun x => if (x =? c)%N then rep else [x]) s.

(** [escapeHtml] *)
Definition escapeHtml (text : ustr) : ustr :=
  replaceAll 0x3E (lit "&gt;")
    (replaceAll 0x3C (lit "&lt;")
       (replaceAll 0x26 (lit "&amp;") text)).

(** [s.replace(/\s+/g, ' ')] *)
Fixpoint collapseSpaces (inWs : bool) (s : ustr) : ustr :=
  match s with
  | [] => []
  | c :: r =>
      if isSpace c
      then (if inWs then collapseSpaces true r else 32%N :: collapseSpaces true r)
      else c :: collapseSpaces false r
  end.

(** [s.split(' ')] *)
Record splitState := { sdone : list ustr; scur : ustr }.

Definition splitStep (sep : N) (st : splitState) (c : N) : splitState :=
  if (c =? sep)%N
  then {| sdone := sdone st ++ [scur st]; scur := [] |}
  else {| sdone := sdone st; scur := scur st ++ [c] |}.

Definition splitOn (sep : N) (s : ustr) : list ustr :=
  let st := fold_left (splitStep sep) s {| sdone := []; scur := [] |} in
  sdone st ++ [scur st].

(** [s.split(/(\s+)/)] *)
Record tokState := { tdone : list ustr; tword : ustr; tws : ustr }.

Definition tokStep (st : tokState) (c : N) : tokState :=
  if isSpace c
  then {| tdone := tdone st; tword := tword st; tws := tws st ++ [c] |}
  else match tws st with
       | [] => {| tdone := tdone st; tword := tword st ++ [c]; tws := [] |}
       | _ => {| tdone := tdone st ++ [tword st; tws st]; tword := [c]; tws := [] |}
       end.

Definition tokFinish (st : tokState) : list ustr :=
  tdone st ++ match tws st with
              | [] => [tword st]
              | _ => [tword st; tws st; []]
              end.

Definition tokInit : tokState := {| tdone := []; tword := []; tws := [] |}.

Definition splitKeepSpaces (s : ustr) : list ustr :=
  tokFinish (fold_left tokStep s tokInit).

(** *** [diffParagraphs]: the change objects and the loop *)

Record part := { value : list ustr; added : bool; removed : bool }.

Definition commonPart (v : list ustr) : part :=
  {| value := v; added := false; removed := false |}.
Definition addedPart (v : list ustr) : part :=
  {| value := v; added := true; removed := false |}.
Definition removedPart (v : list ustr) : part :=
  {| value := v; added := false; removed := true |}.

Record diffState := {
  html : ustr;
  hasRealChanges : bool;
  unchangedChars : nat;
  totalChars : nat
}.

Definition diffInit : diffState :=
  {| html := []; hasRealChanges := false; unchangedChars := 0; totalChars := 0 |}.

(** [part.value.join('')] *)
Definition partText (p : part) : ustr := concat (value p).

(** [text.replace(/\s+/g, '').length] *)
Definition trimmedLen (text : ustr) : nat :=
  length (List.filter (fun c => negb (isSpace c)) text).

Definition diffStep (st : diffState) (p : part) : diffState :=
  let text := partText p in
  if added p then
    if truthy (trim text)
    then {| html := html st ++ lit "<add>" ++ escapeHtml text ++ lit "</add>";
            hasRealChanges := true;
            unchangedChars := unchangedChars st;
            totalChars := totalChars st + trimmedLen text |}
    else {| html := html st ++ text;
            hasRealChanges := hasRealChanges st;
            unchangedChars := unchangedChars st;
            totalChars := totalChars st |}
  else if removed p then
    if truthy (trim text)
    then {| html := html st ++ lit "<del>" ++ escapeHtml text ++ lit "</del>";
            hasRealChanges := true;
            unchangedChars := unchangedChars st;
            totalChars := totalChars st + trimmedLen text |}
    else st
  else {| html := html st ++ escapeHtml text;
          hasRealChanges := hasRealChanges st;
          unchangedChars := unchangedChars st + trimmedLen text;
          totalChars := totalChars st + trimmedLen text |}.

Definition unchangedRatio (st : diffState) : num :=
  if 0 <? totalChars st then divide (unchangedChars st) (totalChars st) else one.

Record diffResult := {
  type : diffType;
  resHtml : ustr;
  hasChanges : bool;
  oldContent : ustr;
  newContent : ustr
}.

Section Lowered.

(** [String.prototype.toLowerCase] *)
Variable toLowerCase : ustr -> ustr.

(** [normalizeWord] *)
Definition normalizeWord (word : ustr) : ustr :=
  List.filter isWordChar (toLowerCase word).

(** [normalizeForMatching] *)
Definition normalizeForMatching (text : ustr) : ustr :=
  trim (collapseSpaces false (List.filter isKept (toLowerCase text))).

(** [new Set(normalizeForMatching(text).split(' '))] *)
Definition wordSet (text : ustr) : gset ustr :=
  list_to_set (splitOn 32 (normalizeForMatching text)).

(** [intersection / union] of the loop body. *)
Definition jaccard (paraWords otherWords : gset ustr) : num :=
  let intersection := size (filter (fun w => w ∈ otherWords) paraWords) in
  let union := size (paraWords ∪ otherWords) in
  divide intersection union.

Definition similarity (para other : ustr) : num :=
  jaccard (wordSet para) (wordSet other).

(** The [for] loop of [findBestMatch] from index [i] on. *)
Fixpoint scanCandidates (paraWords : gset ustr) (usedIndices : gset nat)
    (i : nat) (candidates : list ustr) (best : bestMatch) : bestMatch :=
  match candidates with
  | [] => best
  | other :: rest =>
      if decide (i ∈ usedIndices)
      then scanCandidates paraWords usedIndices (S i) rest best
      else
        let s := jaccard paraWords (wordSet other) in
        if greater s (score best) && greater s threshold
        then scanCandidates paraWords usedIndices (S i) rest {| index := Some i; score := s |}
        else scanCandidates paraWords usedIndices (S i) rest best
  end.

Definition findBestMatch (para : ustr) (paragraphs : list ustr)
    (usedIndices : gset nat) : bestMatch :=
  scanCandidates (wordSet para) usedIndices 0 paragraphs
    {| index := None; score := zero |}.

(** The comparator handed to [Diff.diffArrays]. *)
Definition comparator (a b : ustr) : bool :=
  bool_decide (normalizeWord a = normalizeWord b).

(** [Diff.diffArrays(oldWords, newWords, { comparator })] *)
Variable diffArrays : (ustr -> ustr -> bool) -> list ustr -> list ustr -> list part.

(** The loop of [diffParagraphs] over the change objects. *)
Definition diffLoop (oldPara newPara : ustr) : diffState :=
  let oldWords := splitKeepSpaces oldPara in
  let newWords := splitKeepSpaces newPara in
  let changes := diffArrays comparator oldWords newWords in
  fold_left diffStep changes diffInit.

Definition diffParagraphs (oldPara newPara : ustr) : diffResult :=
  let st := diffLoop oldPara newPara in
  let isReplacement := hasRealChanges st && less (unchangedRatio st) half in
  {| type := if isReplacement then replaced else changed;
     resHtml := html st;
     hasChanges := hasRealChanges st;
     oldContent := escapeHtml oldPara;
     newContent := escapeHtml newPara |}.

End Lowered.

(** *** The contract of [Diff.diffArrays], and the reference implementation *)

Inductive editScript (cmp : ustr -> ustr -> bool) :
    list ustr -> list ustr -> list part -> Prop :=
  | es_nil : editScript cmp [] [] []
  | es_common os ns old new ps :
      Forall2 (fun o n => cmp o n = true) os ns ->
      editScript cmp old new ps ->
      editScript cmp (os ++ old) (ns ++ new) (commonPart ns :: ps)
  | es_removed os old new ps :
      editScript cmp old new ps ->
      editScript cmp (os ++ old) new (removedPart os :: ps)
  | es_added ns old new ps :
      editScript cmp old new ps ->
      editScript cmp old (ns ++ new) (addedPart ns :: ps).

Definition isCommon (p : part) : Prop := added p = false /\ removed p = false.

(** Modelled from the spec: the contract of [Diff.diffArrays], as
    [diff_contract] above has it for the strings of Latin-1. *)
Definition diff_contract
    (diffArrays : (ustr -> ustr -> bool) -> list ustr -> list ustr -> list part) : Prop :=
  (forall cmp old new, editScript cmp old new (diffArrays cmp old new)) /\
  (forall cmp old new,
      Forall2 (fun o n => cmp o n = true) old new ->
      Forall isCommon (diffArrays cmp old new)).

Inductive op : Type :=
  | Keep (n : ustr)
  | Del (o : ustr)
  | Ins (n : ustr).

Definition opCost (o : op) : nat :=
  match o with Keep _ => 0 | _ => 1 end.

Definition cost (ops : list op) : nat := sum_list (map opCost ops).

(** Modelled from the spec: the array diff by longest common subsequence
    that stands for [Diff.diffArrays], as [lcsOps] above. *)
Fixpoint lcsOps (cmp : ustr -> ustr -> bool) (old new : list ustr) : list op :=
  match old with
  | [] => map Ins new
  | o :: os =>
      (fix inner (new : list ustr) : list op :=
         match new with
         | [] => map Del old
         | n :: ns =>
             if cmp o n then Keep n :: lcsOps cmp os ns
             else
               let d := Del o :: lcsOps cmp os (n :: ns) in
               let i := Ins n :: inner ns in
               if cost i <? cost d then i else d
         end) new
  end.

Definition pushOp (o : op) (ps : list part) : list part :=
  match o, ps with
  | Keep n, p :: ps' =>
      if negb (added p) && negb (removed p)
      then commonPart (n :: value p) :: ps' else commonPart [n] :: ps
  | Del x, p :: ps' =>
      if removed p then removedPart (x :: value p) :: ps' else removedPart [x] :: ps
  | Ins n, p :: ps' =>
      if added p then addedPart (n :: value p) :: ps' else addedPart [n] :: ps
  | Keep n, [] => [commonPart [n]]
  | Del x, [] => [removedPart [x]]
  | Ins n, [] => [addedPart [n]]
  end.

Definition runs (ops : list op) : list part := foldr pushOp [] ops.

Definition lcsDiff (cmp : ustr -> ustr -> bool) (old new : list ustr) : list part :=
  runs (lcsOps cmp old new).

(** *** Predicates used in the statements *)

(** A string without any character of [\w]. *)
Definition noWordChars (p : ustr) : Prop :=
  forallb (fun c => negb (isWordChar c)) p = true.

(** A character that is not in [\w] and whose lower case form has no
    character of [\w]: any character outside [\w] but U+0130 and the Kelvin
    sign U+212A. *)
Definition staysNonWord (c : N) : bool :=
  negb (isWordChar c) && negb (c =? 0x130)%N && negb (c =? 0x212A)%N.

(** A string of such characters. *)
Definition noWordCharsLowered (p : ustr) : Prop := forallb staysNonWord p = true.

(** [f] holds of the [fuel] numbers from [c] on. *)
Fixpoint allFrom (f : N -> bool) (fuel : nat) (c : N) : bool :=
  match fuel with
  | 0 => true
  | S fuel' => f c && allFrom f fuel' (N.succ c)
  end.

End Utf16.

(** ** [generateDiffLLMSummary]: the text that describes the changes *)

(** [s.replace(/<[^>]+>/g, '')]: a match starts at a [<], takes one or more
    characters other than [>] and ends at the first [>] after them.  [tag]
    holds the characters read since a [<] that may still start a match; they
    are dropped when the match completes.  In [<>] nothing matches, and a
    [<] that no [>] follows starts no match: those characters are kept. *)
Fixpoint stripFrom (tag : option str) (s : str) : str :=
  match s with
  | [] => match tag with
          | None => []
          | Some buf => buf
          end
  | c :: r =>
      match tag with
      | None =>
          if Ascii.eqb c "<" then stripFrom (Some [c]) r else c :: stripFrom None r
      | Some buf =>
          if Ascii.eqb c ">"
          then match buf with
               | [_] => buf ++ c :: stripFrom None r
               | _ => stripFrom None r
               end
          else stripFrom (Some (buf ++ [c])) r
      end
  end.

Definition stripTags (s : str) : str := stripFrom None s.

(** [paragraphs.map(p => ...)] of [generateDiffLLMSummary] in [monitor.js]:
    the line that describes one entry. *)
Definition describeEntry (e : entry) : str :=
  match e with
  | EAdded content => lit "ADDED: " ++ take 300 content
  | ERemoved content => lit "REMOVED: " ++ take 300 content
  | EReplaced oldC newC =>
      lit "REPLACED: " ++ ["034"%char] ++ take 150 oldC ++ ["034"%char] ++
      lit " WITH " ++ ["034"%char] ++ take 150 newC ++ ["034"%char]
  | EChanged content => lit "MODIFIED: " ++ take 300 (stripTags content)
  end.

(** One of the characters [<] and [>]. *)
Definition isAngle (c : ascii) : bool := Ascii.eqb c "<" || Ascii.eqb c ">".

Definition plain (s : str) : Prop := forallb (fun c => negb (isAngle c)) s = true.

(** A text made of plain stretches and of the four markers of
    [diffParagraphs]. *)
Inductive markup : str -> Prop :=
  | markup_nil : markup []
  | markup_text s rest : plain s -> markup rest -> markup (s ++ rest)
  | markup_tag m rest :
      m ∈ [lit "<add>"; lit "</add>"; lit "<del>"; lit "</del>"] ->
      markup rest -> markup (m ++ rest).

(** [parts.join(sep)] *)
Fixpoint join (sep : str) (l : list str) : str :=
  match l with
  | [] => []
  | [x] => x
  | x :: rest => x ++ sep ++ join sep rest
  end.

(** The line feed. *)
Definition LF : ascii := "010"%char.

(** [paragraphs.map(...).filter(Boolean).join('\n\n')] *)
Definition describeChanges (ps : list entry) : str :=
  join [LF; LF] (List.filter truthy (describeEntry <$> ps)).

(** An entry whose text fields hold no [<] and no [>] but those of the
    markers. *)
Definition escaped (e : entry) : Prop :=
  match e with
  | EAdded content => plain content
  | ERemoved content => plain content
  | EChanged content => markup content
  | EReplaced oldC newC => plain oldC /\ plain newC
  end.

(** The buffer of a group is short, or it is one of the sentences of the
    group. *)
Definition capOk (g : list str) : Prop :=
  length (bufferOf g) <= 501 \/ bufferOf g ∈ g.

(** ** [generateDiffSummary] *)

(** A [Set] of strings, as the list of its elements in insertion order:
    [add] appends an element that is not yet there. *)
Definition setAdd (s : list str) (x : str) : list str :=
  if bool_decide (x ∈ s) then s else s ++ [x].

(** [new Set(array)] *)
Definition setOf (l : list str) : list str := fold_left setAdd l [].

(** [set.has(x)] *)
Definition has (s : list str) (x : str) : bool := bool_decide (x ∈ s).

(** [content.split('\n').filter(l => l.trim())] *)
Definition nonBlankLines (content : str) : list str :=
  List.filter (fun l => truthy (trim l)) (splitOn LF content).

(** [[...these].filter(l => !others.has(l))] *)
Definition onlyIn (these others : list str) : list str :=
  List.filter (fun l => negb (has others l)) these.

Record lineSummary := {
  linesAdded : nat;
  linesRemoved : nat;
  addedPreview : list str;
  removedPreview : list str
}.

Definition generateDiffSummary (oldContent newContent : str) : lineSummary :=
  let oldLines := setOf (nonBlankLines oldContent) in
  let newLines := setOf (nonBlankLines newContent) in
  let added := onlyIn newLines oldLines in
  let removed := onlyIn oldLines newLines in
  {| linesAdded := length added;
     linesRemoved := length removed;
     addedPreview := take 5 added;
     removedPreview := take 5 removed |}.

(** [x] stands before [y] in the list [l]. *)
Definition before {A} (l : list A) (x y : A) : Prop :=
  exists p q r, l = p ++ x :: q ++ y :: r.

(** [x] occurs in [lines] before the first occurrence of [y]. *)
Definition occursFirst (lines : list str) (x y : str) : Prop :=
  exists a b, lines = a ++ x :: b /\ (y ∉ a) /\ y <> x.

(** The lines of [l] are in the order of their first occurrence in
    [lines]. *)
Definition inOrderOfFirstOccurrence (lines l : list str) : Prop :=
  forall x y, before l x y -> occursFirst lines x y.

(** ** The line diff of the first version of [monitor.js] *)

Module Unified.

(** [lines[i] || '']: the empty string beyond the end. *)
Definition lineAt (lines : list str) (i : nat) : str := default [] (lines !! i).

(** The body of the loop: what index [i] adds to [changes]. *)
Definition changesAt (oldLines newLines : list str) (i : nat) : list str :=
  let oldLine := lineAt oldLines i in
  let newLine := lineAt newLines i in
  if bool_decide (oldLine <> newLine)
  then (if truthy oldLine then [lit "- " ++ oldLine] else []) ++
       (if truthy newLine then [lit "+ " ++ newLine] else [])
  else [].

Definition header : list str := [lit "--- previous"; lit "+++ current"].

Definition generateDiff (oldContent newContent : str) : str :=
  let oldLines := splitOn LF oldContent in
  let newLines := splitOn LF newContent in
  let maxLen := max (length oldLines) (length newLines) in
  let changes :=
    fold_left (fun changes i => changes ++ changesAt oldLines newLines i)
      (seq 0 maxLen) [] in
  join [LF] (header ++ changes).

End Unified.

(** ** Comparison and sorting of strings *)

(** The order of [<] on strings: code unit by code unit, a proper prefix
    first. *)
Fixpoint strCompare (a b : str) : comparison :=
  match a, b with
  | [], [] => Eq
  | [], _ :: _ => Lt
  | _ :: _, [] => Gt
  | x :: a', y :: b' =>
      match code x ?= code y with
      | Eq => strCompare a' b'
      | c => c
      end
  end.

(** [a < b] *)
Definition strLt (a b : str) : bool :=
  match strCompare a b with Lt => true | _ => false end.

(** [a.localeCompare(b)].  The strings compared by the code are timestamps
    of one layout, which differ in digits only; on those the collation
    order is the order of the code units. *)
Definition localeCompare (a b : str) : comparison := strCompare a b.

(** [array.sort(compare)]: the sort is stable.  [insertBy] puts [x] before
    the first element that does not compare below it. *)
Fixpoint insertBy {A} (compare : A -> A -> comparison) (x : A) (l : list A) : list A :=
  match l with
  | [] => [x]
  | y :: rest =>
      match compare x y with
      | Gt => y :: insertBy compare x rest
      | _ => x :: l
      end
  end.

Fixpoint sortBy {A} (compare : A -> A -> comparison) (l : list A) : list A :=
  match l with
  | [] => []
  | x :: rest => insertBy compare x (sortBy compare rest)
  end.

(** [s.slice(a, b)] for [0 <= a <= b] *)
Definition slice (a b : nat) (s : str) : str := take (b - a) (drop a s).

(** [s || d] *)
Definition orElse (s d : str) : str := if truthy s then s else d.

(** ** [selectDailySnapshots] *)

Module Snapshot.
Record snapshot := { timestamp : str; statuscode : str; digest : str }.
End Snapshot.

(** A [Map] with string keys, as the list of its entries in insertion
    order; [set] keeps the place of a key that is already there. *)
Fixpoint mapGet {V} (m : list (str * V)) (k : str) : option V :=
  match m with
  | [] => None
  | (k', v) :: rest => if bool_decide (k' = k) then Some v else mapGet rest k
  end.

Fixpoint mapSet {V} (m : list (str * V)) (k : str) (v : V) : list (str * V) :=
  match m with
  | [] => [(k, v)]
  | (k', v') :: rest =>
      if bool_decide (k' = k) then (k', v) :: rest else (k', v') :: mapSet rest k v
  end.

(** [snapshot.timestamp.slice(0, 8)] *)
Definition dateOf (s : Snapshot.snapshot) : str := slice 0 8 (Snapshot.timestamp s).

(** The body of the loop over the snapshots. *)
Definition selectStep (byDate : list (str * Snapshot.snapshot)) (s : Snapshot.snapshot)
    : list (str * Snapshot.snapshot) :=
  let date := dateOf s in
  match mapGet byDate date with
  | None => mapSet byDate date s
  | Some kept =>
      if strLt (Snapshot.timestamp s) (Snapshot.timestamp kept)
      then mapSet byDate date s
      else byDate
  end.

Definition selectDailySnapshots (snapshots : list Snapshot.snapshot)
    : list Snapshot.snapshot :=
  let byDate := fold_left selectStep snapshots [] in
  sortBy (fun a b => localeCompare (Snapshot.timestamp a) (Snapshot.timestamp b))
    byDate.*2.

(** ** Timestamps and file names *)

(** [formatTimestamp] of [backfill.js] *)
Definition formatTimestamp (ts : str) : str :=
  let year := slice 0 4 ts in
  let month := slice 4 6 ts in
  let day := slice 6 8 ts in
  let hour := orElse (slice 8 10 ts) (lit "00") in
  let min := orElse (slice 10 12 ts) (lit "00") in
  let sec := orElse (slice 12 14 ts) (lit "00") in
  year ++ lit "-" ++ month ++ lit "-" ++ day ++ lit " " ++
  hour ++ lit ":" ++ min ++ lit ":" ++ sec ++ lit " UTC".

(** [timestamp.replace(/:/g, '-').replace(/ /g, '_')], the [safeTimestamp]
    of [saveVersion] and [runMonitor]. *)
Definition safeTimestamp (timestamp : str) : str :=
  replaceAll " " (lit "_") (replaceAll ":" (lit "-") timestamp).

(** [formatTimestampForFile] *)
Definition formatTimestampForFile (ts : str) : str := safeTimestamp (formatTimestamp ts).




(** ** The timestamp of [runMonitor] and the names of the version files *)

(** [\d] *)
Definition isDigit (c : ascii) : bool := inRange 48 57 c.

(** [s.startsWith(pat)] *)
Fixpoint prefixb (pat s : str) : bool :=
  match pat, s with
  | [], _ => true
  | _ :: _, [] => false
  | p :: pat', c :: s' => Ascii.eqb p c && prefixb pat' s'
  end.

(** [s.includes(pat)] *)
Fixpoint includes (pat s : str) : bool :=
  prefixb pat s ||
  match s with
  | [] => false
  | _ :: rest => includes pat rest
  end.

(** [s.replace(pat, rep)] with a string for pattern: the first occurrence
    only. *)
Fixpoint replaceFirst (pat rep s : str) : str :=
  if prefixb pat s then rep ++ drop (length pat) s
  else match s with
       | [] => []
       | c :: rest => c :: replaceFirst pat rep rest
       end.

(** [s.replace(/\.\d{3}Z$/, ' UTC')]: the pattern is anchored at the end, so
    it can only match the last five characters. *)
Definition replaceMillis (s : str) : str :=
  let n := length s - 5 in
  match drop n s with
  | [dot; d1; d2; d3; z] =>
      if Ascii.eqb dot "." && isDigit d1 && isDigit d2 && isDigit d3 && Ascii.eqb z "Z"
      then take n s ++ lit " UTC"
      else s
  | _ => s
  end.

(** [iso.replace('T', ' ').replace(/\.\d{3}Z$/, ' UTC')], the [timestamp] of
    [runMonitor], for the value [iso] of [new Date().toISOString()]. *)
Definition monitorTimestamp (iso : str) : str :=
  replaceMillis (replaceFirst (lit "T") (lit " ") iso).

(** The layout [YYYY-MM-DDTHH:mm:ss.sssZ] of [Date.prototype.toISOString]
    (ECMAScript, Date Time String Format). *)
Definition isoString (year month day hour min sec ms : str) : str :=
  year ++ lit "-" ++ month ++ lit "-" ++ day ++ lit "T" ++
  hour ++ lit ":" ++ min ++ lit ":" ++ sec ++ lit "." ++ ms ++ lit "Z".

(** A string of [n] digits. *)
Definition digits (n : nat) (s : str) : Prop :=
  length s = n /\ forallb isDigit s = true.

(** The names [`${safeTimestamp}_${hash}.txt`] and
    [`${safeTimestamp}_${hash}.diff`] under which [saveVersion],
    [runMonitor] and [backfill] write a version and its diff. *)
Definition versionFileName (safe hash : str) : str :=
  safe ++ lit "_" ++ hash ++ lit ".txt".

Definition diffFileName (safe hash : str) : str :=
  safe ++ lit "_" ++ hash ++ lit ".diff".

(** [version.file.replace('.txt', '.diff')] of [getDiff] *)
Definition diffNameOf (file : str) : str :=
  replaceFirst (lit ".txt") (lit ".diff") file.

(** ** The changelog *)

(** [s.split(sep)] for a separator [sep] of one or more characters.
    [cutAt] cuts [s] at the first occurrence of [sep]; the rest is split in
    turn.  Every cut shortens the string, so the length of the string is
    fuel enough. *)
Fixpoint cutAt (sep s : str) : option (str * str) :=
  if prefixb sep s then Some ([], drop (length sep) s)
  else match s with
       | [] => None
       | c :: rest =>
           match cutAt sep rest with
           | Some (before, after) => Some (c :: before, after)
           | None => None
           end
       end.

Fixpoint splitFuel (fuel : nat) (sep s : str) : list str :=
  match fuel with
  | 0 => [s]
  | S fuel' =>
      match cutAt sep s with
      | None => [s]
      | Some (before, after) => before :: splitFuel fuel' sep after
      end
  end.

Definition splitStr (sep s : str) : list str := splitFuel (length s) sep s.

(** The decimal digits of a number, as a template literal prints it. *)
Fixpoint showFrom (fuel n : nat) (acc : str) : str :=
  let acc' := ascii_of_nat (48 + n mod 10) :: acc in
  match fuel with
  | 0 => acc'
  | S fuel' => if n <? 10 then acc' else showFrom fuel' (n / 10) acc'
  end.

Definition showNat (n : nat) : str := showFrom n n [].

(** [line.length > 200 ? line.slice(0, 200) + '...' : line] *)
Definition previewOf (line : str) : str :=
  if 200 <? length line then take 200 line ++ lit "..." else line.

(** The loop over [preview.slice(0, 3)]: a line that is not blank adds its
    quoted preview. *)
Definition sampleLines (quote : str -> str) (preview : list str) : str :=
  fold_left (fun entry line =>
               if truthy (trim line) then entry ++ quote (previewOf line) else entry)
    (take 3 preview) [].

(** [`> ${preview}\n`] and [`> ~~${preview}~~\n`] *)
Definition quoteAdded (preview : str) : str := lit "> " ++ preview ++ [LF].
Definition quoteRemoved (preview : str) : str := lit "> ~~" ++ preview ++ lit "~~" ++ [LF].

(** The two sample sections of an entry. *)
Definition samples (diffSummary : lineSummary) : str :=
  (if 0 <? length (addedPreview diffSummary)
   then lit "### Sample of additions" ++ [LF] ++
        sampleLines quoteAdded (addedPreview diffSummary) ++ [LF]
   else []) ++
  (if 0 <? length (removedPreview diffSummary)
   then lit "### Sample of removals" ++ [LF] ++
        sampleLines quoteRemoved (removedPreview diffSummary) ++ [LF]
   else []).

(** The statistics of an entry. *)
Definition statistics (diffSummary : lineSummary) : str :=
  lit "### Statistics" ++ [LF] ++
  lit "- Lines added: " ++ showNat (linesAdded diffSummary) ++ [LF] ++
  lit "- Lines removed: " ++ showNat (linesRemoved diffSummary) ++ [LF; LF].

(** The entry that [updateChangelog] of [monitor.js] builds; [llmSummary] is
    [None] for [null]. *)
Definition changelogEntry (timestamp versionHash : str) (diffSummary : lineSummary)
    (llmSummary : option str) : str :=
  [LF] ++ lit "## " ++ timestamp ++ [LF; LF] ++
  lit "**Version:** `" ++ versionHash ++ lit "`" ++ [LF; LF] ++
  (match llmSummary with
   | Some (c :: s) => lit "### Summary" ++ [LF] ++ (c :: s) ++ [LF; LF]
   | _ => []
   end) ++
  statistics diffSummary ++ samples diffSummary ++ lit "---" ++ [LF].

(** The header of a new changelog, in [monitor.js]. *)
Definition changelogHeader : str :=
  lit "# Anthropic Constitution Changelog" ++ [LF; LF] ++
  lit "This file tracks all detected changes to [Anthropic's Constitution](https://www.anthropic.com/constitution)." ++ [LF; LF] ++
  lit "Each entry includes:" ++ [LF] ++
  lit "- Timestamp of when the change was detected" ++ [LF] ++
  lit "- A summary of what changed" ++ [LF] ++
  lit "- Statistics on additions/removals" ++ [LF; LF] ++
  lit "---" ++ [LF].

(** [parts[0]] *)
Definition firstPart (parts : list str) : str := default [] (head parts).

(** The new content of the changelog, from the content [existing] that was
    read (empty when the file could not be read) and the new entry. *)
Definition insertEntry (existing entry : str) : str :=
  if truthy existing && includes (lit "---") existing
  then
    let parts := splitStr (lit "---") existing in
    let header := firstPart parts ++ lit "---" ++ [LF] in
    let rest := join (lit "---") (drop 1 parts) in
    header ++ entry ++ rest
  else changelogHeader ++ entry.

(** [updateChangelog]: the content written to the changelog; [file] is the
    changelog as it is on disk, [None] when it cannot be read. *)
Definition updateChangelog (file : option str) (timestamp versionHash : str)
    (diffSummary : lineSummary) (llmSummary : option str) : str :=
  insertEntry (default [] file) (changelogEntry timestamp versionHash diffSummary llmSummary).

(** ** The backfill: metadata and changelog *)

Module Version.
(** An entry of [metadata.versions]; [waybackTimestamp] is there for the
    versions that [backfill] adds. *)
Record version := {
  timestamp : str;
  hash : str;
  file : str;
  waybackTimestamp : option str
}.
End Version.

Module Change.
(** An entry of the array [changes] of [backfill]. *)
Record change := {
  timestamp : str;
  hash : str;
  previousTimestamp : str;
  diffSummary : lineSummary;
  diffFile : str
}.
End Change.


(** The title of the historical section. *)
Definition historicalTitle : str := lit "Historical Changes (from Wayback Machine)".

(** The entry of one change, in [updateChangelogWithHistory]. *)
Definition archivedEntry (change : Change.change) : str :=
  [LF] ++ lit "## " ++ Change.timestamp change ++ lit " (Archived)" ++ [LF; LF] ++
  lit "**Version:** `" ++ Change.hash change ++ lit "`" ++ [LF; LF] ++
  statistics (Change.diffSummary change) ++ samples (Change.diffSummary change) ++
  lit "---" ++ [LF].

Definition historicalEntries (changes : list Change.change)
    (initialVersion : Version.version) : str :=
  let intro :=
    [LF] ++ lit "## " ++ historicalTitle ++ [LF; LF] ++
    lit "The following changes were detected by analyzing archived snapshots." ++ [LF; LF] ++
    lit "---" ++ [LF] in
  let initial :=
    [LF] ++ lit "## " ++ Version.timestamp initialVersion ++ lit " (Initial - Archived)" ++
    [LF; LF] ++
    lit "**Version:** `" ++ Version.hash initialVersion ++ lit "`" ++ [LF; LF] ++
    lit "First archived snapshot of the constitution." ++ [LF; LF] ++
    lit "---" ++ [LF] in
  fold_left (fun entries change => entries ++ archivedEntry change) changes (intro ++ initial).

(** The header of a new changelog, in [backfill.js]. *)
Definition backfillHeader : str :=
  lit "# Anthropic Constitution Changelog" ++ [LF; LF] ++
  lit "This file tracks all detected changes to [Anthropic's Constitution](https://www.anthropic.com/constitution)." ++ [LF; LF] ++
  lit "---" ++ [LF].

Definition liveHeading : str :=
  [LF] ++ lit "## Live Monitoring" ++ [LF; LF] ++
  lit "Changes detected by automated daily monitoring:" ++ [LF; LF] ++ lit "---".

(** [updateChangelogWithHistory]: the content written to the changelog, or
    [None] when the function returns without writing.  [file] is the
    changelog on disk, [None] when it cannot be read. *)
Definition updateChangelogWithHistory (file : option str)
    (changes : list Change.change) (initialVersion : Version.version) : option str :=
  let entries := historicalEntries changes initialVersion in
  let existing := default [] file in
  if truthy existing && includes (lit "---") existing
  then
    let parts := splitStr (lit "---") existing in
    let header := firstPart parts ++ lit "---" ++ [LF] in
    let rest := join (lit "---") (drop 1 parts) in
    if includes historicalTitle existing then None
    else Some (header ++ entries ++ liveHeading ++ rest)
  else Some (backfillHeader ++ entries).

(** The changelog on disk after a call. *)
Definition written (file : option str) (result : option str) : option str :=
  match result with
  | Some content => Some content
  | None => file
  end.

(** ** [fetchConstitution]: the clean-up of the page text *)

(** The value that [fetchConstitution] returns for the text [text] of the
    page: [text.replace(/\s+/g, ' ').trim()]. *)
Definition cleanText (text : str) : str := trim (collapseSpaces false text).

(** Every whitespace character of [s] is a space. *)
Definition onlySpaces (s : str) : Prop :=
  forall c, c ∈ s -> isSpace c = true -> c = " "%char.

(** The pieces of [split] with the pieces [d] before them. *)
Definition prependPieces (d : list str) (st : splitState) : splitState :=
  {| sdone := d ++ sdone st; scur := scur st |}.

(** ** The stored versions and [runMonitor]

    The files that [monitor.js] reads and writes are a state that the
    functions pass on: [texts] holds the text files of the directory
    [versions] by base name ([latest.txt], the version files and the diff
    files), [metadata] the value that [metadata.json] holds ([None] when
    the file is missing or does not parse; [JSON.parse] gives back what
    [JSON.stringify] wrote), and [changelog] the file [CHANGELOG.md].  A
    read that fails is [None]; creating the directory is left out. *)
Record disk := {
  texts : gmap str str;
  metadata : option (list Version.version);
  changelog : option str
}.

(** Nothing on disk yet. *)
Definition emptyDisk : disk := {| texts := ∅; metadata := None; changelog := None |}.

(** [fs.writeFile(path.join(VERSIONS_DIR, name), content)] *)
Definition write (name content : str) (d : disk) : disk :=
  {| texts := <[ name := content ]> (texts d);
     metadata := metadata d;
     changelog := changelog d |}.

(** [fs.writeFile(CHANGELOG_FILE, content)] *)
Definition writeChangelog (content : str) (d : disk) : disk :=
  {| texts := texts d; metadata := metadata d; changelog := Some content |}.

(** [loadMetadata]: the versions, none when the file cannot be read. *)
Definition loadMetadata (d : disk) : list Version.version := default [] (metadata d).

Definition saveMetadata (versions : list Version.version) (d : disk) : disk :=
  {| texts := texts d; metadata := Some versions; changelog := changelog d |}.

Definition getLatestVersion (d : disk) : option str := texts d !! lit "latest.txt".

Definition saveVersion (content timestamp versionHash : str) (d : disk) : disk :=
  let d1 := write (lit "latest.txt") content d in
  let versionFile := versionFileName (safeTimestamp timestamp) versionHash in
  let d2 := write versionFile content d1 in
  let versions := loadMetadata d2 in
  saveMetadata
    (versions ++ [{| Version.timestamp := timestamp;
                     Version.hash := versionHash;
                     Version.file := versionFile;
                     Version.waybackTimestamp := None |}])
    d2.

Definition getVersions (d : disk) : list Version.version := loadMetadata d.

(** [getVersion]: the version and its content, [None] for [null]. *)
Definition getVersion (hash : str) (d : disk) : option (Version.version * str) :=
  match List.find (fun v => bool_decide (Version.hash v = hash)) (loadMetadata d) with
  | None => None
  | Some version =>
      match texts d !! Version.file version with
      | Some content => Some (version, content)
      | None => None
      end
  end.

(** [versions.findIndex(v => v.hash === hash)], [None] for [-1]. *)
Fixpoint findIndex (hash : str) (i : nat) (versions : list Version.version) : option nat :=
  match versions with
  | [] => None
  | v :: rest =>
      if bool_decide (Version.hash v = hash) then Some i else findIndex hash (S i) rest
  end.

(** The answers of [getDiff]: the diff read from its file, the message for
    an initial version, a diff computed from the two version files (the
    array [paragraphs] of it), or the message that these cannot be read. *)
Inductive diffAnswer : Type :=
  | Stored (version : Version.version) (diff : str)
  | InitialVersion (version : Version.version)
  | Computed (version : Version.version) (paragraphs : list entry)
  | NotLoaded (version : Version.version).

Section Monitor.

(** [Diff.diffArrays], as for [generateDiff]. *)
Variable diffArrays : (str -> str -> bool) -> list str -> list str -> list part.

(** [getContentHash]: the first twelve hexadecimal digits of the SHA-256 of
    the content, computed by the module [crypto]. *)
Variable getContentHash : str -> str.

(** The text that [generateDiff] returns for two contents: the JSON of the
    array [paragraphs] and of the summary that the network call gave. *)
Variable diffText : str -> str -> str.

(** The summary that [runMonitor] reads back from that text, or gets from
    [generateLLMSummary]; [None] for [null]. *)
Variable summaryOf : str -> option str.

Definition getDiff (hash : str) (d : disk) : option diffAnswer :=
  let versions := loadMetadata d in
  match findIndex hash 0 versions with
  | None => None
  | Some versionIndex =>
      match versions !! versionIndex with
      | None => None
      | Some version =>
          match texts d !! diffNameOf (Version.file version) with
          | Some diff => Some (Stored version diff)
          | None =>
              match versionIndex with
              | 0 => Some (InitialVersion version)
              | S previous =>
                  match versions !! previous with
                  | None => Some (NotLoaded version)
                  | Some prevVersion =>
                      match texts d !! Version.file version,
                            texts d !! Version.file prevVersion with
                      | Some currentContent, Some prevContent =>
                          Some (Computed version
                                  (generateDiff diffArrays prevContent currentContent))
                      | _, _ => Some (NotLoaded version)
                      end
                  end
              end
          end
      end
  end.

(** The changelog of a first run. *)
Definition initialChangelog (timestamp currentHash : str) : str :=
  changelogHeader ++
  [LF] ++ lit "## " ++ timestamp ++ lit " (Initial)" ++ [LF; LF] ++
  lit "**Version:** `" ++ currentHash ++ lit "`" ++ [LF; LF] ++
  lit "Initial snapshot captured. Future changes will be logged here." ++ [LF; LF] ++
  lit "---" ++ [LF].

(** The three results of [runMonitor]. *)
Inductive runResult : Type :=
  | FirstRun (hash : str)
  | NoChange (hash : str)
  | Change (hash summary : str) (diffSummary : lineSummary).

(** [llmSummary || `Changes detected: +${a}/-${r} lines`] *)
Definition summaryOrCounts (llmSummary : option str) (diffSummary : lineSummary) : str :=
  match llmSummary with
  | Some (c :: s) => c :: s
  | _ => lit "Changes detected: +" ++ showNat (linesAdded diffSummary) ++
         lit "/-" ++ showNat (linesRemoved diffSummary) ++ lit " lines"
  end.

(** [runMonitor], for the content [currentContent] that [fetchConstitution]
    returned and the value [iso] of [new Date().toISOString()]. *)
Definition runMonitor (currentContent iso : str) (d : disk) : disk * runResult :=
  let currentHash := getContentHash currentContent in
  let timestamp := monitorTimestamp iso in
  match getLatestVersion d with
  | Some (c :: p) =>
      let previousContent := c :: p in
      let previousHash := getContentHash previousContent in
      if bool_decide (currentHash = previousHash) then (d, NoChange currentHash)
      else
        let diff := diffText previousContent currentContent in
        let diffSummary := generateDiffSummary previousContent currentContent in
        let safe := safeTimestamp timestamp in
        let d1 := write (diffFileName safe currentHash) diff d in
        let llmSummary := summaryOf diff in
        let d2 := saveVersion currentContent timestamp currentHash d1 in
        let d3 :=
          writeChangelog
            (updateChangelog (changelog d2) timestamp currentHash diffSummary llmSummary)
            d2 in
        (d3, Change currentHash (summaryOrCounts llmSummary diffSummary) diffSummary)
  | _ =>
      let d1 := saveVersion currentContent timestamp currentHash d in
      (writeChangelog (initialChangelog timestamp currentHash) d1, FirstRun currentHash)
  end.

End Monitor.

(** The disk after the runs of the monitor that fetched the contents of
    [inputs], each with the ISO string of its time, one after the other. *)
Definition runAll (getContentHash : str -> str) (diffText : str -> str -> str)
    (summaryOf : str -> option str) (inputs : list (str * str)) (d : disk) : disk :=
  fold_left
    (fun d input => fst (runMonitor getContentHash diffText summaryOf (fst input) (snd input) d))
    inputs d.

(** The entries that the runs of the monitor on [inputs] add to the
    changelog, the oldest first, when [previous] is the latest content
    stored before them: a run whose content has the hash of the latest
    content adds nothing and stores nothing; any other run adds the entry
    of [updateChangelog] for its timestamp, its hash, the line statistics
    against the latest content and the summary of the diff, and its content
    becomes the latest. *)
Fixpoint changeEntries (getContentHash : str -> str) (diffText : str -> str -> str)
    (summaryOf : str -> option str) (previous : str) (inputs : list (str * str))
    : list str :=
  match inputs with
  | [] => []
  | input :: rest =>
      if bool_decide (getContentHash (fst input) = getContentHash previous)
      then changeEntries getContentHash diffText summaryOf previous rest
      else
        changelogEntry (monitorTimestamp (snd input)) (getContentHash (fst input))
          (generateDiffSummary previous (fst input))
          (summaryOf (diffText previous (fst input)))
        :: changeEntries getContentHash diffText summaryOf (fst input) rest
  end.

(** Every listed version has a file of the name that [saveVersion] gives,
    and the content of the file has the hash of the version. *)
Definition served (getContentHash : str -> str) (d : disk) : Prop :=
  forall v, v ∈ loadMetadata d ->
    (exists safe, Version.file v = versionFileName safe (Version.hash v)) /\
    exists content, texts d !! Version.file v = Some content /\
      getContentHash content = Version.hash v.

(** [latest.txt] is a copy of the file of the last version. *)
Definition latestIsLast (getContentHash : str -> str) (d : disk) : Prop :=
  forall content, getLatestVersion d = Some content ->
    exists v, list.last (loadMetadata d) = Some v /\
      Version.hash v = getContentHash content /\
      texts d !! Version.file v = Some content.

(** A string without whitespace. *)
Definition noSpace (t : str) : Prop := forallb (fun c => negb (isSpace c)) t = true.

(** The tokens of [l] are, in turn, a string without whitespace and a
    non-empty whitespace run. *)
Definition alternating (l : list str) : Prop :=
  forall i t, l !! i = Some t ->
    if Nat.even i then noSpace t else t <> [] /\ isBlank t = true.

(** A paragraph with a word character. *)
Definition hasWord (p : str) : bool := existsb isWordChar p.

(** No two whitespace characters in a row; [prev] tells that the character
    before the string is whitespace. *)
Fixpoint noDouble (prev : bool) (s : str) : bool :=
  match s with
  | [] => true
  | c :: rest =>
      if isSpace c then negb prev && noDouble true rest else noDouble false rest
  end.

(** * Properties *)

(** ** Running the definitions *)

Example split_example_1 :
  splitSentences (lit "Dr. smith left.  Then 3.5 came! ok? Yes.") =
  [lit "Dr. smith left."; lit "Then 3.5 came! ok?"; lit "Yes."].
Proof. vm_compute. reflexivity. Qed.

Example split_example_edges :
  splitSentences (lit "Hi.  Ok") = [lit "Hi."; lit "Ok"] /\
  splitSentences (lit "Hi. ok. Yes") = [lit "Hi. ok."; lit "Yes"] /\
  splitSentences (lit ". A") = [lit "."; lit "A"] /\
  splitSentences (lit " A. ") = [lit " A. "] /\
  splitSentences (lit "A.B") = [lit "A.B"] /\
  splitSentences (lit "") = [lit ""] /\
  splitSentences (lit "a?" ++ [ascii_of_nat 10; ascii_of_nat 9; ascii_of_nat 160] ++ lit "Z!")
    = [lit "a?"; lit "Z!"].
Proof. vm_compute. repeat split. Qed.

Example split_example_2 :
  splitKeepSpaces (lit " a  b ") = [lit ""; lit " "; lit "a"; lit "  "; lit "b"; lit " "; lit ""].
Proof. vm_compute. reflexivity. Qed.

Example split_example_3 :
  splitOn " " (lit "") = [lit ""] /\ splitOn " " (lit "a b") = [lit "a"; lit "b"].
Proof. vm_compute. auto. Qed.

Example paragraphs_example :
  splitIntoParagraphs (lit " The cat sat. The dog ran. ") = [lit "The cat sat. The dog ran."].
Proof. vm_compute. reflexivity. Qed.

Example lcsDiff_example :
  lcsDiff comparator (splitKeepSpaces (lit "The dog ran.")) (splitKeepSpaces (lit "the  dog sprinted.")) =
  [ commonPart [lit "the"; lit "  "; lit "dog"; lit " "];
    removedPart [lit "ran."];
    addedPart [lit "sprinted."] ].
Proof. vm_compute. reflexivity. Qed.

Example escapeHtml_example :
  escapeHtml (lit "a < b && c > d") = lit "a &lt; b &amp;&amp; c &gt; d".
Proof. vm_compute. reflexivity. Qed.

Example normalize_example :
  normalizeWord (lit "Claude's") = lit "claudes" /\
  normalizeForMatching (lit "  The  CAT, sat.  ") = lit "the cat sat".
Proof. vm_compute. auto. Qed.

(** One word replaced: the pair is matched and [changed], with the old word
    marked deleted and the new one inserted. *)
Example scenario_changed :
  generateDiff lcsDiff (lit "The cat sat. The dog ran.") (lit "The cat sat. The dog sprinted.") =
  [EChanged (lit "The cat sat. The dog <del>ran.</del><add>sprinted.</add>")].
Proof. vm_compute. reflexivity. Qed.

(** No word in common beyond the threshold: the new paragraph is [added]
    and the old one [removed], in that order. *)
Example scenario_disjoint :
  generateDiff lcsDiff (lit "Alpha first one. Beta second two.")
    (lit "Gamma third three. Delta fourth four.") =
  [EAdded (lit "Gamma third three. Delta fourth four.");
   ERemoved (lit "Alpha first one. Beta second two.")].
Proof. vm_compute. reflexivity. Qed.

(** Less than half of the characters survive: the pair is [replaced]. *)
Example scenario_replaced :
  generateDiff lcsDiff (lit "one two x y") (lit "one two something different") =
  [EReplaced (lit "one two x y") (lit "one two something different")].
Proof. vm_compute. reflexivity. Qed.

(** ** Character classes *)

Ltac by_cases_on_char c :=
  destruct c as [[] [] [] [] [] [] [] []]; vm_compute; intuition congruence.

Lemma space_not_word c : isSpace c = true -> isWordChar (toLowerChar c) = false.
Proof. by_cases_on_char c. Qed.

Lemma space_not_terminal c : isSpace c = true -> isTerminal c = false.
Proof. by_cases_on_char c. Qed.

Lemma upper_not_space c : isUpper c = true -> isSpace c = false.
Proof. by_cases_on_char c. Qed.

Lemma terminal_not_space c : isTerminal c = true -> isSpace c = false.
Proof. by_cases_on_char c. Qed.

(** ** [trim] *)

Lemma isBlank_app a b : isBlank (a ++ b) = isBlank a && isBlank b.
Proof. apply forallb_app. Qed.

Lemma isBlank_rev s : isBlank (rev s) = isBlank s.
Proof.
  induction s as [|c r IH]; [done |].
  simpl. rewrite isBlank_app, IH. simpl. rewrite andb_true_r. apply andb_comm.
Qed.

Lemma trimStart_split s :
  exists ws, s = ws ++ trimStart s /\ isBlank ws = true.
Proof.
  induction s as [|c r (ws & Hs & Hb)]; [by exists [] |].
  simpl. destruct (isSpace c) eqn:Hc.
  - exists (c :: ws). simpl. rewrite Hc, Hb. by rewrite <- Hs.
  - by exists [].
Qed.

Lemma trimEnd_split s :
  exists ws, s = trimEnd s ++ ws /\ isBlank ws = true.
Proof.
  destruct (trimStart_split (rev s)) as (ws & Hs & Hb).
  exists (rev ws). rewrite isBlank_rev. split; [|done].
  unfold trimEnd. rewrite <- rev_app_distr, <- Hs. by rewrite rev_involutive.
Qed.

Lemma trimStart_shape s :
  trimStart s = [] \/ startsNonSpace (trimStart s) = true.
Proof.
  induction s as [|c r IH]; [by left |].
  simpl. destruct (isSpace c) eqn:Hc; [done |]. right. simpl. by rewrite Hc.
Qed.

Lemma trimStart_id s : startsNonSpace s = true -> trimStart s = s.
Proof.
  destruct s as [|c r]; [done |]. simpl. intros H.
  apply negb_true_iff in H. by rewrite H.
Qed.

Lemma trimEnd_id s : endsNonSpace s = true -> trimEnd s = s.
Proof.
  unfold endsNonSpace, trimEnd. intros H.
  by rewrite trimStart_id, rev_involutive.
Qed.

Lemma trim_tight s : tight s -> trim s = s.
Proof. intros [H1 H2]. unfold trim. by rewrite trimStart_id, trimEnd_id. Qed.

Lemma startsNonSpace_app a b :
  startsNonSpace a = true -> startsNonSpace (a ++ b) = true.
Proof. by destruct a. Qed.

Lemma startsNonSpace_not_blank s : startsNonSpace s = true -> isBlank s = false.
Proof.
  destruct s as [|c r]; [done |]. simpl. intros H.
  apply negb_true_iff in H. by rewrite H.
Qed.

(** [trim] returns the empty string or a tight one. *)
Lemma trim_shape s : trim s = [] \/ tight (trim s).
Proof.
  unfold trim. set (y := trimStart s).
  destruct (trimStart_shape s) as [Hy|Hy]; fold y in Hy.
  { left. by rewrite Hy. }
  destruct (trimStart_shape (rev y)) as [Hz|Hz].
  { left. unfold trimEnd. by rewrite Hz. }
  right. split; [|unfold endsNonSpace, trimEnd; by rewrite rev_involutive].
  destruct (trimEnd_split y) as (ws & Hs & Hb).
  destruct (trimEnd y) as [|c r] eqn:E.
  - unfold trimEnd in E. apply (f_equal (@rev ascii)) in E.
    rewrite rev_involutive in E. rewrite E in Hz. done.
  - rewrite Hs in Hy. done.
Qed.

Lemma trim_nil_blank s : trim s = [] -> isBlank s = true.
Proof.
  unfold trim. intros H.
  destruct (trimStart_split s) as (ws1 & Hs1 & Hb1).
  destruct (trimEnd_split (trimStart s)) as (ws2 & Hs2 & Hb2).
  rewrite H in Hs2. rewrite Hs1, Hs2. simpl. by rewrite isBlank_app, Hb1, Hb2.
Qed.

Lemma trimStart_blank s : isBlank s = true -> trimStart s = [].
Proof.
  unfold isBlank. induction s as [|c r IH]; simpl; [done |].
  intros H. apply andb_true_iff in H as [Hc Hr]. rewrite Hc. by apply IH.
Qed.

Lemma trim_blank s : isBlank s = true -> trim s = [].
Proof. intros H. unfold trim. by rewrite trimStart_blank. Qed.

Lemma truthy_trim s : truthy (trim s) = negb (isBlank s).
Proof.
  destruct (isBlank s) eqn:Hb; [by rewrite trim_blank |].
  destruct (trim s) as [|c r] eqn:E; [|done].
  apply trim_nil_blank in E. congruence.
Qed.

(** ** The reference implementation meets the contract *)

Lemma pushOp_keep cmp o n old new ps :
  cmp o n = true -> editScript cmp old new ps ->
  editScript cmp (o :: old) (n :: new) (pushOp (Keep n) ps).
Proof.
  intros Hc H. destruct H; simpl.
  - apply (es_common cmp [o] [n] [] []); [by repeat constructor | constructor].
  - apply (es_common cmp (o :: os) (n :: ns)); [by constructor | done].
  - apply (es_common cmp [o] [n]); [by repeat constructor | by constructor].
  - apply (es_common cmp [o] [n]); [by repeat constructor | by constructor].
Qed.

Lemma pushOp_del cmp o old new ps :
  editScript cmp old new ps -> editScript cmp (o :: old) new (pushOp (Del o) ps).
Proof.
  intros H. destruct H; simpl.
  - apply (es_removed cmp [o] [] []). constructor.
  - apply (es_removed cmp [o]). by constructor.
  - by apply (es_removed cmp (o :: os)).
  - apply (es_removed cmp [o]). by constructor.
Qed.

Lemma pushOp_ins cmp n old new ps :
  editScript cmp old new ps -> editScript cmp old (n :: new) (pushOp (Ins n) ps).
Proof.
  intros H. destruct H; simpl.
  - apply (es_added cmp [n] [] []). constructor.
  - apply (es_added cmp [n]). by constructor.
  - apply (es_added cmp [n]). by constructor.
  - by apply (es_added cmp (n :: ns)).
Qed.

Lemma runs_all_ins cmp new : editScript cmp [] new (runs (map Ins new)).
Proof. induction new as [|n new IH]; [constructor | by apply pushOp_ins]. Qed.

Lemma runs_all_del cmp old : editScript cmp old [] (runs (map Del old)).
Proof. induction old as [|o old IH]; [constructor | by apply pushOp_del]. Qed.

Lemma lcsDiff_script cmp old new : editScript cmp old new (lcsDiff cmp old new).
Proof.
  unfold lcsDiff. revert new.
  induction old as [|o os IH]; intros new; [apply runs_all_ins |].
  induction new as [|n ns IHn]; [apply (runs_all_del cmp (o :: os)) |].
  cbn [lcsOps]. destruct (cmp o n) eqn:Hc.
  - apply pushOp_keep; [done | apply IH].
  - match goal with |- context [if ?b then _ else _] => destruct b end.
    + apply pushOp_ins, IHn.
    + apply pushOp_del, IH.
Qed.

Lemma lcsOps_identity cmp old new :
  Forall2 (fun o n => cmp o n = true) old new -> lcsOps cmp old new = map Keep new.
Proof.
  induction 1 as [|o n old new Hc _ IH]; [done |].
  cbn [lcsOps map]. by rewrite Hc, IH.
Qed.

Lemma runs_keep_common new : Forall isCommon (runs (map Keep new)).
Proof.
  induction new as [|n new IH]; [constructor |].
  cbn [map runs foldr]. fold (runs (map Keep new)).
  destruct (runs (map Keep new)) as [|p ps]; simpl.
  - by repeat constructor.
  - inversion IH as [|? ? [Ha Hr] Hps]; subst. rewrite Ha, Hr. simpl.
    by repeat constructor.
Qed.

Lemma lcsDiff_contract : diff_contract lcsDiff.
Proof.
  split; [apply lcsDiff_script |].
  intros cmp old new H. unfold lcsDiff.
  rewrite (lcsOps_identity _ _ _ H). apply runs_keep_common.
Qed.

(** ** Quotients of sizes *)

Lemma divide_fin a b :
  0 < b -> divide a b = Fin (Q2Qc (Z.of_nat a # Pos.of_nat b)).
Proof. intros Hb. unfold divide. destruct b; [lia | done]. Qed.

Lemma Zpos_of_nat b : 0 < b -> Z.pos (Pos.of_nat b) = Z.of_nat b.
Proof.
  intros Hb. destruct b as [|b]; [lia |].
  rewrite <- Pos.of_nat_succ, Zpos_P_of_succ_nat. lia.
Qed.

(** Comparing two quotients is comparing the cross products. *)
Lemma gt_divide a b c d :
  0 < b -> 0 < d -> greater (divide a b) (divide c d) = true <-> c * b < a * d.
Proof.
  intros Hb Hd. rewrite !divide_fin by done. unfold greater.
  rewrite bool_decide_eq_true. unfold Qclt. simpl.
  rewrite !Qred_correct. unfold Qlt. simpl.
  rewrite !Zpos_of_nat by done. lia.
Qed.

Lemma divide_eq a b c d :
  0 < b -> 0 < d -> divide a b = divide c d <-> a * d = c * b.
Proof.
  intros Hb Hd. rewrite !divide_fin by done. split.
  - intros [= H].
    assert (Hq : (Z.of_nat a # Pos.of_nat b == Z.of_nat c # Pos.of_nat d)%Q).
    { rewrite <- (Qred_correct (Z.of_nat a # _)), <- (Qred_correct (Z.of_nat c # _)).
      by rewrite H. }
    unfold Qeq in Hq. simpl in Hq. rewrite !Zpos_of_nat in Hq by done. lia.
  - intros H. f_equal. apply Qc_is_canon. simpl. rewrite !Qred_correct.
    unfold Qeq. simpl. rewrite !Zpos_of_nat by done. lia.
Qed.

Lemma threshold_divide : threshold = divide 3 10.
Proof. reflexivity. Qed.

Lemma half_divide : half = divide 1 2.
Proof. reflexivity. Qed.

Lemma one_divide : one = divide 1 1.
Proof. reflexivity. Qed.

Lemma zero_divide : zero = divide 0 1.
Proof. reflexivity. Qed.

(** ** The counters of [diffParagraphs] *)

Lemma trimmedLen_pos text : isBlank text = false -> 0 < trimmedLen text.
Proof.
  unfold isBlank, trimmedLen. induction text as [|c r IH]; simpl; [done |].
  destruct (isSpace c); simpl; [exact IH | lia].
Qed.

Lemma diffStep_countersOk st p : countersOk st -> countersOk (diffStep st p).
Proof.
  intros [Hpos Hle]. unfold diffStep. rewrite !truthy_trim.
  destruct (added p); [|destruct (removed p)];
    try (destruct (isBlank (partText p)) eqn:Hb; simpl);
    split; simpl; try done; try lia;
    try (intros _; pose proof (trimmedLen_pos _ Hb); lia);
    intros H; specialize (Hpos H); lia.
Qed.

Lemma fold_countersOk ps st :
  countersOk st -> countersOk (fold_left diffStep ps st).
Proof.
  revert st. induction ps as [|p ps IH]; intros st H; [done |].
  simpl. by apply IH, diffStep_countersOk.
Qed.

Lemma diffLoop_countersOk diffArrays oldPara newPara :
  countersOk (diffLoop diffArrays oldPara newPara).
Proof. apply fold_countersOk. split; simpl; [done | lia]. Qed.

(** C3. For a pair with at least one marked insertion or deletion,
    [diffParagraphs] answers [replaced] exactly when
    [unchangedChars / totalChars] is strictly below 0.5, that is when
    [2 * unchangedChars < totalChars]; a ratio of exactly 0.5 is [changed].
    The ratio is 1 when [totalChars] is 0. *)
Theorem classification_boundary
    (diffArrays : (str -> str -> bool) -> list str -> list str -> list part)
    (oldPara newPara : str) :
  let st := diffLoop diffArrays oldPara newPara in
  let d := diffParagraphs diffArrays oldPara newPara in
  (hasChanges d = true ->
     unchangedRatio st = divide (unchangedChars st) (totalChars st) /\
     (type d = replaced <-> less (unchangedRatio st) half = true) /\
     (less (unchangedRatio st) half = true <-> 2 * unchangedChars st < totalChars st) /\
     (unchangedRatio st = half -> type d = changed)) /\
  (totalChars st = 0 -> unchangedRatio st = one).
Proof.
  intros st d. split.
  - intros Hc. unfold d, diffParagraphs in *. fold st in Hc |- *.
    cbn [hasChanges type] in *.
    destruct (diffLoop_countersOk diffArrays oldPara newPara) as [Hpos _].
    fold st in Hpos. specialize (Hpos Hc).
    assert (Hr : unchangedRatio st = divide (unchangedChars st) (totalChars st)).
    { unfold unchangedRatio. by destruct (totalChars st); [lia |]. }
    assert (Hlt : less (unchangedRatio st) half = true <->
                  2 * unchangedChars st < totalChars st).
    { rewrite Hr, half_divide. unfold less. rewrite gt_divide by lia. lia. }
    rewrite Hc. cbn [andb]. repeat split; try done.
    + destruct (less (unchangedRatio st) half); done.
    + intros ->. done.
    + apply Hlt.
    + apply Hlt.
    + intros Heq. destruct (less (unchangedRatio st) half) eqn:E; [|done].
      assert (2 * unchangedChars st < totalChars st) by (by apply Hlt).
      rewrite Hr, half_divide in Heq. apply divide_eq in Heq; lia.
  - intros H0. unfold unchangedRatio. by rewrite H0.
Qed.

(** At "a b" against "a": one character kept out of two, the ratio is
    exactly 0.5 and the pair is [changed]. *)
Lemma classification_boundary_witness :
  hasChanges (diffParagraphs lcsDiff (lit "a b") (lit "a")) = true /\
  unchangedRatio (diffLoop lcsDiff (lit "a b") (lit "a")) = half /\
  type (diffParagraphs lcsDiff (lit "a b") (lit "a")) = changed.
Proof.
  assert (Hc : hasChanges (diffParagraphs lcsDiff (lit "a b") (lit "a")) = true)
    by (vm_compute; reflexivity).
  assert (Hh : unchangedRatio (diffLoop lcsDiff (lit "a b") (lit "a")) = half)
    by (vm_compute; reflexivity).
  split; [exact Hc | split; [exact Hh |]].
  destruct (classification_boundary lcsDiff (lit "a b") (lit "a")) as [H _].
  destruct (H Hc) as (_ & _ & _ & Hhalf). exact (Hhalf Hh).
Defined.

(** ** The order on scores *)

Lemma gt_irrefl x : greater x x = false.
Proof.
  destruct x as [| |q]; simpl; try done.
  apply bool_decide_eq_false. apply (irreflexivity Qclt).
Qed.

Lemma gt_trans x y z : greater x y = true -> greater y z = true -> greater x z = true.
Proof.
  destruct x as [| |a], y as [| |b], z as [| |c]; simpl; try done.
  rewrite !bool_decide_eq_true. intros H1 H2. by apply (Qclt_trans c b a).
Qed.

Lemma gt_asym x y : greater x y = true -> greater y x = false.
Proof.
  intros H. destruct (greater y x) eqn:E; [|done].
  pose proof (gt_trans _ _ _ H E) as Hxx. by rewrite gt_irrefl in Hxx.
Qed.

(** [x > y] and [z <= y] give [x > z], for numbers that are not NaN. *)
Lemma gt_le_trans x y z :
  finite y -> finite z -> greater x y = true -> greater z y = false -> greater x z = true.
Proof.
  intros [b ->] [c ->]. destruct x as [| |a]; simpl; try done.
  rewrite !bool_decide_eq_true, bool_decide_eq_false.
  intros H1 H2. apply Qcnot_lt_le in H2. by apply (Qcle_lt_trans c b a).
Qed.

Lemma gt_total x y :
  finite x -> finite y -> greater x y = false -> greater y x = false -> x = y.
Proof.
  intros [a ->] [b ->]. simpl. rewrite !bool_decide_eq_false.
  intros H1 H2. f_equal. apply Qcle_antisym; by apply Qcnot_lt_le.
Qed.

Lemma divide_finite a b : 0 < b -> finite (divide a b).
Proof. intros Hb. rewrite divide_fin by done. by eexists. Qed.

Lemma gt_threshold_zero : greater threshold zero = true.
Proof. rewrite threshold_divide, zero_divide. apply gt_divide; lia. Qed.

(** ** Word sets are never empty *)

Lemma splitOn_nonempty sep s : splitOn sep s <> [].
Proof. unfold splitOn. simpl. by destruct (sdone _). Qed.

Lemma wordSet_inhabited text : exists w, w ∈ wordSet text.
Proof.
  unfold wordSet. destruct (splitOn " " (normalizeForMatching text)) as [|w l] eqn:E.
  - by apply splitOn_nonempty in E.
  - exists w. apply elem_of_list_to_set. by left.
Qed.

Lemma union_size_pos (X Y : gset str) : (exists w, w ∈ X) -> 0 < size (X ∪ Y).
Proof.
  intros [w Hw]. assert (size (X ∪ Y) <> 0); [|lia].
  apply size_non_empty_iff. intros He.
  apply (not_elem_of_empty (C:=gset str) w). rewrite <- He. apply elem_of_union. by left.
Qed.

Lemma intersection_le_union (X Y : gset str) :
  size (filter (fun w => w ∈ Y) X) <= size (X ∪ Y).
Proof.
  apply subseteq_size. intros w Hw. apply elem_of_filter in Hw.
  apply elem_of_union. left. apply Hw.
Qed.

Lemma similarity_finite para other : finite (similarity para other).
Proof. apply divide_finite, union_size_pos, wordSet_inhabited. Qed.

(** A score never exceeds 1, and a paragraph scores 1 against any paragraph
    with the same word set. *)
Lemma similarity_le_one para other : greater (similarity para other) one = false.
Proof.
  unfold similarity, jaccard. rewrite one_divide.
  destruct (greater _ _) eqn:E; [|done].
  apply gt_divide in E; [|apply union_size_pos, wordSet_inhabited | lia].
  pose proof (intersection_le_union (wordSet para) (wordSet other)). lia.
Qed.

Lemma similarity_same_words para other :
  wordSet para = wordSet other -> similarity para other = one.
Proof.
  intros H. unfold similarity, jaccard. rewrite <- H, one_divide.
  assert (Hf : filter (fun w => w ∈ wordSet para) (wordSet para) = wordSet para).
  { apply set_eq. intros w. rewrite elem_of_filter. tauto. }
  rewrite Hf. apply divide_eq; [apply union_size_pos, wordSet_inhabited | lia |].
  rewrite (union_idemp_L (wordSet para)). lia.
Qed.

(** ** What [findBestMatch] selects *)

Section Scan.

Variable para : str.
Variable used : gset nat.

Local Abbreviation sim q := (similarity para q).
Local Abbreviation scan := (scanFrom para used).

Lemma scan_cons i other rest best :
  scan i (other :: rest) best =
  if decide (i ∈ used) then scan (S i) rest best
  else if greater (sim other) (score best) && greater (sim other) threshold
       then scan (S i) rest {| index := Some i; score := sim other |}
       else scan (S i) rest best.
Proof. reflexivity. Qed.

(** The loop either keeps [best], and then no unused candidate beats both
    [best] and the threshold, or it ends on an unused candidate that beats
    both, that no unused candidate beats, and that beats every unused
    candidate before it. *)
Lemma scan_spec cands : forall i best,
  finite (score best) ->
  (scan i cands best = best /\
     forall k q, cands !! k = Some q -> (i + k) ∉ used ->
       greater (sim q) (score best) && greater (sim q) threshold = false)
  \/ (exists k q,
       cands !! k = Some q /\ ((i + k) ∉ used) /\
       scan i cands best = {| index := Some (i + k); score := sim q |} /\
       greater (sim q) (score best) = true /\ greater (sim q) threshold = true /\
       (forall k' q', cands !! k' = Some q' -> (i + k') ∉ used ->
          greater (sim q') (sim q) = false) /\
       (forall k' q', k' < k -> cands !! k' = Some q' -> (i + k') ∉ used ->
          greater (sim q) (sim q') = true)).
Proof.
  induction cands as [|h rest IH]; intros i best Hfin.
  { left. split; [done |]. intros k q Hk. by rewrite lookup_nil in Hk. }
  assert (Hidx : forall k, S i + k = i + S k) by (intros; lia).
  rewrite scan_cons. destruct (decide (i ∈ used)) as [Hu|Hu].
  - (* the index is skipped *)
    destruct (IH (S i) best Hfin)
      as [[Hr Hno]|(k & q & Hk & Hku & Hr & Hb & Ht & Hmax & Hfirst)].
    + left. split; [done |]. intros [|k] q Hk Hku.
      * by rewrite Nat.add_0_r in Hku.
      * apply (Hno k q); [done | by rewrite Hidx].
    + right. exists (S k), q. rewrite <- !Hidx.
      repeat split; try done.
      * intros [|k'] q' Hk' Hku'; [by rewrite Nat.add_0_r in Hku' |].
        apply (Hmax k' q'); [done | by rewrite Hidx].
      * intros [|k'] q' Hlt Hk' Hku'; [by rewrite Nat.add_0_r in Hku' |].
        apply (Hfirst k' q'); [lia | done | by rewrite Hidx].
  - destruct (greater (sim h) (score best) && greater (sim h) threshold) eqn:Htake.
    + (* the candidate becomes the best so far *)
      apply andb_true_iff in Htake as [Hhb Hht].
      destruct (IH (S i) {| index := Some i; score := sim h |}
                  (similarity_finite para h))
        as [[Hr Hno]|(k & q & Hk & Hku & Hr & Hb & Ht & Hmax & Hfirst)];
        cbn [score] in *.
      * right. exists 0, h. rewrite Nat.add_0_r. repeat split; try done.
        -- intros [|k'] q' Hk' Hku'.
           { injection Hk' as <-. apply gt_irrefl. }
           rewrite <- Hidx in Hku'. specialize (Hno k' q' Hk' Hku').
           destruct (greater (sim q') (sim h)) eqn:E; [|done].
           by rewrite (gt_trans _ _ _ E Hht) in Hno.
        -- intros k' q' Hlt. lia.
      * right. exists (S k), q. rewrite <- !Hidx.
        repeat split; try done.
        -- by apply (gt_trans _ (sim h)).
        -- intros [|k'] q' Hk' Hku'.
           { injection Hk' as <-. by apply gt_asym. }
           apply (Hmax k' q'); [done | by rewrite Hidx].
        -- intros [|k'] q' Hlt Hk' Hku'.
           { by injection Hk' as <-. }
           apply (Hfirst k' q'); [lia | done | by rewrite Hidx].
    + (* the candidate is passed over *)
      destruct (IH (S i) best Hfin)
        as [[Hr Hno]|(k & q & Hk & Hku & Hr & Hb & Ht & Hmax & Hfirst)].
      * left. split; [done |]. intros [|k] q Hk Hku.
        { by injection Hk as <-. }
        apply (Hno k q); [done | by rewrite Hidx].
      * right. exists (S k), q. rewrite <- !Hidx.
        repeat split; try done.
        -- intros [|k'] q' Hk' Hku'.
           { injection Hk' as <-.
             destruct (greater (sim h) (sim q)) eqn:E; [|done].
             by rewrite (gt_trans _ _ _ E Hb), (gt_trans _ _ _ E Ht) in Htake. }
           apply (Hmax k' q'); [done | by rewrite Hidx].
        -- intros [|k'] q' Hlt Hk' Hku'.
           { injection Hk' as <-. apply andb_false_iff in Htake as [Hf|Hf].
             - apply (gt_le_trans _ (score best)); try done.
               apply similarity_finite.
             - apply (gt_le_trans _ threshold); try done.
               + by eexists.
               + apply similarity_finite. }
           apply (Hfirst k' q'); [lia | done | by rewrite Hidx].
Qed.

End Scan.

Lemma findBestMatch_spec para paragraphs used :
  let r := findBestMatch para paragraphs used in
  match index r with
  | None =>
      r = {| index := None; score := zero |} /\
      forall j q, paragraphs !! j = Some q -> j ∉ used ->
        greater (similarity para q) threshold = false
  | Some i =>
      exists p, paragraphs !! i = Some p /\ (i ∉ used) /\
        score r = similarity para p /\
        greater (similarity para p) threshold = true /\
        (forall j q, paragraphs !! j = Some q -> j ∉ used ->
           greater (similarity para q) (similarity para p) = false) /\
        (forall j q, j < i -> paragraphs !! j = Some q -> j ∉ used ->
           greater (similarity para p) (similarity para q) = true)
  end.
Proof.
  intros r. unfold r, findBestMatch.
  destruct (scan_spec para used paragraphs 0 {| index := None; score := zero |})
    as [[Hr Hno]|(k & q & Hk & Hku & Hr & Hb & Ht & Hmax & Hfirst)];
    unfold scanFrom in *.
  - by exists 0%Qc.
  - rewrite Hr. simpl. split; [done |]. intros j q Hj Hu.
    specialize (Hno j q Hj Hu). simpl in Hno.
    destruct (greater (similarity para q) threshold) eqn:E; [|done].
    by rewrite (gt_trans _ _ _ E gt_threshold_zero) in Hno.
  - rewrite Hr. simpl in *. exists q. repeat split; try done.
Qed.

(** An unused candidate above the threshold that no unused candidate beats
    and no earlier unused candidate equals is the one selected. *)
Lemma findBestMatch_selects para paragraphs (used : gset nat) i p :
  paragraphs !! i = Some p -> i ∉ used ->
  greater (similarity para p) threshold = true ->
  (forall j q, paragraphs !! j = Some q -> j ∉ used ->
     greater (similarity para q) (similarity para p) = false) ->
  (forall j q, j < i -> paragraphs !! j = Some q -> j ∉ used ->
     similarity para q <> similarity para p) ->
  findBestMatch para paragraphs used = {| index := Some i; score := similarity para p |}.
Proof.
  intros Hi Hu Hgt Hmax Hfirst.
  pose proof (findBestMatch_spec para paragraphs used) as Hspec. cbv zeta in Hspec.
  destruct (findBestMatch para paragraphs used) as [[j|] sc]; cbn [index score] in Hspec.
  - destruct Hspec as (p' & Hj & Hju & Hsc & Hgt' & Hmax' & Hfirst').
    assert (j = i) as ->.
    { destruct (lt_eq_lt_dec j i) as [[Hlt|Heq]|Hlt]; [|done|].
      - exfalso. apply (Hfirst j p' Hlt Hj Hju).
        apply gt_total; try apply similarity_finite.
        + by apply (Hmax j p').
        + by apply (Hmax' i p).
      - pose proof (Hfirst' i p Hlt Hi Hu) as Hb.
        by rewrite (Hmax j p' Hj Hju) in Hb. }
    assert (p' = p) as -> by congruence. by subst.
  - destruct Hspec as [_ Hno]. by rewrite (Hno i p Hi Hu) in Hgt.
Qed.

(** C2. The threshold of [findBestMatch] is strict: a candidate whose score
    is exactly 0.3 is never selected; an unused candidate whose score is
    strictly above 0.3, that no unused candidate beats and that no earlier
    unused candidate equals, is the one selected; and whatever is selected is
    unused, scores strictly above 0.3, is beaten by no unused candidate and
    beats every unused candidate before it. *)
Theorem matching_threshold_strict (para : str) (paragraphs : list str) (used : gset nat) :
  let r := findBestMatch para paragraphs used in
  (forall i p, paragraphs !! i = Some p ->
     similarity para p = threshold -> index r <> Some i) /\
  (forall i p, paragraphs !! i = Some p -> i ∉ used ->
     greater (similarity para p) threshold = true ->
     (forall j q, paragraphs !! j = Some q -> j ∉ used ->
        greater (similarity para q) (similarity para p) = false) ->
     (forall j q, j < i -> paragraphs !! j = Some q -> j ∉ used ->
        similarity para q <> similarity para p) ->
     r = {| index := Some i; score := similarity para p |}) /\
  (forall i, index r = Some i ->
     exists p, paragraphs !! i = Some p /\ (i ∉ used) /\
       score r = similarity para p /\
       greater (similarity para p) threshold = true /\
       (forall j q, paragraphs !! j = Some q -> j ∉ used ->
          greater (similarity para q) (similarity para p) = false) /\
       (forall j q, j < i -> paragraphs !! j = Some q -> j ∉ used ->
          greater (similarity para p) (similarity para q) = true)).
Proof.
  intros r. pose proof (findBestMatch_spec para paragraphs used) as Hspec.
  fold r in Hspec. cbv zeta in Hspec. repeat split.
  - intros i p Hi Heq Hidx. rewrite Hidx in Hspec.
    destruct Hspec as (p' & Hi' & _ & _ & Hgt & _).
    assert (p' = p) as -> by congruence.
    by rewrite Heq, gt_irrefl in Hgt.
  - apply findBestMatch_selects.
  - intros i Hidx. by rewrite Hidx in Hspec.
Qed.

(** Seven words against six with three in common: the score is exactly
    3/10 and the candidate is not selected; with four in common out of
    nine the first of two equal candidates is selected. *)
Lemma matching_threshold_strict_witness :
  index (findBestMatch (lit "a b c d e f g") [lit "a b c x y z"] ∅) <> Some 0 /\
  findBestMatch (lit "a b c d e f g") [lit "q"; lit "a b c d x y"; lit "a b c d x y"] {[ 0 ]}
    = {| index := Some 1; score := divide 4 9 |}.
Proof.
  split.
  - apply (matching_threshold_strict (lit "a b c d e f g") [lit "a b c x y z"] ∅)
      with (p := lit "a b c x y z"); [reflexivity | vm_compute; reflexivity].
  - assert (Hs : similarity (lit "a b c d e f g") (lit "a b c d x y") = divide 4 9)
      by (vm_compute; reflexivity).
    rewrite <- Hs.
    apply (matching_threshold_strict (lit "a b c d e f g")
             [lit "q"; lit "a b c d x y"; lit "a b c d x y"] {[ 0 ]}).
    + reflexivity.
    + vm_compute. intros H. discriminate H.
    + rewrite Hs, threshold_divide. apply gt_divide; lia.
    + intros [|[|[|j]]] q Hj Hu; try discriminate Hj.
      * exfalso. apply Hu. vm_compute. reflexivity.
      * injection Hj as <-. apply gt_irrefl.
      * injection Hj as <-. apply gt_irrefl.
    + intros [|[|j]] q Hlt Hj Hu; try lia.
      exfalso. apply Hu. vm_compute. reflexivity.
Defined.

(** ** The empty paragraph *)

Lemma wordSet_empty : wordSet [] = {[ [] ]}.
Proof. apply list_to_set_singleton_L. Qed.

Lemma gt_one_threshold : greater one threshold = true.
Proof. rewrite one_divide, threshold_divide. apply gt_divide; lia. Qed.

(** ** The loops of [generateDiff] *)

Section Loops.

Variable diffArrays : (str -> str -> bool) -> list str -> list str -> list part.
Variable oldParas : list str.

Lemma genStep_outcome st newPara :
  let m := index (findBestMatch newPara oldParas (usedOld st)) in
  genStep diffArrays oldParas st newPara =
  {| entries := entries st ++ outcome diffArrays oldParas newPara m;
     usedOld := markUsed m (usedOld st) |}.
Proof.
  unfold genStep, outcome, markUsed.
  destruct (index _) as [j|]; cbv zeta; [|done].
  destruct (hasChanges _); [destruct (type _); done |].
  by rewrite app_nil_r.
Qed.

(** The first loop, as a whole: one [outcome] per new paragraph, in order,
    and the old indices of the alignment added to [usedOld]. *)
Lemma fold_genStep newParas : forall st,
  fold_left (genStep diffArrays oldParas) newParas st =
  {| entries := entries st ++
       concat (zip_with (outcome diffArrays oldParas) newParas
                 (align oldParas (usedOld st) newParas));
     usedOld := usedOld st ∪ list_to_set (matchedOld (align oldParas (usedOld st) newParas)) |}.
Proof.
  induction newParas as [|p rest IH]; intros st.
  - simpl. rewrite app_nil_r, (right_id_L ∅ (∪)). by destruct st.
  - cbn [fold_left]. rewrite IH, genStep_outcome. cbv zeta. cbn [entries usedOld].
    cbn [align zip_with concat]. rewrite <- app_assoc. f_equal.
    unfold matchedOld, markUsed.
    destruct (index (findBestMatch p oldParas (usedOld st))) as [j|]; simpl; [|done].
    apply set_eq. intros x. rewrite !elem_of_union, elem_of_singleton. tauto.
Qed.

Lemma align_length used newParas :
  length (align oldParas used newParas) = length newParas.
Proof.
  revert used. induction newParas as [|p rest IH]; intros used; [done |].
  cbn [align length]. by rewrite IH.
Qed.

(** The alignment after [k] iterations is the first [k] entries of the
    whole alignment. *)
Lemma align_take used newParas k :
  align oldParas used (take k newParas) = take k (align oldParas used newParas).
Proof.
  revert used k. induction newParas as [|p rest IH]; intros used [|k]; try done.
  cbn [take align]. by rewrite IH.
Qed.

(** Every match takes a fresh, valid old index. *)
Lemma align_fresh newParas : forall used,
  NoDup (matchedOld (align oldParas used newParas)) /\
  forall j, j ∈ matchedOld (align oldParas used newParas) ->
    (j ∉ used) /\ j < length oldParas.
Proof.
  induction newParas as [|p rest IH]; intros used.
  { split; [constructor | intros j Hj; by apply elem_of_nil in Hj]. }
  cbn [align]. pose proof (findBestMatch_spec p oldParas used) as Hspec.
  cbv zeta in Hspec. unfold matchedOld in *.
  destruct (index (findBestMatch p oldParas used)) as [j0|]; simpl.
  - destruct Hspec as (q & Hq & Hu & _).
    destruct (IH ({[ j0 ]} ∪ used)) as [Hnd Hin]. split.
    + constructor; [|done]. intros Hj. apply Hin in Hj as [Hj _].
      apply Hj, elem_of_union. left. by apply elem_of_singleton.
    + intros j Hj. apply elem_of_cons in Hj as [->|Hj].
      * split; [done |]. by apply lookup_lt_Some in Hq.
      * apply Hin in Hj as [Hj Hlt]. split; [|done].
        intros Hju. apply Hj, elem_of_union. by right.
  - apply IH.
Qed.

Lemma removedFrom_spec used : forall i (olds : list str),
  removedFrom used i olds =
  (fun p => ERemoved (escapeHtml p)) <$>
    (List.filter (fun ip => bool_decide (fst ip ∉ used))
       (imap (fun k p => (i + k, p)) olds)).*2.
Proof.
  intros i olds. revert i. induction olds as [|p rest IH]; intros i; [done |].
  cbn [removedFrom]. rewrite imap_cons. cbn [List.filter fst].
  rewrite Nat.add_0_r, IH.
  rewrite (imap_ext (fun k p => (S i + k, p)) ((fun k p => (i + k, p)) ∘ S))
    by (intros; simpl; f_equal; lia).
  destruct (decide (i ∈ used)) as [Hi|Hi].
  - rewrite bool_decide_eq_false_2 by (by intros ?). done.
  - by rewrite bool_decide_eq_true_2.
Qed.

Lemma removedFrom_unmatched used :
  removedFrom used 0 oldParas =
  (fun p => ERemoved (escapeHtml p)) <$> unmatchedOld used oldParas.
Proof. apply removedFrom_spec. Qed.

Lemma outcome_length newPara m :
  length (outcome diffArrays oldParas newPara m) <= 1.
Proof.
  unfold outcome. destruct m; [|done].
  destruct (hasChanges _); [destruct (type _) |]; simpl; lia.
Qed.

Lemma outcome_not_removed newPara m :
  Forall (fun e => isRemoved e = false) (outcome diffArrays oldParas newPara m).
Proof.
  unfold outcome. destruct m; [|by repeat constructor].
  destruct (hasChanges _); [destruct (type _) |]; by repeat constructor.
Qed.

Lemma diffParas_spec newParas :
  let al := align oldParas ∅ newParas in
  diffParas diffArrays oldParas newParas =
  concat (zip_with (outcome diffArrays oldParas) newParas al) ++
  ((fun p => ERemoved (escapeHtml p)) <$>
     unmatchedOld (list_to_set (matchedOld al)) oldParas).
Proof.
  intros al. unfold diffParas. rewrite fold_genStep. cbn [entries usedOld genInit].
  rewrite (left_id_L ∅ (∪)), removedFrom_unmatched. done.
Qed.

End Loops.

Lemma elem_of_unmatched (used : gset nat) (oldParas : list str) i p :
  (i, p) ∈ List.filter (fun ip => bool_decide (fst ip ∉ used)) (imap pair oldParas)
  <-> oldParas !! i = Some p /\ i ∉ used.
Proof.
  rewrite list_elem_of_In, filter_In, <- list_elem_of_In, elem_of_lookup_imap.
  rewrite bool_decide_eq_true. simpl. split.
  - intros [(j & q & [= -> ->] & Hq) Hu]. done.
  - intros [Hq Hu]. split; [|done]. by exists i, p.
Qed.

(** C8. After any number [k] of iterations of the alignment loop of
    [generateDiff], every new paragraph processed so far has one outcome (a
    single old index or none), no old index occurs in two pairs, every old
    index is a valid one, and [usedOld] is exactly the set of old indices
    of the pairs.  The [removed] entries that end the output are the old
    paragraphs, in index order, whose index no pair of the whole alignment
    selected. *)
Theorem one_to_one_matching
    (diffArrays : (str -> str -> bool) -> list str -> list str -> list part)
    (oldContent newContent : str) (k : nat) :
  let oldParas := splitIntoParagraphs oldContent in
  let newParas := splitIntoParagraphs newContent in
  let st := fold_left (genStep diffArrays oldParas) (take k newParas) genInit in
  let al := align oldParas ∅ (take k newParas) in
  let whole := align oldParas ∅ newParas in
  let final := fold_left (genStep diffArrays oldParas) newParas genInit in
  al = take k whole /\
  length al = length (take k newParas) /\
  NoDup (matchedOld al) /\
  (forall j, j ∈ matchedOld al -> j < length oldParas) /\
  usedOld st = list_to_set (matchedOld al) /\
  generateDiff diffArrays oldContent newContent =
    entries final ++
    ((fun p => ERemoved (escapeHtml p)) <$>
       unmatchedOld (list_to_set (matchedOld whole)) oldParas) /\
  (forall i p,
     (i, p) ∈ List.filter (fun ip => bool_decide (fst ip ∉ usedOld final))
                (imap pair oldParas)
     <-> oldParas !! i = Some p /\ i ∉ matchedOld whole).
Proof.
  intros oldParas newParas st al whole final.
  split; [apply align_take |].
  split; [apply align_length |].
  destruct (align_fresh oldParas (take k newParas) ∅) as [Hnd Hin].
  split; [done |]. split; [intros j Hj; by apply Hin |].
  assert (Hused : forall ps,
             usedOld (fold_left (genStep diffArrays oldParas) ps genInit) =
             list_to_set (matchedOld (align oldParas ∅ ps))).
  { intros ps. rewrite fold_genStep. cbn [usedOld genInit].
    by rewrite (left_id_L ∅ (∪)). }
  split; [apply Hused |]. split.
  - unfold generateDiff, diffParas, final. cbv zeta. fold oldParas newParas.
    by rewrite removedFrom_unmatched, (Hused newParas).
  - intros i p. rewrite elem_of_unmatched. unfold final. rewrite Hused.
    by rewrite elem_of_list_to_set.
Qed.

Lemma one_to_one_matching_witness :
  NoDup (matchedOld
           (align (splitIntoParagraphs (lit "The cat sat. The dog ran.")) ∅
              (take 1 (splitIntoParagraphs (lit "The cat sat. The dog sprinted."))))).
Proof.
  apply (one_to_one_matching lcsDiff (lit "The cat sat. The dog ran.")
           (lit "The cat sat. The dog sprinted.") 1).
Defined.

(** C6. The output of [generateDiff] is, first, the outcomes of the new
    paragraphs in new-paragraph order, each new paragraph contributing at
    most one entry ([changed], [replaced] or [added], never [removed]), and
    then the [removed] entries of the unmatched old paragraphs in index
    order; nothing else is interleaved. *)
Theorem output_ordering
    (diffArrays : (str -> str -> bool) -> list str -> list str -> list part)
    (oldContent newContent : str) :
  let oldParas := splitIntoParagraphs oldContent in
  let newParas := splitIntoParagraphs newContent in
  let al := align oldParas ∅ newParas in
  let perNew := zip_with (outcome diffArrays oldParas) newParas al in
  let back := (fun p => ERemoved (escapeHtml p)) <$>
                unmatchedOld (list_to_set (matchedOld al)) oldParas in
  generateDiff diffArrays oldContent newContent = concat perNew ++ back /\
  length perNew = length newParas /\
  Forall (fun es => length es <= 1) perNew /\
  Forall (fun e => isRemoved e = false) (concat perNew) /\
  Forall (fun e => isRemoved e = true) back.
Proof.
  intros oldParas newParas al perNew back.
  split; [apply diffParas_spec |].
  split; [unfold perNew, al; rewrite length_zip_with, (align_length oldParas); lia |].
  assert (Hper : Forall (fun es => length es <= 1 /\
                           Forall (fun e => isRemoved e = false) es) perNew).
  { unfold perNew. generalize al. induction newParas as [|p rest IH]; intros [|m l];
      try constructor.
    - split; [apply outcome_length | apply outcome_not_removed].
    - apply IH. }
  split; [revert Hper; apply List.Forall_impl; by intros ? [] |].
  split.
  - apply Forall_concat. revert Hper. apply List.Forall_impl. by intros ? [].
  - unfold back. apply Forall_fmap. by apply Forall_true.
Qed.

(** ** Pairs that are equal token by token *)

Lemma comparator_refl a : comparator a a = true.
Proof. by apply bool_decide_eq_true. Qed.

Lemma diffStep_common st p :
  isCommon p -> hasRealChanges (diffStep st p) = hasRealChanges st.
Proof. intros [Ha Hr]. unfold diffStep. by rewrite Ha, Hr. Qed.

Lemma fold_common ps : forall st,
  Forall isCommon ps ->
  hasRealChanges (fold_left diffStep ps st) = hasRealChanges st.
Proof.
  induction ps as [|p ps IH]; intros st H; [done |].
  inversion H; subst. cbn [fold_left]. rewrite IH by done. by apply diffStep_common.
Qed.

Section Identity.

Variable diffArrays : (str -> str -> bool) -> list str -> list str -> list part.
Hypothesis contract : diff_contract diffArrays.

(** Token lists that the comparator cannot tell apart give no marked
    insertion or deletion. *)
Lemma equal_tokens_no_changes oldPara newPara :
  Forall2 (fun o n => comparator o n = true)
    (splitKeepSpaces oldPara) (splitKeepSpaces newPara) ->
  hasChanges (diffParagraphs diffArrays oldPara newPara) = false.
Proof.
  intros H. unfold diffParagraphs, diffLoop. cbn [hasChanges].
  rewrite fold_common; [done |]. by apply contract.
Qed.

Lemma same_paragraph_no_changes p :
  hasChanges (diffParagraphs diffArrays p p) = false.
Proof.
  apply equal_tokens_no_changes. apply Forall2_same_length_lookup_2; [done |].
  intros i x y Hx Hy. assert (x = y) as -> by congruence. apply comparator_refl.
Qed.

(** With the old paragraphs as the new ones, the paragraph at index [i]
    meets indices [0 .. i-1] used and is matched with itself. *)
Lemma self_match (paras : list str) i p :
  paras !! i = Some p ->
  findBestMatch p paras (set_seq 0 i) = {| index := Some i; score := one |}.
Proof.
  intros Hi. rewrite <- (similarity_same_words p p eq_refl).
  apply findBestMatch_selects; try done.
  - rewrite elem_of_set_seq. lia.
  - rewrite (similarity_same_words p p eq_refl). apply gt_one_threshold.
  - intros j q _ _. rewrite (similarity_same_words p p eq_refl).
    apply similarity_le_one.
  - intros j q Hlt _ Hu. exfalso. apply Hu. rewrite elem_of_set_seq. lia.
Qed.

Lemma self_fold (paras : list str) : forall rest i,
  i <= length paras -> drop i paras = rest ->
  fold_left (genStep diffArrays paras) rest {| entries := []; usedOld := set_seq 0 i |} =
  {| entries := []; usedOld := set_seq 0 (length paras) |}.
Proof.
  induction rest as [|p rest IH]; intros i Hle Hd.
  - apply drop_nil_inv in Hd. by replace i with (length paras) by lia.
  - assert (Hi : paras !! i = Some p).
    { rewrite <- (Nat.add_0_r i), <- lookup_drop, Hd. done. }
    cbn [fold_left]. rewrite genStep_outcome. cbv zeta. cbn [entries usedOld].
    rewrite (self_match paras i p Hi). cbn [index markUsed outcome app].
    rewrite (list_lookup_total_correct _ _ _ Hi), same_paragraph_no_changes.
    replace ({[ i ]} ∪ set_seq 0 i) with (set_seq (C:=gset nat) 0 (S i))
      by (by rewrite set_seq_S_end_union_L).
    apply IH.
    + by apply lookup_lt_Some in Hi.
    + replace (S i) with (i + 1) by lia. by rewrite <- drop_drop, Hd.
Qed.

Lemma removedFrom_all_used (used : gset nat) : forall (olds : list str) i,
  (forall k, k < length olds -> i + k ∈ used) -> removedFrom used i olds = [].
Proof.
  induction olds as [|p rest IH]; intros i H; [done |].
  cbn [removedFrom]. rewrite decide_True.
  - apply IH. intros k Hk. replace (S i + k) with (i + S k) by lia.
    apply H. simpl. lia.
  - rewrite <- (Nat.add_0_r i). apply H. simpl. lia.
Qed.

Lemma diffParas_same (paras : list str) : diffParas diffArrays paras paras = [].
Proof.
  unfold diffParas, genInit.
  change (∅ : gset nat) with (set_seq (C:=gset nat) 0 0).
  rewrite (self_fold paras paras 0); [| lia | done]. cbn [entries usedOld app].
  apply removedFrom_all_used. intros k Hk. rewrite elem_of_set_seq. lia.
Qed.

End Identity.

(** C1. Identity diff: whatever the text [T] (the empty text included),
    [generateDiff] on [(T, T)] builds no entry at all, for every
    [diffArrays] that meets the contract of the library. *)
Theorem identity_diff
    (diffArrays : (str -> str -> bool) -> list str -> list str -> list part)
    (T : str) :
  diff_contract diffArrays -> generateDiff diffArrays T T = [].
Proof. intros contract. by apply diffParas_same. Qed.

Lemma identity_diff_witness :
  generateDiff lcsDiff (lit "The cat sat. The dog ran.") (lit "The cat sat. The dog ran.") = [].
Proof. apply (identity_diff lcsDiff _ lcsDiff_contract). Defined.

(** ** Tokens *)

Lemma tokStep_concat st c :
  concat (tokFinish (tokStep st c)) = concat (tokFinish st) ++ [c].
Proof.
  unfold tokStep, tokFinish. destruct st as [d w s]. cbn [tdone tword tws].
  destruct (isSpace c).
  - cbn [tdone tword tws]. destruct s as [|x s]; simpl;
      rewrite !concat_app; simpl; rewrite ?app_nil_r, <- ?app_assoc; done.
  - destruct s as [|x s]; cbn [tdone tword tws]; rewrite !concat_app; simpl;
      rewrite ?app_nil_r, <- ?app_assoc; simpl; rewrite <- ?app_assoc; done.
Qed.

Lemma tokFold_concat s : forall st,
  concat (tokFinish (fold_left tokStep s st)) = concat (tokFinish st) ++ s.
Proof.
  induction s as [|c s IH]; intros st; simpl; [by rewrite app_nil_r |].
  rewrite IH, tokStep_concat, <- app_assoc. done.
Qed.

(** Tokenizing loses nothing: the tokens, joined, are the paragraph. *)
Lemma splitKeepSpaces_concat s : concat (splitKeepSpaces s) = s.
Proof. unfold splitKeepSpaces. by rewrite tokFold_concat. Qed.

Lemma replaceAll_app c rep a b :
  replaceAll c rep (a ++ b) = replaceAll c rep a ++ replaceAll c rep b.
Proof. unfold replaceAll. apply flat_map_app. Qed.

Lemma escapeHtml_app a b : escapeHtml (a ++ b) = escapeHtml a ++ escapeHtml b.
Proof. unfold escapeHtml. by rewrite !replaceAll_app. Qed.

Lemma trimmedLen_app a b : trimmedLen (a ++ b) = trimmedLen a + trimmedLen b.
Proof. unfold trimmedLen. by rewrite List.filter_app, length_app. Qed.

(** ** The tokens of a trimmed paragraph *)

Lemma isWord_not_blank w : isWord w -> isBlank w = false.
Proof.
  intros [Hne Hw]. destruct w as [|c r]; [done |]. simpl in *.
  apply andb_true_iff in Hw as [Hc _]. apply negb_true_iff in Hc. by rewrite Hc.
Qed.

Lemma blank_normalizeWord s : isBlank s = true -> normalizeWord s = [].
Proof.
  unfold isBlank, normalizeWord, toLowerCase.
  induction s as [|c r IH]; simpl; [done |].
  intros H. apply andb_true_iff in H as [Hc Hr].
  rewrite (space_not_word c Hc). by apply IH.
Qed.

Lemma comparator_blank s t :
  isBlank s = true -> isBlank t = true -> comparator s t = true.
Proof.
  intros Hs Ht. unfold comparator.
  by rewrite !blank_normalizeWord, bool_decide_eq_true.
Qed.

Lemma filter_pairs_snoc l w s :
  isWord w -> isGap s ->
  List.filter (fun t => negb (isBlank t)) (l ++ [w; s]) =
  List.filter (fun t => negb (isBlank t)) l ++ [w].
Proof.
  intros Hw [_ Hs]. rewrite List.filter_app. simpl.
  by rewrite (isWord_not_blank w Hw), Hs.
Qed.

(** Two lists of word-gap pairs with the same words are equal under the
    comparator, token by token. *)
Lemma pairs_same_words l1 : pairs l1 -> forall l2, pairs l2 ->
  List.filter (fun t => negb (isBlank t)) l1 =
  List.filter (fun t => negb (isBlank t)) l2 ->
  Forall2 (fun o n => comparator o n = true) l1 l2.
Proof.
  induction 1 as [|l1 w1 s1 H1 IH Hw1 Hs1]; intros l2 H2 Heq.
  - destruct H2 as [|l2 w2 s2 H2 Hw2 Hs2]; [constructor |].
    rewrite filter_pairs_snoc in Heq by done. simpl in Heq.
    by destruct (List.filter _ l2).
  - destruct H2 as [|l2 w2 s2 H2 Hw2 Hs2].
    + rewrite filter_pairs_snoc in Heq by done. simpl in Heq.
      by destruct (List.filter _ l1).
    + rewrite !filter_pairs_snoc in Heq by done.
      apply app_inj_tail in Heq as [Heq ->].
      apply Forall2_app; [by apply IH |].
      constructor; [apply comparator_refl |].
      constructor; [|constructor].
      apply comparator_blank; [apply Hs1 | apply Hs2].
Qed.

Lemma tokStep_ok st c : tokOk st -> tokOk (tokStep st c).
Proof.
  intros (Hp & [Hne Hw] & Hb). unfold tokStep, tokOk.
  destruct (isSpace c) eqn:Hc; cbn [tdone tword tws].
  - repeat split; try done. rewrite isBlank_app, Hb. simpl. by rewrite Hc.
  - destruct (tws st) as [|x s] eqn:Hs; cbn [tdone tword tws].
    + repeat split; try done.
      * by destruct (tword st).
      * rewrite forallb_app, Hw. simpl. by rewrite Hc.
    + repeat split; try done.
      * by constructor.
      * simpl. by rewrite Hc.
Qed.

Lemma tokStep_nonspace_tws st c : isSpace c = false -> tws (tokStep st c) = [].
Proof. intros H. unfold tokStep. rewrite H. by destruct (tws st). Qed.

Lemma tokFold_ok s : forall st, tokOk st -> tokOk (fold_left tokStep s st).
Proof.
  induction s as [|c s IH]; intros st H; [done |]. simpl. by apply IH, tokStep_ok.
Qed.

(** A trimmed, non-empty paragraph splits into word-gap pairs and a final
    word. *)
Lemma tight_tokens s :
  tight s -> exists l w, pairs l /\ isWord w /\ splitKeepSpaces s = l ++ [w].
Proof.
  intros [Hs He]. unfold splitKeepSpaces.
  destruct s as [|c0 r]; [done |]. simpl in Hs. apply negb_true_iff in Hs.
  assert (Hok : tokOk (fold_left tokStep (c0 :: r) tokInit)).
  { cbn [fold_left]. apply tokFold_ok. unfold tokStep, tokInit, tokOk.
    rewrite Hs. cbn [tdone tword tws]. repeat split; try done.
    - constructor.
    - simpl. by rewrite Hs. }
  assert (Hws : tws (fold_left tokStep (c0 :: r) tokInit) = []).
  { unfold endsNonSpace in He. destruct (rev (c0 :: r)) as [|cl q] eqn:Er; [done |].
    apply (f_equal (@rev ascii)) in Er. rewrite rev_involutive in Er. rewrite Er.
    simpl in He. apply negb_true_iff in He.
    simpl. rewrite fold_left_app. cbn [fold_left]. by apply tokStep_nonspace_tws. }
  destruct Hok as (Hp & Hw & _). unfold tokFinish. rewrite Hws. eauto.
Qed.

Lemma concat_blank (l : list str) :
  isBlank (concat l) = true -> Forall (fun t => isBlank t = true) l.
Proof.
  induction l as [|t l IH]; [constructor |].
  simpl. rewrite isBlank_app. intros H. apply andb_true_iff in H as [Ht Hl].
  constructor; auto.
Qed.

Lemma blank_tokens s :
  isBlank s = true -> Forall (fun t => isBlank t = true) (splitKeepSpaces s).
Proof. intros H. apply concat_blank. by rewrite splitKeepSpaces_concat. Qed.

Lemma blank_concat (l : list str) :
  Forall (fun t => isBlank t = true) l -> isBlank (concat l) = true.
Proof.
  induction 1 as [|t l Ht _ IH]; [done |]. simpl. by rewrite isBlank_app, Ht, IH.
Qed.

(** A script between blank token lists has blank runs only. *)
Lemma editScript_blank cmp old new ps :
  editScript cmp old new ps ->
  Forall (fun t => isBlank t = true) old ->
  Forall (fun t => isBlank t = true) new ->
  Forall (fun p => isBlank (partText p) = true) ps.
Proof.
  induction 1 as [|os ns old new ps HF _ IH|os old new ps _ IH|ns old new ps _ IH];
    intros Ho Hn; [constructor | | |].
  - apply Forall_app in Ho as [_ Ho]. apply Forall_app in Hn as [Hns Hn].
    constructor; [by apply blank_concat | by apply IH].
  - apply Forall_app in Ho as [Hos Ho].
    constructor; [by apply blank_concat | by apply IH].
  - apply Forall_app in Hn as [Hns Hn].
    constructor; [by apply blank_concat | by apply IH].
Qed.

Lemma diffStep_blank st p :
  isBlank (partText p) = true ->
  hasRealChanges (diffStep st p) = hasRealChanges st.
Proof.
  intros H. unfold diffStep. rewrite !truthy_trim, H.
  by destruct (added p), (removed p).
Qed.

Lemma fold_blank ps : forall st,
  Forall (fun p => isBlank (partText p) = true) ps ->
  hasRealChanges (fold_left diffStep ps st) = hasRealChanges st.
Proof.
  induction ps as [|p ps IH]; intros st H; [done |].
  inversion H; subst. cbn [fold_left]. rewrite IH by done. by apply diffStep_blank.
Qed.

(** ** Sentence splitting *)

Lemma sentStep_prepend d st c :
  sentStep (prependDone d st) c = prependDone d (sentStep st c).
Proof.
  unfold sentStep, prependDone. cbn [edone ecur epend].
  destruct (epend st); [destruct (isSpace c && endsWithTerminal (ecur st)); done |].
  destruct (isSpace c); [done |]. destruct (isUpper c); [|done].
  cbn [edone ecur epend]. by rewrite app_assoc.
Qed.

Lemma sentFold_prepend d s : forall st,
  fold_left sentStep s (prependDone d st) = prependDone d (fold_left sentStep s st).
Proof.
  induction s as [|c s IH]; intros st; [done |].
  cbn [fold_left]. by rewrite sentStep_prepend, IH.
Qed.

(** A whitespace run after a terminal character, or after a pending run, is
    kept pending. *)
Lemma scan_blank ws : forall d cur p,
  isBlank ws = true -> (p <> [] \/ endsWithTerminal cur = true) ->
  fold_left sentStep ws {| edone := d; ecur := cur; epend := p |} =
  {| edone := d; ecur := cur; epend := p ++ ws |}.
Proof.
  induction ws as [|c ws IH]; intros d cur p Hb Hp.
  - by rewrite app_nil_r.
  - simpl in Hb. apply andb_true_iff in Hb as [Hc Hb]. cbn [fold_left].
    assert (Hstep : sentStep {| edone := d; ecur := cur; epend := p |} c =
                    {| edone := d; ecur := cur; epend := p ++ [c] |}).
    { unfold sentStep. cbn [edone ecur epend]. destruct p as [|x p].
      - destruct Hp as [|Hp]; [done |]. by rewrite Hc, Hp.
      - by rewrite Hc. }
    rewrite Hstep, IH; [by rewrite <- app_assoc | done |].
    left. by destruct p.
Qed.

(** The scan of [s ws u rest], for a closed [s] that ends with a terminal
    character, a whitespace run [ws] and a capital [u], closes [s] and goes
    on as the scan of [u rest]. *)
Lemma scan_separator s ws u rest :
  closed s -> endsWithTerminal s = true ->
  ws <> [] -> isBlank ws = true -> isUpper u = true ->
  fold_left sentStep (s ++ ws ++ u :: rest) sentInit =
  prependDone [s] (fold_left sentStep (u :: rest) sentInit).
Proof.
  intros Hs Ht Hne Hb Hu. rewrite !fold_left_app, Hs.
  rewrite scan_blank by auto. cbn [fold_left app].
  rewrite <- sentFold_prepend. f_equal.
  unfold sentStep, prependDone, sentInit. cbn [edone ecur epend].
  rewrite (upper_not_space u Hu), Hu. by destruct ws.
Qed.

Lemma splitSentences_separator s ws u rest :
  closed s -> endsWithTerminal s = true ->
  ws <> [] -> isBlank ws = true -> isUpper u = true ->
  splitSentences (s ++ ws ++ u :: rest) = s :: splitSentences (u :: rest).
Proof.
  intros. unfold splitSentences. by rewrite scan_separator.
Qed.

Lemma sentences_sound text ss : sentences text ss -> splitSentences text = ss.
Proof.
  induction 1 as [|s ws u rest ss Hs Ht Hne Hb Hu _ IH]; [done |].
  by rewrite splitSentences_separator, IH.
Qed.

Lemma closed_single s : closed s -> splitSentences s = [s].
Proof.
  intros H. unfold splitSentences. rewrite H. unfold sentFinish. simpl.
  by rewrite app_nil_r.
Qed.

(** The scan of [t] either has closed no sentence yet, or [t] begins with a
    closed sentence, a separator and a capital. *)
Lemma scan_state t :
  let st := fold_left sentStep t sentInit in
  (edone st = [] /\ ecur st ++ epend st = t /\ closed (ecur st) /\
   isBlank (epend st) = true /\ (epend st <> [] -> endsWithTerminal (ecur st) = true))
  \/ (exists s ws u rest,
        t = s ++ ws ++ u :: rest /\ closed s /\ endsWithTerminal s = true /\
        ws <> [] /\ isBlank ws = true /\ isUpper u = true).
Proof.
  induction t as [|c t IH] using rev_ind; cbv zeta.
  { left. by repeat split. }
  cbv zeta in IH.
  destruct IH as [(Hd & Ht & Hcl & Hb & Hp)|(s & ws & u & rest & -> & H)].
  2:{ right. exists s, ws, u, (rest ++ [c]). split; [|done].
      by rewrite <- !app_assoc. }
  remember (fold_left sentStep (t ++ [c]) sentInit) as st' eqn:Hdef.
  assert (Hfold : st' = sentStep (fold_left sentStep t sentInit) c)
    by (by rewrite Hdef, fold_left_app).
  destruct (fold_left sentStep t sentInit) as [d cur p] eqn:Est.
  cbn [edone ecur epend] in *. subst d.
  unfold sentStep in Hfold. cbn [edone ecur epend] in Hfold.
  destruct p as [|x p].
  - rewrite app_nil_r in Ht. subst cur.
    destruct (isSpace c && endsWithTerminal t) eqn:Hc.
    + apply andb_true_iff in Hc as [Hc1 Hc2]. left. rewrite Hfold.
      cbn [edone ecur epend]. repeat split; try done. simpl. by rewrite Hc1.
    + left. rewrite Hfold. cbn [edone ecur epend]. rewrite app_nil_r.
      repeat split; try done. unfold closed. by rewrite <- Hdef, Hfold.
  - destruct (isSpace c) eqn:Hc.
    + left. rewrite Hfold. cbn [edone ecur epend]. repeat split; try done.
      * by rewrite <- Ht, <- app_assoc.
      * by rewrite isBlank_app, Hb; simpl; rewrite Hc.
      * intros _. by apply Hp.
    + destruct (isUpper c) eqn:Hu.
      * right. exists cur, (x :: p), c, []. rewrite <- Ht, <- app_assoc.
        repeat split; try done. by apply Hp.
      * left. rewrite Hfold. cbn [edone ecur epend]. rewrite app_nil_r.
        assert (Heq : cur ++ (x :: p) ++ [c] = t ++ [c])
          by (by rewrite <- Ht, <- app_assoc).
        repeat split; try done. rewrite Heq. unfold closed.
        by rewrite <- Hdef, Hfold, Heq.
Qed.

Lemma sentences_complete_fuel n : forall text,
  length text <= n -> sentences text (splitSentences text).
Proof.
  induction n as [|n IH]; intros text Hlen.
  - destruct text; [|simpl in Hlen; lia]. by apply sentences_one.
  - destruct (scan_state text) as [(Hd & Ht & _)|(s & ws & u & rest & -> & Hs & Hterm & Hne & Hb & Hu)].
    + assert (Hone : splitSentences text = [text])
        by (unfold splitSentences, sentFinish; by rewrite Hd, Ht).
      rewrite Hone. by apply sentences_one.
    + rewrite splitSentences_separator by done.
      apply sentences_cons; try done. apply IH.
      rewrite !length_app in Hlen. destruct ws; [done |]. simpl in *. lia.
Qed.

(** [splitSentences] cuts the text at every separator and nowhere else. *)
Lemma sentences_complete text : sentences text (splitSentences text).
Proof. by apply (sentences_complete_fuel (length text)). Qed.

Lemma sentStep_done_length st c :
  length (edone st) <= length (edone (sentStep st c)).
Proof.
  unfold sentStep. destruct (epend st); [by destruct (_ && _) |].
  destruct (isSpace c); [done |]. destruct (isUpper c); [|done].
  cbn [edone]. rewrite length_app. lia.
Qed.

Lemma sentFold_done_length s : forall st,
  length (edone st) <= length (edone (fold_left sentStep s st)).
Proof.
  induction s as [|c s IH]; intros st; [done |].
  cbn [fold_left]. etransitivity; [apply sentStep_done_length | apply IH].
Qed.

(** After a character that is not whitespace nothing is pending and the
    open sentence ends with that character. *)
Lemma sentStep_nonspace st c :
  isSpace c = false ->
  epend (sentStep st c) = [] /\ exists q, ecur (sentStep st c) = q ++ [c].
Proof.
  intros Hc. unfold sentStep. rewrite Hc. destruct (epend st) as [|x p]; simpl.
  - split; [done | by eexists].
  - destruct (isUpper c); cbn [ecur epend]; split; try done.
    + by exists [].
    + exists (ecur st ++ x :: p). by rewrite <- app_assoc.
Qed.

Lemma endsWithTerminal_snoc q t : endsWithTerminal (q ++ [t]) = isTerminal t.
Proof. unfold endsWithTerminal. by rewrite rev_app_distr. Qed.

(** The scanner against the regular expression: a text is left whole
    exactly when the expression matches nowhere in it. *)
Lemma single_iff_no_separator text :
  splitSentences text = [text] <-> ~ hasSeparator text.
Proof.
  split.
  - intros Hone (a & t & ws & u & b & -> & Ht & Hne & Hb & Hu).
    unfold splitSentences in Hone. rewrite !fold_left_app in Hone.
    cbn [fold_left] in Hone.
    destruct (sentStep_nonspace (fold_left sentStep a sentInit) t
                (terminal_not_space t Ht)) as [Hp (q & Hq)].
    destruct (sentStep (fold_left sentStep a sentInit) t) as [d cur p].
    cbn [ecur epend] in *. subst p cur.
    rewrite scan_blank in Hone by (auto using endsWithTerminal_snoc; right;
      by rewrite endsWithTerminal_snoc).
    set (st := sentStep {| edone := d; ecur := q ++ [t]; epend := [] ++ ws |} u) in Hone.
    assert (Hlen : 1 <= length (edone st)).
    { unfold st, sentStep. cbn [edone ecur epend app].
      rewrite (upper_not_space u Hu), Hu. destruct ws; [done |].
      cbn [edone]. rewrite length_app. simpl. lia. }
    pose proof (sentFold_done_length b st) as Hmono.
    unfold sentFinish in Hone. apply (f_equal length) in Hone.
    rewrite length_app in Hone. simpl in Hone. lia.
  - intros Hno. destruct (scan_state text)
      as [(Hd & Ht & _)|(s & ws & u & rest & -> & _ & Hterm & Hne & Hb & Hu)].
    + unfold splitSentences, sentFinish. by rewrite Hd, Ht.
    + exfalso. apply Hno. unfold endsWithTerminal in Hterm.
      destruct (rev s) as [|t q] eqn:Er; [done |].
      apply (f_equal (@rev ascii)) in Er. rewrite rev_involutive in Er.
      simpl in Er. subst s.
      exists (rev q), t, ws, u, rest. rewrite <- !app_assoc. by repeat split.
Qed.

(** ** The loop of [splitIntoParagraphs] and the groups of sentences *)

Lemma bufferOf_snoc g s : bufferOf (g ++ [s]) = appendSentence (bufferOf g) s.
Proof. unfold bufferOf. by rewrite fold_left_app. Qed.

Lemma paraStep_groups gst s :
  paraStep (renderState gst) s = renderState (groupStep gst s).
Proof.
  unfold paraStep, groupStep, renderState. cbn [current paragraphs].
  destruct (capExceeded (bufferOf (gopen gst)) s); cbn [gclosed gopen].
  - by rewrite fmap_app.
  - by rewrite bufferOf_snoc.
Qed.

Lemma paraFold_groups ss : forall gst,
  fold_left paraStep ss (renderState gst) = renderState (fold_left groupStep ss gst).
Proof.
  induction ss as [|s ss IH]; intros gst; [done |].
  cbn [fold_left]. by rewrite paraStep_groups, IH.
Qed.

Lemma paraFold_init ss :
  fold_left paraStep ss paraInit = renderState (fold_left groupStep ss groupInit).
Proof. by rewrite <- paraFold_groups. Qed.

Lemma groupStep_concat st s :
  concat (groupsOf (groupStep st s)) = concat (groupsOf st) ++ [s].
Proof.
  unfold groupStep, groupsOf.
  destruct (capExceeded _ s); cbn [gclosed gopen]; rewrite !concat_app; simpl;
    rewrite ?app_nil_r, <- ?app_assoc; done.
Qed.

Lemma groupFold_concat ss : forall st,
  concat (groupsOf (fold_left groupStep ss st)) = concat (groupsOf st) ++ ss.
Proof.
  induction ss as [|s ss IH]; intros st; [by rewrite app_nil_r |].
  cbn [fold_left]. rewrite IH, groupStep_concat, <- app_assoc. done.
Qed.

(** The groups partition the sentences. *)
Lemma sentenceGroups_concat ss : concat (sentenceGroups ss) = ss.
Proof. unfold sentenceGroups. by rewrite groupFold_concat. Qed.

Lemma capExceeded_spec cur s :
  capExceeded cur s = true <-> 500 < length cur + length s /\ cur <> [].
Proof.
  unfold capExceeded. rewrite andb_true_iff, !Nat.ltb_lt.
  destruct cur; simpl; intuition (try lia; try done).
Qed.

(** C4, as the code has it.  The paragraphs are built from whole sentences:
    the groups of [sentenceGroups] partition the sentence sequence, and the
    state of the loop is, at every sentence, the trimmed joins of the closed
    groups and the join of the open one.  When the sentence [s] arrives, the
    loop pushes the trimmed buffer and starts a new buffer (a new group)
    with [s] exactly when the length of the buffer plus the length of [s] -
    the joining space not counted - exceeds 500 and the buffer is not empty;
    otherwise [s] is appended to the buffer (joins the open group). *)
Theorem paragraph_cap_rule (text : str) :
  let sents := splitSentences text in
  concat (sentenceGroups sents) = sents /\
  splitIntoParagraphs text =
    paraFinish text (renderState (fold_left groupStep sents groupInit)) /\
  (forall pre s post, sents = pre ++ s :: post ->
     let pst := fold_left paraStep pre paraInit in
     let gst := fold_left groupStep pre groupInit in
     pst = renderState gst /\
     (closesAt pst s <-> 500 < length (current pst) + length s /\ current pst <> []) /\
     (~ closesAt pst s ->
        paraStep pst s =
        {| paragraphs := paragraphs pst; current := appendSentence (current pst) s |}) /\
     sentenceGroups (pre ++ [s]) =
       (if capExceeded (current pst) s
        then gclosed gst ++ [gopen gst; [s]]
        else gclosed gst ++ [gopen gst ++ [s]])).
Proof.
  intros sents. split; [apply sentenceGroups_concat |].
  split; [unfold splitIntoParagraphs; by rewrite paraFold_init |].
  intros pre s post _ pst gst.
  assert (Hpst : pst = renderState gst) by apply paraFold_init.
  split; [done |].
  assert (Hcl : closesAt pst s <-> capExceeded (current pst) s = true).
  { unfold closesAt, paraStep. destruct (capExceeded (current pst) s); [done |].
    split; [|done]. intros [= Hp _]. apply (f_equal length) in Hp.
    rewrite length_app in Hp. simpl in Hp. lia. }
  split; [by rewrite Hcl, capExceeded_spec |].
  split.
  - intros Hn. unfold paraStep. destruct (capExceeded (current pst) s); [|done].
    exfalso. by apply Hn, Hcl.
  - unfold sentenceGroups. rewrite fold_left_app. cbn [fold_left]. fold gst.
    unfold groupStep, groupsOf. rewrite Hpst. cbn [renderState current].
    destruct (capExceeded (bufferOf (gopen gst)) s); cbn [gclosed gopen]; [|done].
    by rewrite <- app_assoc.
Qed.

(** Two sentences of 250 characters each: the second arrives when the
    buffer holds the first. *)
Lemma paragraph_cap_rule_witness :
  let s0 := repeat "a"%char 249 ++ lit "." in
  let s1 := "B"%char :: repeat "b"%char 248 ++ lit "." in
  ~ closesAt (fold_left paraStep [s0] paraInit) s1.
Proof.
  intros s0 s1.
  assert (HS : splitSentences (s0 ++ lit " " ++ s1) = [s0] ++ s1 :: [])
    by (vm_compute; reflexivity).
  destruct (paragraph_cap_rule (s0 ++ lit " " ++ s1)) as (_ & _ & H).
  destruct (H [s0] s1 [] HS) as (_ & Hiff & _).
  intros Hc. apply Hiff in Hc as [Hlen _]. vm_compute in Hlen. lia.
Defined.

(** C4, as the spec words it, fails: with a buffer of 250 characters and a
    sentence of 250 characters, appending the sentence makes a buffer of
    501 characters, past 500, and the buffer is not empty; yet the loop
    appends, and the whole text is one paragraph of 501 characters. *)
Lemma paragraph_cap_rule_counterexample :
  let s0 := repeat "a"%char 249 ++ lit "." in
  let s1 := "B"%char :: repeat "b"%char 248 ++ lit "." in
  let text := s0 ++ lit " " ++ s1 in
  let pst := fold_left paraStep [s0] paraInit in
  splitSentences text = [s0; s1] /\
  ~ (closesAt pst s1 <->
     500 < length (appendSentence (current pst) s1) /\ current pst <> []) /\
  splitIntoParagraphs text = [text] /\ length text = 501.
Proof.
  intros s0 s1 text pst.
  split; [vm_compute; reflexivity |].
  split; [|split; vm_compute; reflexivity].
  intros [_ Hback].
  assert (Hc : closesAt pst s1).
  { apply Hback. split; [vm_compute; lia | vm_compute; discriminate]. }
  unfold closesAt in Hc. vm_compute in Hc. discriminate Hc.
Qed.

(** ** Sentences that are joined again *)

Lemma sentences_head u rest ss :
  sentences (u :: rest) ss -> exists r ss', ss = (u :: r) :: ss'.
Proof.
  intros H. inversion H as [s Hs|s ws u' rest' ss' Hc Ht Hne Hb Hu HS Heq]; subst.
  - by exists rest, [].
  - destruct s as [|c s]; [done |]. injection Heq as -> _. by exists s, ss'.
Qed.

Lemma sentences_chain text ss : sentences text ss -> chain ss.
Proof.
  induction 1 as [s Hs|s ws u rest ss Hc Ht Hne Hb Hu HS IH]; [by constructor |].
  destruct (sentences_head _ _ _ HS) as (r & ss' & ->). by constructor.
Qed.

Lemma joinSp_cons s u r ss :
  joinSp (s :: (u :: r) :: ss) = s ++ lit " " ++ joinSp ((u :: r) :: ss).
Proof. reflexivity. Qed.

Lemma joinSp_head u r ss : exists rest, joinSp ((u :: r) :: ss) = u :: rest.
Proof. destruct ss as [|t ss]; [by exists r | by eexists]. Qed.

Lemma chain_join g : chain g -> sentences (joinSp g) g.
Proof.
  induction 1 as [s Hs|s u r ss Hc Ht Hu _ IH]; [by constructor |].
  rewrite joinSp_cons. destruct (joinSp_head u r ss) as (rest & Hj).
  rewrite Hj in *. by apply sentences_cons.
Qed.

(** The sentences of a joined chain are the chain. *)
Lemma splitSentences_join g : chain g -> splitSentences (joinSp g) = g.
Proof. intros H. by apply sentences_sound, chain_join. Qed.

Lemma chain_app g1 : forall g2,
  g1 <> [] -> g2 <> [] -> chain (g1 ++ g2) -> chain g1 /\ chain g2.
Proof.
  induction g1 as [|s g1 IH]; intros g2 H1 H2 Hc; [done |].
  destruct g1 as [|t g1].
  - destruct g2 as [|h g2]; [done |]. simpl in Hc.
    inversion Hc as [|s' u r ss Hcl Ht Hu Hrest]; subst.
    split; [|done]. constructor. by apply closed_single.
  - simpl in Hc. inversion Hc as [|s' u r ss Hcl Ht Hu Hrest]; subst.
    destruct (IH g2) as [Hg1 Hg2]; [done | done | done |].
    split; [|done]. by constructor.
Qed.

Lemma chain_groups G :
  Forall (fun g => g <> []) G -> G <> [] -> chain (concat G) -> Forall chain G.
Proof.
  induction G as [|g G IH]; intros Hne _ Hc; [done |].
  inversion Hne as [|? ? Hg HG]; subst. destruct G as [|h G].
  - simpl in Hc. rewrite app_nil_r in Hc. by repeat constructor.
  - simpl in Hc. destruct (chain_app g (h ++ concat G)) as [Hcg Hrest]; try done.
    { inversion HG; subst. by destruct h. }
    constructor; [done |]. by apply IH.
Qed.

Lemma endsNonSpace_app_r a b : b <> [] -> endsNonSpace (a ++ b) = endsNonSpace b.
Proof.
  intros Hb. unfold endsNonSpace. rewrite rev_app_distr.
  destruct (rev b) as [|c r] eqn:E; [|done].
  apply (f_equal (@rev ascii)) in E. rewrite rev_involutive in E. done.
Qed.

Lemma endsWithTerminal_endsNonSpace s :
  endsWithTerminal s = true -> endsNonSpace s = true.
Proof.
  unfold endsWithTerminal, endsNonSpace. destruct (rev s) as [|c r]; [done |].
  simpl. intros H. by rewrite (terminal_not_space c H).
Qed.

Lemma sentences_tight text ss : sentences text ss -> tight text -> Forall tight ss.
Proof.
  induction 1 as [s Hs|s ws u rest ss Hc Ht Hne Hb Hu HS IH]; intros [Hst Hen].
  { by repeat constructor. }
  constructor.
  - split; [|by apply endsWithTerminal_endsNonSpace].
    destruct s as [|c s]; [done | done].
  - apply IH. split.
    + simpl. by rewrite (upper_not_space u Hu).
    + rewrite app_assoc, endsNonSpace_app_r in Hen; done.
Qed.

Lemma fold_appendSentence g : forall cur,
  cur <> [] -> g <> [] ->
  fold_left appendSentence g cur = cur ++ lit " " ++ joinSp g.
Proof.
  induction g as [|s g IH]; intros cur Hc Hg; [done |].
  cbn [fold_left]. destruct g as [|t g].
  - simpl. by destruct cur.
  - rewrite IH; [| by destruct cur | done].
    unfold appendSentence. destruct cur as [|c cur]; [done |].
    change (joinSp (s :: t :: g)) with (s ++ lit " " ++ joinSp (t :: g)).
    by rewrite <- !app_assoc.
Qed.

Lemma bufferOf_join g : Forall (fun s => s <> []) g -> bufferOf g = joinSp g.
Proof.
  intros H. destruct g as [|s g]; [done |].
  unfold bufferOf. cbn [fold_left]. unfold appendSentence at 2. simpl app.
  destruct g as [|t g]; [done |].
  inversion H as [|? ? Hs _]; subst.
  rewrite fold_appendSentence; [done | done | done].
Qed.

Lemma groupStep_ok st s : groupsOk st -> groupsOk (groupStep st s) /\ gopen (groupStep st s) <> [].
Proof.
  intros [Hc Ho]. unfold groupStep, groupsOk.
  destruct (capExceeded (bufferOf (gopen st)) s) eqn:E; cbn [gclosed gopen].
  - apply capExceeded_spec in E as [_ E].
    assert (gopen st <> []) by (intros Hn; by rewrite Hn in E).
    repeat split; try done. apply Forall_app. by repeat constructor.
  - repeat split; try done; by destruct (gopen st).
Qed.

Lemma groupFold_ok ss : forall st,
  groupsOk st -> (ss <> [] \/ gopen st <> []) ->
  groupsOk (fold_left groupStep ss st) /\ gopen (fold_left groupStep ss st) <> [].
Proof.
  induction ss as [|s ss IH]; intros st Hok Hne.
  - by destruct Hne.
  - cbn [fold_left]. destruct (groupStep_ok st s Hok) as [Hok' Hne'].
    apply IH; auto.
Qed.

Lemma splitSentences_nonempty text : splitSentences text <> [].
Proof. unfold splitSentences, sentFinish. by destruct (edone _). Qed.

Lemma Forall_concat_inv {A} (P : A -> Prop) (G : list (list A)) :
  Forall P (concat G) -> Forall (Forall P) G.
Proof.
  induction G as [|g G IH]; [constructor |].
  simpl. intros H. apply Forall_app in H as [Hg HG]. constructor; auto.
Qed.

Lemma endsNonSpace_not_blank s : endsNonSpace s = true -> isBlank s = false.
Proof.
  intros H. rewrite <- isBlank_rev. by apply startsNonSpace_not_blank.
Qed.

Lemma sentences_blank text ss :
  sentences text ss -> Forall (fun s => isBlank s = true) ss -> isBlank text = true.
Proof.
  induction 1 as [s Hs|s ws u rest ss Hc Ht Hne Hb Hu HS IH]; intros Hall.
  - by inversion Hall.
  - inversion Hall as [|? ? Hsb _]; subst.
    apply endsWithTerminal_endsNonSpace, endsNonSpace_not_blank in Ht. congruence.
Qed.

Lemma blank_single text : isBlank text = true -> splitSentences text = [text].
Proof.
  intros Hb. pose proof (sentences_complete text) as HS.
  inversion HS as [s Hs|s ws u rest ss Hc Ht Hne Hbw Hu HS' Heq Hsp]; [congruence |].
  subst text. rewrite isBlank_app in Hb. apply andb_true_iff in Hb as [Hb _].
  apply endsWithTerminal_endsNonSpace, endsNonSpace_not_blank in Ht. congruence.
Qed.

(** A text of whitespace only is returned whole, as its only paragraph. *)
Lemma paragraphs_of_blank text :
  isBlank text = true -> splitIntoParagraphs text = [text].
Proof.
  intros Hb. unfold splitIntoParagraphs. rewrite (blank_single text Hb).
  cbn [fold_left]. unfold paraStep, paraInit, capExceeded. cbn [current paragraphs].
  rewrite andb_false_r. unfold paraFinish, appendSentence. cbn [current paragraphs app].
  by rewrite (trim_blank text Hb).
Qed.

(** ** Leading and trailing whitespace *)

Lemma endsWithTerminal_blank s : isBlank s = true -> endsWithTerminal s = false.
Proof.
  intros Hb. unfold endsWithTerminal. rewrite <- isBlank_rev in Hb.
  destruct (rev s) as [|c r]; [done |]. simpl in Hb.
  apply andb_true_iff in Hb as [Hc _].
  by apply space_not_terminal.
Qed.

Lemma endsWithTerminal_lead lead s :
  isBlank lead = true -> endsWithTerminal (lead ++ s) = endsWithTerminal s.
Proof.
  intros Hb. destruct s as [|c s] using rev_ind.
  - rewrite app_nil_r. by rewrite endsWithTerminal_blank.
  - by rewrite app_assoc, !endsWithTerminal_snoc.
Qed.

Lemma sentStep_pad lead st c :
  isBlank lead = true ->
  sentStep (padState lead st) c = padState lead (sentStep st c).
Proof.
  intros Hb. unfold sentStep, padState. destruct st as [d cur p].
  cbn [edone ecur epend]. destruct d as [|d0 ds]; cbn [edone ecur epend].
  - rewrite (endsWithTerminal_lead lead cur Hb). destruct p as [|x p].
    + destruct (isSpace c && endsWithTerminal cur); cbn [edone]; try done.
      by rewrite <- app_assoc.
    + destruct (isSpace c); [done |]. destruct (isUpper c); cbn [edone app]; [done |].
      by rewrite <- app_assoc.
  - destruct p as [|x p].
    + by destruct (isSpace c && endsWithTerminal cur).
    + destruct (isSpace c); [done |]. by destruct (isUpper c).
Qed.

Lemma sentFold_pad lead s : forall st,
  isBlank lead = true ->
  fold_left sentStep s (padState lead st) = padState lead (fold_left sentStep s st).
Proof.
  induction s as [|c s IH]; intros st Hb; [done |].
  cbn [fold_left]. by rewrite sentStep_pad, IH.
Qed.

(** Whitespace at the start of a text stays at the start of its first
    sentence. *)
Lemma scan_lead d lead : forall cur,
  isBlank lead = true -> endsWithTerminal cur = false ->
  fold_left sentStep lead {| edone := d; ecur := cur; epend := [] |} =
  {| edone := d; ecur := cur ++ lead; epend := [] |}.
Proof.
  induction lead as [|c lead IH]; intros cur Hb Ht; [by rewrite app_nil_r |].
  simpl in Hb. apply andb_true_iff in Hb as [Hc Hb]. cbn [fold_left].
  unfold sentStep at 2. cbn [edone ecur epend]. rewrite Ht, andb_false_r.
  rewrite IH; [by rewrite <- app_assoc | done |].
  rewrite endsWithTerminal_snoc. by apply space_not_terminal.
Qed.

Lemma sentFinish_pad lead st :
  sentFinish (padState lead st) = padFirst lead (sentFinish st).
Proof.
  unfold sentFinish, padState. destruct (edone st) as [|d ds]; cbn [edone ecur epend].
  - simpl. by rewrite <- app_assoc.
  - done.
Qed.

Lemma splitSentences_lead lead s :
  isBlank lead = true ->
  splitSentences (lead ++ s) = padFirst lead (splitSentences s).
Proof.
  intros Hb. unfold splitSentences.
  assert (Hst : fold_left sentStep lead sentInit = padState lead sentInit).
  { unfold sentInit. rewrite scan_lead by done. unfold padState. simpl.
    by rewrite app_nil_r. }
  by rewrite fold_left_app, Hst, sentFold_pad, sentFinish_pad.
Qed.

Lemma padLast_snoc trail (d : list str) x :
  padLast trail (d ++ [x]) = d ++ [x ++ trail].
Proof.
  induction d as [|y d IH]; [done |].
  simpl. rewrite IH. by destruct (d ++ [x]) eqn:E; [destruct d |].
Qed.

(** Whitespace at the end of a text stays at the end of its last sentence. *)
Lemma scan_trail trail d cur :
  isBlank trail = true ->
  sentFinish (fold_left sentStep trail {| edone := d; ecur := cur; epend := [] |}) =
  d ++ [cur ++ trail].
Proof.
  intros Hb. destruct (endsWithTerminal cur) eqn:Ht.
  - by rewrite scan_blank by auto.
  - rewrite scan_lead by done. unfold sentFinish. simpl. by rewrite app_nil_r.
Qed.

Lemma splitSentences_trail s trail :
  isBlank trail = true -> s = [] \/ endsNonSpace s = true ->
  splitSentences (s ++ trail) = padLast trail (splitSentences s).
Proof.
  intros Hb Hs. unfold splitSentences. rewrite fold_left_app.
  assert (Hp : epend (fold_left sentStep s sentInit) = []).
  { destruct Hs as [->|He]; [done |]. unfold endsNonSpace in He.
    destruct (rev s) as [|c q] eqn:Er; [done |].
    apply (f_equal (@rev ascii)) in Er. rewrite rev_involutive in Er. subst s.
    simpl in He. apply negb_true_iff in He. simpl. rewrite fold_left_app.
    cbn [fold_left]. by apply sentStep_nonspace. }
  destruct (fold_left sentStep s sentInit) as [d cur p]. cbn [epend] in Hp. subst p.
  rewrite scan_trail by done. unfold sentFinish. cbn [edone ecur epend].
  by rewrite app_nil_r, padLast_snoc.
Qed.

Lemma trimStart_lead lead s : isBlank lead = true -> trimStart (lead ++ s) = trimStart s.
Proof.
  induction lead as [|c lead IH]; [done |]. simpl. intros Hb.
  apply andb_true_iff in Hb as [Hc Hb]. rewrite Hc. by apply IH.
Qed.

(** Trimming takes the whitespace around a tight string away. *)
Lemma trim_pad lead x trail :
  isBlank lead = true -> isBlank trail = true -> tight x ->
  trim (lead ++ x ++ trail) = x.
Proof.
  intros Hl Ht [Hs He]. unfold trim. rewrite trimStart_lead by done.
  rewrite trimStart_id by (by apply startsNonSpace_app).
  unfold trimEnd. rewrite rev_app_distr, trimStart_lead by (by rewrite isBlank_rev).
  by rewrite trimStart_id, rev_involutive.
Qed.

(** A string that is not blank is its trimmed form with whitespace around. *)
Lemma trim_decompose y :
  isBlank y = false ->
  exists lead trail, y = lead ++ trim y ++ trail /\
    isBlank lead = true /\ isBlank trail = true /\ tight (trim y).
Proof.
  intros Hy. destruct (trimStart_split y) as (lead & Hl & Hbl).
  destruct (trimEnd_split (trimStart y)) as (trail & Ht & Hbt).
  exists lead, trail. fold (trim y) in Ht. repeat split; try done.
  - by rewrite <- Ht.
  - by destruct (trim_shape y) as [Hn|[? ?]]; [apply trim_nil_blank in Hn; congruence |].
  - by destruct (trim_shape y) as [Hn|[? ?]]; [apply trim_nil_blank in Hn; congruence |].
Qed.

Lemma trim_padLast trail ss :
  isBlank trail = true -> Forall tight ss -> trim <$> padLast trail ss = ss.
Proof.
  intros Hb. induction 1 as [|x ss Hx Hss IH]; [done |].
  destruct ss as [|y ss].
  - simpl. f_equal. by apply (trim_pad [] x trail).
  - change (padLast trail (x :: y :: ss)) with (x :: padLast trail (y :: ss)).
    rewrite fmap_cons, IH. f_equal. by apply trim_tight.
Qed.

Lemma trim_padFirst lead trail ss :
  isBlank lead = true -> isBlank trail = true -> Forall tight ss ->
  trim <$> padFirst lead (padLast trail ss) = ss.
Proof.
  intros Hl Ht Hall. destruct ss as [|x ss]; [done |].
  inversion Hall as [|? ? Hx Hss]; subst. destruct ss as [|y ss].
  - simpl. f_equal. by apply trim_pad.
  - change (padLast trail (x :: y :: ss)) with (x :: padLast trail (y :: ss)).
    cbn [padFirst]. rewrite fmap_cons, trim_padLast by done. f_equal.
    rewrite <- (app_nil_r x) at 1. by apply trim_pad.
Qed.

(** The sentences of a trimmed text are the trimmed sentences of the text. *)
Lemma splitSentences_trim y :
  isBlank y = false -> splitSentences (trim y) = trim <$> splitSentences y.
Proof.
  intros Hy. destruct (trim_decompose y Hy) as (lead & trail & Heq & Hl & Ht & Htight).
  rewrite Heq at 2. rewrite splitSentences_lead by done.
  rewrite splitSentences_trail by (try done; right; apply Htight).
  rewrite trim_padFirst; try done.
  apply (sentences_tight (trim y)); [apply sentences_complete | done].
Qed.

(** ** The sentences of the paragraphs *)

Lemma sentences_not_blank text ss :
  sentences text ss -> isBlank text = false ->
  Forall (fun s => isBlank s = false) ss.
Proof.
  induction 1 as [s Hs|s ws u rest ss Hc Ht Hne Hb Hu HS IH]; intros Hn.
  { by repeat constructor. }
  constructor.
  - by apply endsNonSpace_not_blank, endsWithTerminal_endsNonSpace.
  - apply IH. simpl. by rewrite (upper_not_space u Hu).
Qed.

Lemma not_blank_nonempty s : isBlank s = false -> s <> [].
Proof. by destruct s. Qed.

Lemma joinSp_not_blank g :
  g <> [] -> Forall (fun s => isBlank s = false) g -> isBlank (joinSp g) = false.
Proof.
  intros Hne H. destruct g as [|s g]; [done |].
  inversion H as [|? ? Hs _]; subst. destruct g as [|t g]; [done |].
  change (joinSp (s :: t :: g)) with (s ++ lit " " ++ joinSp (t :: g)).
  by rewrite isBlank_app, Hs.
Qed.

(** On a text that is not blank, every paragraph is the trimmed join of its
    group of sentences, and no paragraph is dropped. *)
Lemma paragraphs_of_not_blank text :
  isBlank text = false ->
  let G := sentenceGroups (splitSentences text) in
  splitIntoParagraphs text = (fun g => trim (joinSp g)) <$> G /\
  Forall chain G /\ Forall (fun g => isBlank (joinSp g) = false) G.
Proof.
  intros Hn G.
  pose proof (sentences_complete text) as HS.
  pose proof (sentences_chain _ _ HS) as Hchain.
  pose proof (sentences_not_blank _ _ HS Hn) as Hnb.
  unfold G, sentenceGroups.
  set (gst := fold_left groupStep (splitSentences text) groupInit).
  destruct (groupFold_ok (splitSentences text) groupInit) as [[Hcl _] Hop].
  { split; [constructor | done]. }
  { left. apply splitSentences_nonempty. }
  fold gst in Hcl, Hop.
  assert (Hcat : concat (groupsOf gst) = splitSentences text)
    by apply sentenceGroups_concat.
  assert (HneG : Forall (fun g => g <> []) (groupsOf gst)).
  { unfold groupsOf. apply Forall_app. by repeat constructor. }
  assert (HnbG : Forall (Forall (fun s => isBlank s = false)) (groupsOf gst)).
  { apply Forall_concat_inv. by rewrite Hcat. }
  assert (HcG : Forall chain (groupsOf gst)).
  { apply chain_groups; [done | unfold groupsOf; by destruct (gclosed gst) |].
    by rewrite Hcat. }
  assert (Hrender : forall g, g <> [] -> Forall (fun s => isBlank s = false) g ->
             trim (bufferOf g) = trim (joinSp g) /\ isBlank (joinSp g) = false).
  { intros g Hg Hgn. rewrite bufferOf_join.
    - split; [done | by apply joinSp_not_blank].
    - revert Hgn. apply List.Forall_impl. apply not_blank_nonempty. }
  assert (Hall : Forall (fun g => trim (bufferOf g) = trim (joinSp g) /\
                                  isBlank (joinSp g) = false) (groupsOf gst)).
  { rewrite Forall_forall in HneG, HnbG |- *. intros g Hg.
    apply Hrender; [by apply HneG | by apply HnbG]. }
  split; [|split; [done |]].
  - unfold groupsOf in Hall. apply Forall_app in Hall as [HallC HallO].
    inversion HallO as [|? ? [Hro Hrb] _]; subst.
    unfold splitIntoParagraphs. rewrite paraFold_init. fold gst.
    unfold paraFinish, renderState. cbn [paragraphs current]. rewrite Hro.
    assert (Hmap : (fun g => trim (bufferOf g)) <$> gclosed gst =
                   (fun g => trim (joinSp g)) <$> gclosed gst).
    { apply Forall_fmap_ext_1. revert HallC. apply List.Forall_impl. by intros g []. }
    rewrite Hmap. unfold groupsOf. rewrite fmap_app. simpl.
    destruct (trim (joinSp (gopen gst))) as [|c r] eqn:Ej.
    + apply trim_nil_blank in Ej. congruence.
    + by destruct ((fun g => trim (joinSp g)) <$> gclosed gst).
  - revert Hall. apply List.Forall_impl. by intros g [].
Qed.

Lemma splitSentences_paragraphs G :
  Forall chain G -> Forall (fun g => isBlank (joinSp g) = false) G ->
  concat (splitSentences <$> ((fun g => trim (joinSp g)) <$> G)) = trim <$> concat G.
Proof.
  induction 1 as [|g G Hg _ IH]; intros Hnb; [done |].
  inversion Hnb as [|? ? Hgb HG]; subst.
  rewrite !fmap_cons. cbn [concat].
  rewrite splitSentences_trim, splitSentences_join, fmap_app, IH by done. done.
Qed.

(** C5, as the code has it.  For every text, the sentences of the
    paragraphs of [splitIntoParagraphs], taken in order, are the sentences
    of the text with its leading and trailing whitespace trimmed; a text of
    whitespace only is returned whole.  So for a text without leading or
    trailing whitespace, and for a text of whitespace only, they are
    exactly the sentences of the text. *)
Theorem segmentation_lossless (text : str) :
  concat (splitSentences <$> splitIntoParagraphs text) =
    splitSentences (if isBlank text then text else trim text) /\
  (trim text = text \/ isBlank text = true ->
   concat (splitSentences <$> splitIntoParagraphs text) = splitSentences text).
Proof.
  assert (Hgen : concat (splitSentences <$> splitIntoParagraphs text) =
                 splitSentences (if isBlank text then text else trim text)).
  { destruct (isBlank text) eqn:Hb.
    - rewrite (paragraphs_of_blank text Hb). simpl. apply app_nil_r.
    - destruct (paragraphs_of_not_blank text Hb) as (Hp & Hc & Hn). cbv zeta in *.
      rewrite Hp, splitSentences_paragraphs by done.
      by rewrite sentenceGroups_concat, splitSentences_trim. }
  split; [done |]. intros [Htrim|Hb].
  - rewrite Hgen. destruct (isBlank text); [done | by rewrite Htrim].
  - by rewrite Hgen, Hb.
Qed.

Lemma segmentation_lossless_witness :
  concat (splitSentences <$> splitIntoParagraphs (lit "The cat sat. The dog ran.")) =
  splitSentences (lit "The cat sat. The dog ran.").
Proof.
  apply (proj2 (segmentation_lossless (lit "The cat sat. The dog ran."))).
  left. vm_compute. reflexivity.
Defined.

(** C5, as the spec words it, fails on a text that starts with a space: the
    only paragraph is trimmed, and its only sentence is not the sentence of
    the text. *)
Lemma segmentation_lossless_counterexample :
  splitSentences (lit " Hi.") = [lit " Hi."] /\
  splitIntoParagraphs (lit " Hi.") = [lit "Hi."] /\
  concat (splitSentences <$> splitIntoParagraphs (lit " Hi.")) <> splitSentences (lit " Hi.").
Proof.
  split; [vm_compute; reflexivity |]. split; [vm_compute; reflexivity |].
  vm_compute. intros H. discriminate H.
Qed.

(** ** The shape of a paragraph *)

Lemma fold_appendSentence_blank g : forall cur,
  isBlank (fold_left appendSentence g cur) = true ->
  isBlank cur = true /\ Forall (fun s => isBlank s = true) g.
Proof.
  induction g as [|s g IH]; intros cur H; [by split |].
  cbn [fold_left] in H. apply IH in H as [H Hg].
  unfold appendSentence in H. rewrite !isBlank_app in H.
  apply andb_true_iff in H as [Hc H]. apply andb_true_iff in H as [_ Hs].
  split; [done | by constructor].
Qed.

(** A paragraph that [splitIntoParagraphs] returns is trimmed and
    non-empty, or it is blank (the empty paragraph, or a text of whitespace
    returned whole). *)
Lemma paragraph_shape text p :
  p ∈ splitIntoParagraphs text -> tight p \/ isBlank p = true.
Proof.
  unfold splitIntoParagraphs. rewrite paraFold_init.
  set (gst := fold_left groupStep (splitSentences text) groupInit).
  assert (Htrim : forall x, tight (trim x) \/ isBlank (trim x) = true).
  { intros x. destruct (trim_shape x) as [->|Ht]; [by right | by left]. }
  unfold paraFinish, renderState. cbn [paragraphs current].
  set (ps := match trim (bufferOf (gopen gst)) with
             | [] => (fun g => trim (bufferOf g)) <$> gclosed gst
             | _ => ((fun g => trim (bufferOf g)) <$> gclosed gst) ++ [trim (bufferOf (gopen gst))]
             end).
  assert (Hps : forall q, q ∈ ps -> tight q \/ isBlank q = true).
  { intros q Hq. unfold ps in Hq.
    assert (Hcl : q ∈ (fun g => trim (bufferOf g)) <$> gclosed gst ->
                  tight q \/ isBlank q = true).
    { intros Hin. apply list_elem_of_fmap in Hin as (g & -> & _). apply Htrim. }
    destruct (trim (bufferOf (gopen gst))) as [|c r] eqn:E; [by apply Hcl |].
    apply elem_of_app in Hq as [Hq|Hq]; [by apply Hcl |].
    apply list_elem_of_singleton in Hq as ->. rewrite <- E. apply Htrim. }
  destruct ps as [|q ps'] eqn:Eps; [|intros Hp; by apply Hps].
  intros Hp. apply list_elem_of_singleton in Hp as ->. right.
  unfold ps in Eps.
  destruct (trim (bufferOf (gopen gst))) as [|c r] eqn:E;
    [|by destruct (_ <$> gclosed gst)].
  apply fmap_nil_inv in Eps.
  assert (Hcat : concat (groupsOf gst) = splitSentences text)
    by apply sentenceGroups_concat.
  unfold groupsOf in Hcat. rewrite Eps in Hcat. simpl in Hcat.
  rewrite app_nil_r in Hcat.
  apply trim_nil_blank in E. unfold bufferOf in E.
  apply fold_appendSentence_blank in E as [_ E]. rewrite Hcat in E.
  by apply (sentences_blank text (splitSentences text)); [apply sentences_complete |].
Qed.

Lemma blank_no_words (l : list str) :
  Forall (fun t => isBlank t = true) l ->
  List.filter (fun t => negb (isBlank t)) l = [].
Proof.
  induction 1 as [|t l Ht _ IH]; [done |]. simpl. by rewrite Ht.
Qed.

Lemma tight_words s :
  tight s -> exists l w, pairs l /\ isWord w /\ splitKeepSpaces s = l ++ [w] /\
    words s = List.filter (fun t => negb (isBlank t)) l ++ [w].
Proof.
  intros H. destruct (tight_tokens s H) as (l & w & Hp & Hw & Hs).
  exists l, w. split; [done |]. split; [done |]. split; [done |].
  unfold words. rewrite Hs, List.filter_app.
  simpl. by rewrite (isWord_not_blank w Hw).
Qed.

Section Whitespace.

Variable diffArrays : (str -> str -> bool) -> list str -> list str -> list part.
Hypothesis contract : diff_contract diffArrays.

Lemma same_words_no_changes oldPara newPara :
  tight oldPara \/ isBlank oldPara = true ->
  tight newPara \/ isBlank newPara = true ->
  words oldPara = words newPara ->
  hasChanges (diffParagraphs diffArrays oldPara newPara) = false.
Proof.
  intros [Ho|Ho] [Hn|Hn] Hw.
  - destruct (tight_words _ Ho) as (l1 & w1 & Hp1 & Hw1 & Hs1 & Hws1).
    destruct (tight_words _ Hn) as (l2 & w2 & Hp2 & Hw2 & Hs2 & Hws2).
    rewrite Hws1, Hws2 in Hw. apply app_inj_tail in Hw as [Hl ->].
    apply equal_tokens_no_changes; [done |]. rewrite Hs1, Hs2.
    apply Forall2_app; [by apply pairs_same_words |].
    constructor; [apply comparator_refl | constructor].
  - destruct (tight_words _ Ho) as (l1 & w1 & _ & _ & _ & Hws1).
    unfold words in Hw at 2. rewrite (blank_no_words _ (blank_tokens _ Hn)) in Hw.
    rewrite Hws1 in Hw. by destruct (List.filter _ l1).
  - destruct (tight_words _ Hn) as (l2 & w2 & _ & _ & _ & Hws2).
    unfold words in Hw at 1. rewrite (blank_no_words _ (blank_tokens _ Ho)) in Hw.
    rewrite Hws2 in Hw. by destruct (List.filter _ l2).
  - unfold diffParagraphs, diffLoop. cbn [hasChanges].
    rewrite fold_blank; [done |]. destruct contract as [Hscript _].
    eapply editScript_blank; [apply Hscript | |]; by apply blank_tokens.
Qed.

End Whitespace.

(** C7. Two paragraphs of [splitIntoParagraphs] with the same sequence of
    non-whitespace tokens give no marked insertion or deletion:
    [hasChanges] is false and [generateDiff] emits nothing for the pair.
    In the rendering, an added run of whitespace only is copied unmarked
    and changes no counter; a removed run of whitespace only leaves the
    state as it is. *)
Theorem whitespace_edits_invisible
    (diffArrays : (str -> str -> bool) -> list str -> list str -> list part) :
  diff_contract diffArrays ->
  (forall oldText newText oldPara newPara,
     oldPara ∈ splitIntoParagraphs oldText ->
     newPara ∈ splitIntoParagraphs newText ->
     words oldPara = words newPara ->
     hasChanges (diffParagraphs diffArrays oldPara newPara) = false /\
     forall oldParas j, oldParas !! j = Some oldPara ->
       outcome diffArrays oldParas newPara (Some j) = []) /\
  (forall st p, added p = true -> isBlank (partText p) = true ->
     diffStep st p =
     {| html := html st ++ partText p; hasRealChanges := hasRealChanges st;
        unchangedChars := unchangedChars st; totalChars := totalChars st |}) /\
  (forall st p, added p = false -> removed p = true -> isBlank (partText p) = true ->
     diffStep st p = st).
Proof.
  intros contract. split; [|split].
  - intros oldText newText oldPara newPara Ho Hn Hw.
    assert (Hc : hasChanges (diffParagraphs diffArrays oldPara newPara) = false).
    { apply same_words_no_changes; try done; by eapply paragraph_shape. }
    split; [done |]. intros oldParas j Hj. unfold outcome.
    by rewrite (list_lookup_total_correct _ _ _ Hj), Hc.
  - intros st p Ha Hb. unfold diffStep. by rewrite !truthy_trim, Ha, Hb.
  - intros st p Ha Hr Hb. unfold diffStep. by rewrite !truthy_trim, Ha, Hr, Hb.
Qed.

(** "The cat sat. Now." against the same words spaced differently. *)
Lemma whitespace_edits_invisible_witness :
  hasChanges (diffParagraphs lcsDiff (lit "The cat sat. Now.") (lit "The  cat sat. Now.")) = false.
Proof.
  destruct (whitespace_edits_invisible lcsDiff lcsDiff_contract) as (H & _ & _).
  assert (Ho : lit "The cat sat. Now." ∈ splitIntoParagraphs (lit "The cat sat. Now.")).
  { replace (splitIntoParagraphs (lit "The cat sat. Now.")) with [lit "The cat sat. Now."]
      by (vm_compute; reflexivity). by left. }
  assert (Hn : lit "The  cat sat. Now." ∈ splitIntoParagraphs (lit " The  cat sat.   Now.")).
  { replace (splitIntoParagraphs (lit " The  cat sat.   Now.")) with [lit "The  cat sat. Now."]
      by (vm_compute; reflexivity). by left. }
  assert (Hw : words (lit "The cat sat. Now.") = words (lit "The  cat sat. Now."))
    by (vm_compute; reflexivity).
  exact (proj1 (H _ _ _ _ Ho Hn Hw)).
Defined.

(** ** Characters outside Latin-1 *)

Section AllCodeUnits.

Import Utf16.

(** *** Facts on the code units, checked below 65536 and proved above *)

Lemma allFrom_spec f : forall fuel c,
  allFrom f fuel c = true -> forall x, (c <= x < c + N.of_nat fuel)%N -> f x = true.
Proof.
  induction fuel as [|k IH]; intros c H x Hx; [lia |].
  cbn [allFrom] in H. apply andb_true_iff in H as [Hc Hr].
  destruct (decide (x = c)) as [->|Hn]; [done |].
  apply (IH (N.succ c) Hr). lia.
Qed.

Lemma every_unit (f : N -> bool) :
  allFrom f (N.to_nat 65536) 0 = true ->
  (forall c, (65536 <= c)%N -> f c = true) ->
  forall c, f c = true.
Proof.
  intros Hlow Hhigh c. destruct (N.lt_ge_cases c 65536) as [Hc|Hc]; [|by apply Hhigh].
  apply (allFrom_spec f _ _ Hlow). lia.
Qed.

Ltac decide_tests :=
  repeat match goal with
         | |- context [N.leb ?a ?b] => destruct (N.leb_spec a b); try lia
         | |- context [N.eqb ?a ?b] => destruct (N.eqb_spec a b); try lia
         end.

Ltac open_classes :=
  unfold lowerUnit, keptLower, staysNonWord, isKept, isUpper, isWordChar, isSpace, inRange.

Lemma lowerUnit_kept c : List.filter isKept (lowerUnit c) = keptLower c.
Proof.
  apply (bool_decide_eq_true_1 (List.filter isKept (lowerUnit c) = keptLower c)).
  revert c. apply every_unit; [vm_compute; reflexivity |].
  intros c Hc. apply bool_decide_eq_true.
  open_classes. decide_tests. cbn. open_classes. decide_tests. reflexivity.
Qed.

Lemma kept_word c :
  forallb (fun x => negb (isWordChar x)) (keptLower c) = staysNonWord c.
Proof.
  apply (bool_decide_eq_true_1
           (forallb (fun x => negb (isWordChar x)) (keptLower c) = staysNonWord c)).
  revert c. apply every_unit; [vm_compute; reflexivity |].
  intros c Hc. apply bool_decide_eq_true.
  open_classes. decide_tests. reflexivity.
Qed.

Lemma kept_blank c : isBlank (keptLower c) = staysNonWord c.
Proof.
  apply (bool_decide_eq_true_1 (isBlank (keptLower c) = staysNonWord c)).
  revert c. apply every_unit; [vm_compute; reflexivity |].
  intros c Hc. apply bool_decide_eq_true.
  open_classes. decide_tests. reflexivity.
Qed.

Lemma wide_word_not_space c : isWordChar c = true -> isSpace c = false.
Proof.
  intros H.
  assert (E : implb (isWordChar c) (negb (isSpace c)) = true).
  { revert c H. intros c _. revert c. apply every_unit; [vm_compute; reflexivity |].
    intros c Hc. open_classes. decide_tests; reflexivity. }
  rewrite H in E. simpl in E. by apply negb_true_iff.
Qed.

(** *** The lower-casing that stands for the built-in *)

Lemma filter_flat_map {A B} (f : B -> bool) (g : A -> list B) (l : list A) :
  List.filter f (flat_map g l) = flat_map (fun x => List.filter f (g x)) l.
Proof. induction l as [|x l IH]; [done |]. simpl. by rewrite List.filter_app, IH. Qed.

Lemma lowerCase_contract : lower_contract lowerCase.
Proof.
  intros s. unfold lowerCase. rewrite filter_flat_map.
  induction s as [|c s IH]; [done |]. simpl. by rewrite lowerUnit_kept, IH.
Qed.

(** *** [trim] and the whitespace runs *)

Lemma wide_isBlank_app a b : isBlank (a ++ b) = isBlank a && isBlank b.
Proof. apply forallb_app. Qed.

Lemma wide_isBlank_rev s : isBlank (rev s) = isBlank s.
Proof.
  induction s as [|c r IH]; [done |].
  simpl. rewrite wide_isBlank_app, IH. simpl. rewrite andb_true_r. apply andb_comm.
Qed.

Lemma wide_trimStart_split s :
  exists ws, s = ws ++ trimStart s /\ isBlank ws = true.
Proof.
  induction s as [|c r (ws & Hs & Hb)]; [by exists [] |].
  simpl. destruct (isSpace c) eqn:Hc.
  - exists (c :: ws). simpl. rewrite Hc, Hb. by rewrite <- Hs.
  - by exists [].
Qed.

Lemma wide_trimEnd_split s :
  exists ws, s = trimEnd s ++ ws /\ isBlank ws = true.
Proof.
  destruct (wide_trimStart_split (rev s)) as (ws & Hs & Hb).
  exists (rev ws). rewrite wide_isBlank_rev. split; [|done].
  unfold trimEnd. rewrite <- rev_app_distr, <- Hs. by rewrite rev_involutive.
Qed.

Lemma wide_trim_nil_blank s : trim s = [] -> isBlank s = true.
Proof.
  unfold trim. intros H.
  destruct (wide_trimStart_split s) as (ws1 & Hs1 & Hb1).
  destruct (wide_trimEnd_split (trimStart s)) as (ws2 & Hs2 & Hb2).
  rewrite H in Hs2. rewrite Hs1, Hs2. simpl. by rewrite wide_isBlank_app, Hb1, Hb2.
Qed.

Lemma wide_trimStart_blank s : isBlank s = true -> trimStart s = [].
Proof.
  unfold isBlank. induction s as [|c r IH]; simpl; [done |].
  intros H. apply andb_true_iff in H as [Hc Hr]. rewrite Hc. by apply IH.
Qed.

Lemma wide_trim_blank s : isBlank s = true -> trim s = [].
Proof. intros H. unfold trim. by rewrite wide_trimStart_blank. Qed.

Lemma wide_trim_nil_iff s : trim s = [] <-> isBlank s = true.
Proof. split; [apply wide_trim_nil_blank | apply wide_trim_blank]. Qed.

Lemma wide_collapse_blank s : forall b, isBlank (collapseSpaces b s) = isBlank s.
Proof.
  unfold isBlank. induction s as [|c r IH]; intros b; [done |]. simpl.
  destruct (isSpace c) eqn:Hc.
  - destruct b; simpl; by rewrite IH.
  - simpl. by rewrite Hc.
Qed.

(** *** [split(' ')] *)

Lemma wide_splitFold sep s : forall st,
  let st' := fold_left (splitStep sep) s st in
  length (sdone st) <= length (sdone st') /\
  (length (sdone st') = length (sdone st) ->
   sdone st' = sdone st /\ scur st' = scur st ++ s).
Proof.
  induction s as [|c s IH]; intros st; cbn [fold_left].
  - split; [done |]. intros _. by rewrite app_nil_r.
  - destruct (IH (splitStep sep st c)) as [Hle Heq]. cbv zeta.
    unfold splitStep in Hle, Heq |- *. destruct (c =? sep)%N; cbn [sdone scur] in *.
    + rewrite length_app in Hle, Heq. simpl in *. split; [lia |]. intros E. lia.
    + split; [done |]. intros E. destruct (Heq E) as [-> ->].
      by rewrite <- app_assoc.
Qed.

Lemma wide_splitOn_nonempty sep s : splitOn sep s <> [].
Proof. unfold splitOn. simpl. by destruct (sdone _). Qed.

Lemma wide_splitOn_empty sep s : splitOn sep s = [[]] <-> s = [].
Proof.
  split; [|by intros ->].
  unfold splitOn. cbv zeta. intros H.
  destruct (wide_splitFold sep s {| sdone := []; scur := [] |}) as [_ Heq].
  cbv zeta in Heq. cbn [sdone scur] in Heq.
  destruct (sdone (fold_left _ s _)) as [|x l] eqn:E.
  - destruct (Heq eq_refl) as [_ Hc]. simpl in H. injection H as H. by rewrite H in Hc.
  - simpl in H. injection H as _ H. by destruct l.
Qed.

(** *** What is left of a string after lower-casing *)

Section Lowering.

Variable toLowerCase : ustr -> ustr.
Hypothesis lowering : lower_contract toLowerCase.

Lemma filter_word_kept l :
  List.filter isWordChar (List.filter isKept l) = List.filter isWordChar l.
Proof.
  induction l as [|c l IH]; [done |]. simpl. unfold isKept at 1.
  destruct (isWordChar c) eqn:E; simpl; [by rewrite E, IH |].
  destruct (isSpace c); simpl; [by rewrite E |]. done.
Qed.

Lemma normalizeWord_kept t :
  normalizeWord toLowerCase t = List.filter isWordChar (flat_map keptLower t).
Proof. unfold normalizeWord. by rewrite <- lowering, filter_word_kept. Qed.

Lemma filter_nil_forallb {A} (f : A -> bool) l :
  List.filter f l = [] <-> forallb (fun x => negb (f x)) l = true.
Proof.
  induction l as [|x l IH]; [done |]. simpl. destruct (f x); simpl; [|done].
  split; done.
Qed.

(** [normalizeWord] gives the empty string exactly for the strings whose
    characters stay outside [\w] under lower-casing. *)
Lemma normalizeWord_nil t :
  normalizeWord toLowerCase t = [] <-> noWordCharsLowered t.
Proof.
  rewrite normalizeWord_kept. unfold noWordCharsLowered.
  induction t as [|c t IH]; [done |]. simpl.
  rewrite List.filter_app, andb_true_iff, <- IH, <- kept_word, <- filter_nil_forallb.
  split.
  - intros H. by apply app_eq_nil in H.
  - intros [-> ->]. done.
Qed.

Lemma normalizeForMatching_nil p :
  normalizeForMatching toLowerCase p = [] <-> noWordCharsLowered p.
Proof.
  unfold normalizeForMatching. rewrite wide_trim_nil_iff, wide_collapse_blank, lowering.
  unfold noWordCharsLowered.
  induction p as [|c p IH]; [done |]. simpl.
  by rewrite wide_isBlank_app, !andb_true_iff, IH, kept_blank.
Qed.

Lemma normalizeForMatching_kept p :
  normalizeForMatching toLowerCase p =
  trim (collapseSpaces false (flat_map keptLower p)).
Proof. unfold normalizeForMatching. by rewrite lowering. Qed.

Lemma noWordCharsLowered_wordSet p :
  noWordCharsLowered p -> wordSet toLowerCase p = {[ [] ]}.
Proof.
  intros H. unfold wordSet. apply normalizeForMatching_nil in H. rewrite H.
  change (splitOn 32 []) with [@nil N]. apply list_to_set_singleton_L.
Qed.

End Lowering.

Lemma staysNonWord_spec p :
  noWordCharsLowered p <-> noWordChars p /\ (0x130%N ∉ p) /\ (0x212A%N ∉ p).
Proof.
  unfold noWordCharsLowered, noWordChars. induction p as [|c p IH].
  - split; [intros _ | done]. repeat split; apply not_elem_of_nil.
  - cbn [forallb]. rewrite !andb_true_iff, IH, !not_elem_of_cons. unfold staysNonWord.
    rewrite !andb_true_iff, !negb_true_iff, !N.eqb_neq. intuition congruence.
Qed.

(** *** Scores *)

Lemma wide_wordSet_inhabited toLowerCase text : exists w, w ∈ wordSet toLowerCase text.
Proof.
  unfold wordSet.
  destruct (splitOn 32 (normalizeForMatching toLowerCase text)) as [|w l] eqn:E.
  - by apply wide_splitOn_nonempty in E.
  - exists w. apply elem_of_list_to_set. by left.
Qed.

Lemma wide_union_size_pos (X Y : gset ustr) : (exists w, w ∈ X) -> 0 < size (X ∪ Y).
Proof.
  intros [w Hw]. assert (size (X ∪ Y) <> 0); [|lia].
  apply size_non_empty_iff. intros He.
  apply (not_elem_of_empty (C:=gset ustr) w). rewrite <- He. apply elem_of_union. by left.
Qed.

Lemma wide_jaccard_finite (X Y : gset ustr) : (exists w, w ∈ X) -> finite (jaccard X Y).
Proof. intros H. by apply divide_finite, wide_union_size_pos. Qed.

Lemma wide_jaccard_le_one (X Y : gset ustr) :
  (exists w, w ∈ X) -> greater (jaccard X Y) one = false.
Proof.
  intros H. unfold jaccard. rewrite one_divide.
  destruct (greater _ _) eqn:E; [|done].
  apply gt_divide in E; [|by apply wide_union_size_pos | lia].
  assert (size (filter (fun w => w ∈ Y) X) <= size (X ∪ Y)); [|lia].
  apply subseteq_size. intros w Hw. apply elem_of_filter in Hw.
  apply elem_of_union. left. apply Hw.
Qed.

Lemma wide_jaccard_same (X : gset ustr) : (exists w, w ∈ X) -> jaccard X X = one.
Proof.
  intros H. unfold jaccard. rewrite one_divide.
  assert (Hf : filter (fun w => w ∈ X) X = X).
  { apply set_eq. intros w. rewrite elem_of_filter. tauto. }
  rewrite Hf. apply divide_eq; [by apply wide_union_size_pos | lia |].
  rewrite (union_idemp_L X). lia.
Qed.

Lemma zero_below_one : greater zero one = false.
Proof.
  rewrite zero_divide, one_divide. destruct (greater _ _) eqn:E; [|done].
  apply gt_divide in E; lia.
Qed.

Lemma zero_is_not_one : zero <> one.
Proof.
  rewrite zero_divide, one_divide. intros H. apply divide_eq in H; lia.
Qed.

(** *** The loop of [findBestMatch] and a candidate that scores 1 *)

Section WideScan.

Variable toLowerCase : ustr -> ustr.
Variable paraWords : gset ustr.
Variable used : gset nat.
Hypothesis inhabited : exists w, w ∈ paraWords.

(** A best score of 1 is never replaced. *)
Lemma wide_scan_keeps cands : forall i best,
  score best = one ->
  scanCandidates toLowerCase paraWords used i cands best = best.
Proof.
  induction cands as [|c rest IH]; intros i best Hb; [done |].
  cbn [scanCandidates]. destruct (decide (i ∈ used)); [by apply IH |].
  cbv zeta. rewrite Hb, (wide_jaccard_le_one _ _ inhabited). cbn [andb]. by apply IH.
Qed.

(** An unused candidate that scores 1 is selected, unless a candidate
    before it was. *)
Lemma wide_scan_reaches other :
  jaccard paraWords (wordSet toLowerCase other) = one ->
  forall cands i0 best k,
    cands !! k = Some other -> i0 + k ∉ used ->
    finite (score best) -> greater (score best) one = false ->
    (score best = one -> exists j, index best = Some j /\ j <= i0 + k) ->
    exists j, j <= i0 + k /\
      scanCandidates toLowerCase paraWords used i0 cands best =
        {| index := Some j; score := one |}.
Proof.
  intros Hone. induction cands as [|c rest IH]; intros i0 best k Hk Hu Hfin Hle Hidx; [done |].
  cbn [scanCandidates]. destruct k as [|k].
  - injection Hk as ->. rewrite Nat.add_0_r in Hu, Hidx |- *.
    rewrite decide_False by done. cbv zeta. rewrite Hone, gt_one_threshold, andb_true_r.
    destruct (greater one (score best)) eqn:E.
    + exists i0. split; [done |]. by apply wide_scan_keeps.
    + assert (Hb : score best = one).
      { apply gt_total; [done | by eexists | done | done]. }
      destruct (Hidx Hb) as (j & Hj & Hji). exists j. split; [done |].
      rewrite wide_scan_keeps by done. destruct best as [bi bs]. simpl in *. by subst.
  - cbn [lookup list_lookup] in Hk.
    replace (i0 + S k) with (S i0 + k) in * by lia.
    destruct (decide (i0 ∈ used)); [by apply IH |].
    cbv zeta. destruct (greater _ _ && greater _ _).
    + apply IH; try done; cbn [score index].
      * by apply wide_jaccard_finite.
      * by apply wide_jaccard_le_one.
      * intros _. exists i0. split; [done | lia].
    + by apply IH.
Qed.

End WideScan.

Lemma wide_match_found toLowerCase para other paragraphs (used : gset nat) i :
  similarity toLowerCase para other = one ->
  paragraphs !! i = Some other -> i ∉ used ->
  exists j, j <= i /\
    findBestMatch toLowerCase para paragraphs used = {| index := Some j; score := one |}.
Proof.
  intros Hone Hi Hu. unfold findBestMatch.
  apply (wide_scan_reaches toLowerCase (wordSet toLowerCase para) used
           (wide_wordSet_inhabited toLowerCase para) other Hone paragraphs 0 _ i);
    try done; cbn [score index];
    first [by exists 0%Qc | apply zero_below_one | intros H; by apply zero_is_not_one in H].
Qed.

(** C9, amended.  The division of [findBestMatch] never has a zero divisor:
    the split of a normalized paragraph has at least one token, so the union
    of the two word sets has at least one element and the score is a finite
    number.  The split is the empty string alone exactly when the paragraph
    has no character of [\w] and neither U+0130 nor the Kelvin sign U+212A,
    the two characters outside [\w] that lower-casing turns into a letter.
    Two such paragraphs score 1; such a candidate is matched when it is the
    only one, and whenever it is an unused candidate the match found scores
    1 and is at or before it. *)
Theorem jaccard_never_divides_by_zero
    (toLowerCase : ustr -> ustr) (para other : ustr) :
  lower_contract toLowerCase ->
  splitOn 32 (normalizeForMatching toLowerCase para) <> [] /\
  (splitOn 32 (normalizeForMatching toLowerCase para) = [[]] <-> noWordCharsLowered para) /\
  (noWordCharsLowered para <-> noWordChars para /\ (0x130%N ∉ para) /\ (0x212A%N ∉ para)) /\
  0 < size (wordSet toLowerCase para ∪ wordSet toLowerCase other) /\
  finite (similarity toLowerCase para other) /\
  (noWordCharsLowered para -> noWordCharsLowered other ->
     similarity toLowerCase para other = one /\
     findBestMatch toLowerCase para [other] ∅ = {| index := Some 0; score := one |} /\
     forall paragraphs (used : gset nat) i,
       paragraphs !! i = Some other -> i ∉ used ->
       exists j, j <= i /\
         findBestMatch toLowerCase para paragraphs used =
           {| index := Some j; score := one |}).
Proof.
  intros lowering.
  split; [apply wide_splitOn_nonempty |].
  split; [by rewrite wide_splitOn_empty, normalizeForMatching_nil |].
  split; [apply staysNonWord_spec |].
  split; [apply wide_union_size_pos, wide_wordSet_inhabited |].
  split; [apply wide_jaccard_finite, wide_wordSet_inhabited |].
  intros Hp Ho.
  assert (Hone : similarity toLowerCase para other = one).
  { unfold similarity.
    rewrite (noWordCharsLowered_wordSet _ lowering _ Hp),
            (noWordCharsLowered_wordSet _ lowering _ Ho).
    apply wide_jaccard_same. exists []. by apply elem_of_singleton. }
  split; [done |]. split.
  - destruct (wide_match_found toLowerCase para other [other] ∅ 0 Hone) as (j & Hj & Hr);
      [done | set_solver |].
    by replace j with 0 in Hr by lia.
  - intros paragraphs used i. by apply wide_match_found.
Qed.

(** An em dash and an ellipsis against "!?": the score is 1 and the two
    are matched. *)
Lemma jaccard_never_divides_by_zero_witness :
  findBestMatch lowerCase [0x2014; 32; 0x2026]%N [lit "!?"] ∅ =
  {| index := Some 0; score := one |}.
Proof.
  apply (jaccard_never_divides_by_zero lowerCase [0x2014; 32; 0x2026]%N (lit "!?")
           lowerCase_contract);
    vm_compute; reflexivity.
Defined.

(** The Kelvin sign, whatever the lower-casing that meets the contract. *)
Lemma kelvin_sign_scores_zero toLowerCase :
  lower_contract toLowerCase ->
  normalizeForMatching toLowerCase [0x212A%N] = lit "k" /\
  similarity toLowerCase [0x212A%N] (lit "!!!") = zero /\
  findBestMatch toLowerCase [0x212A%N] [lit "!!!"] ∅ = {| index := None; score := zero |}.
Proof.
  intros lowering.
  assert (Hk : normalizeForMatching toLowerCase [0x212A%N] = lit "k").
  { by rewrite normalizeForMatching_kept. }
  assert (Hb : normalizeForMatching toLowerCase (lit "!!!") = []).
  { by rewrite normalizeForMatching_kept. }
  assert (Hs : similarity toLowerCase [0x212A%N] (lit "!!!") = zero).
  { unfold similarity, jaccard, wordSet. rewrite Hk, Hb, zero_divide.
    apply divide_eq; [vm_compute; lia | lia |]. vm_compute. reflexivity. }
  split; [done |]. split; [done |].
  unfold findBestMatch. cbn [scanCandidates]. rewrite decide_False by set_solver.
  cbv zeta. fold (similarity toLowerCase [0x212A%N] (lit "!!!")). rewrite Hs.
  cbn [score]. by rewrite gt_irrefl.
Qed.

(** C9, as the claim words it, fails on the Kelvin sign: the paragraph has
    no character of [\w], yet lower-casing turns it into the letter k; the
    split of the normalized paragraph is not the empty string alone, and
    against a paragraph of exclamation marks, which has no character of
    [\w] either, the score is 0 and there is no match. *)
Lemma jaccard_never_divides_by_zero_counterexample :
  noWordChars [0x212A%N] /\ noWordChars (lit "!!!") /\
  splitOn 32 (normalizeForMatching lowerCase [0x212A%N]) = [lit "k"] /\
  similarity lowerCase [0x212A%N] (lit "!!!") = zero /\
  findBestMatch lowerCase [0x212A%N] [lit "!!!"] ∅ = {| index := None; score := zero |}.
Proof.
  destruct (kelvin_sign_scores_zero lowerCase lowerCase_contract) as (Hk & Hs & Hm).
  split; [vm_compute; reflexivity |]. split; [vm_compute; reflexivity |].
  split; [by rewrite Hk |]. done.
Qed.

(** *** The reference implementation of the array diff meets the contract *)

Lemma wide_pushOp_keep cmp o n old new ps :
  cmp o n = true -> editScript cmp old new ps ->
  editScript cmp (o :: old) (n :: new) (pushOp (Keep n) ps).
Proof.
  intros Hc H. destruct H; simpl.
  - apply (es_common cmp [o] [n] [] []); [by repeat constructor | constructor].
  - apply (es_common cmp (o :: os) (n :: ns)); [by constructor | done].
  - apply (es_common cmp [o] [n]); [by repeat constructor | by constructor].
  - apply (es_common cmp [o] [n]); [by repeat constructor | by constructor].
Qed.

Lemma wide_pushOp_del cmp o old new ps :
  editScript cmp old new ps -> editScript cmp (o :: old) new (pushOp (Del o) ps).
Proof.
  intros H. destruct H; simpl.
  - apply (es_removed cmp [o] [] []). constructor.
  - apply (es_removed cmp [o]). by constructor.
  - by apply (es_removed cmp (o :: os)).
  - apply (es_removed cmp [o]). by constructor.
Qed.

Lemma wide_pushOp_ins cmp n old new ps :
  editScript cmp old new ps -> editScript cmp old (n :: new) (pushOp (Ins n) ps).
Proof.
  intros H. destruct H; simpl.
  - apply (es_added cmp [n] [] []). constructor.
  - apply (es_added cmp [n]). by constructor.
  - apply (es_added cmp [n]). by constructor.
  - by apply (es_added cmp (n :: ns)).
Qed.

Lemma wide_runs_all_ins cmp new : editScript cmp [] new (runs (map Ins new)).
Proof. induction new as [|n new IH]; [constructor | by apply wide_pushOp_ins]. Qed.

Lemma wide_runs_all_del cmp old : editScript cmp old [] (runs (map Del old)).
Proof. induction old as [|o old IH]; [constructor | by apply wide_pushOp_del]. Qed.

Lemma wide_lcsDiff_script cmp old new : editScript cmp old new (lcsDiff cmp old new).
Proof.
  unfold lcsDiff. revert new.
  induction old as [|o os IH]; intros new; [apply wide_runs_all_ins |].
  induction new as [|n ns IHn]; [apply (wide_runs_all_del cmp (o :: os)) |].
  cbn [lcsOps]. destruct (cmp o n) eqn:Hc.
  - apply wide_pushOp_keep; [done | apply IH].
  - match goal with |- context [if ?b then _ else _] => destruct b end.
    + apply wide_pushOp_ins, IHn.
    + apply wide_pushOp_del, IH.
Qed.

Lemma wide_lcsOps_identity cmp old new :
  Forall2 (fun o n => cmp o n = true) old new -> lcsOps cmp old new = map Keep new.
Proof.
  induction 1 as [|o n old new Hc _ IH]; [done |].
  cbn [lcsOps map]. by rewrite Hc, IH.
Qed.

Lemma wide_runs_keep_common new : Forall isCommon (runs (map Keep new)).
Proof.
  induction new as [|n new IH]; [constructor |].
  cbn [map runs foldr]. fold (runs (map Keep new)).
  destruct (runs (map Keep new)) as [|p ps]; simpl.
  - by repeat constructor.
  - inversion IH as [|? ? [Ha Hr] Hps]; subst. rewrite Ha, Hr. simpl.
    by repeat constructor.
Qed.

Lemma wide_lcsDiff_contract : diff_contract lcsDiff.
Proof.
  split; [apply wide_lcsDiff_script |].
  intros cmp old new H. unfold lcsDiff.
  rewrite (wide_lcsOps_identity _ _ _ H). apply wide_runs_keep_common.
Qed.

(** *** Tokens and common runs *)

Lemma wide_tokStep_concat st c :
  concat (tokFinish (tokStep st c)) = concat (tokFinish st) ++ [c].
Proof.
  unfold tokStep, tokFinish. destruct st as [d w s]. cbn [tdone tword tws].
  destruct (isSpace c).
  - cbn [tdone tword tws]. destruct s as [|x s]; simpl;
      rewrite !concat_app; simpl; rewrite ?app_nil_r, <- ?app_assoc; done.
  - destruct s as [|x s]; cbn [tdone tword tws]; rewrite !concat_app; simpl;
      rewrite ?app_nil_r, <- ?app_assoc; simpl; rewrite <- ?app_assoc; done.
Qed.

Lemma wide_tokFold_concat s : forall st,
  concat (tokFinish (fold_left tokStep s st)) = concat (tokFinish st) ++ s.
Proof.
  induction s as [|c s IH]; intros st; simpl; [by rewrite app_nil_r |].
  rewrite IH, wide_tokStep_concat, <- app_assoc. done.
Qed.

Lemma wide_splitKeepSpaces_concat s : concat (splitKeepSpaces s) = s.
Proof. unfold splitKeepSpaces. by rewrite wide_tokFold_concat. Qed.

Lemma wide_escapeHtml_app a b : escapeHtml (a ++ b) = escapeHtml a ++ escapeHtml b.
Proof. unfold escapeHtml, replaceAll. by rewrite !flat_map_app. Qed.

Lemma wide_trimmedLen_app a b : trimmedLen (a ++ b) = trimmedLen a + trimmedLen b.
Proof. unfold trimmedLen. by rewrite List.filter_app, length_app. Qed.

Lemma wide_editScript_common cmp old new ps :
  editScript cmp old new ps -> Forall isCommon ps -> concat (value <$> ps) = new.
Proof.
  induction 1 as [|os ns old new ps HF _ IH|os old new ps _ IH|ns old new ps _ IH];
    intros Hall; [done | | |]; inversion Hall as [|? ? [Ha Hr] Hps]; subst;
    try discriminate.
  rewrite fmap_cons. cbn [concat value commonPart]. by rewrite IH.
Qed.

Lemma wide_fold_common_state ps : forall st,
  Forall isCommon ps ->
  fold_left diffStep ps st =
  {| html := html st ++ escapeHtml (concat (concat (value <$> ps)));
     hasRealChanges := hasRealChanges st;
     unchangedChars := unchangedChars st + trimmedLen (concat (concat (value <$> ps)));
     totalChars := totalChars st + trimmedLen (concat (concat (value <$> ps))) |}.
Proof.
  induction ps as [|p ps IH]; intros st Hall.
  - simpl. rewrite app_nil_r, !Nat.add_0_r. by destruct st.
  - inversion Hall as [|? ? [Ha Hr] Hps]; subst. cbn [fold_left].
    rewrite IH by done. unfold diffStep. rewrite Ha, Hr.
    cbn [html hasRealChanges unchangedChars totalChars fmap list_fmap concat].
    unfold partText. rewrite concat_app, wide_escapeHtml_app, wide_trimmedLen_app.
    rewrite <- app_assoc. f_equal; lia.
Qed.

(** Token lists that are equal under the comparator give one unchanged
    rendering of the new paragraph. *)
Lemma wide_equal_tokens_state toLowerCase diffArrays oldPara newPara :
  diff_contract diffArrays ->
  Forall2 (fun o n => comparator toLowerCase o n = true)
    (splitKeepSpaces oldPara) (splitKeepSpaces newPara) ->
  let changes :=
    diffArrays (comparator toLowerCase) (splitKeepSpaces oldPara) (splitKeepSpaces newPara) in
  Forall isCommon changes /\
  concat (value <$> changes) = splitKeepSpaces newPara /\
  diffLoop toLowerCase diffArrays oldPara newPara =
  {| html := escapeHtml newPara; hasRealChanges := false;
     unchangedChars := trimmedLen newPara; totalChars := trimmedLen newPara |}.
Proof.
  intros [Hscript Hid] H changes.
  pose proof (Hid _ _ _ H) as Hc.
  pose proof (wide_editScript_common _ _ _ _ (Hscript _ _ _) Hc) as Hv.
  split; [done |]. split; [done |].
  unfold diffLoop. rewrite wide_fold_common_state by done.
  rewrite Hv, wide_splitKeepSpaces_concat. done.
Qed.

(** *** A new token that no old token equals *)

(** In an edit script, a token of the new array that no token of the old
    array equals under the comparator is in an added run. *)
Lemma editScript_new_token cmp old new ps n :
  editScript cmp old new ps ->
  n ∈ new -> (forall o, o ∈ old -> cmp o n = false) ->
  exists p, p ∈ ps /\ added p = true /\ n ∈ value p.
Proof.
  induction 1 as [|os ns old new ps HF _ IH|os old new ps _ IH|ns old new ps _ IH];
    intros Hn Hno.
  - by apply elem_of_nil in Hn.
  - apply elem_of_app in Hn as [Hn|Hn].
    + exfalso. apply list_elem_of_lookup in Hn as [i Hi].
      destruct (Forall2_lookup_r _ _ _ _ _ HF Hi) as (o & Ho & Hc).
      rewrite Hno in Hc; [done |]. apply elem_of_app. left.
      by apply list_elem_of_lookup_2 in Ho.
    + destruct IH as (p & Hp & Ha & Hv); [done | |].
      * intros o Ho. apply Hno, elem_of_app. by right.
      * exists p. split; [by apply elem_of_cons; right | done].
  - destruct IH as (p & Hp & Ha & Hv); [done | |].
    + intros o Ho. apply Hno, elem_of_app. by right.
    + exists p. split; [by apply elem_of_cons; right | done].
  - apply elem_of_app in Hn as [Hn|Hn].
    + exists (addedPart ns). split; [apply elem_of_cons; by left | done].
    + destruct IH as (p & Hp & Ha & Hv); [done | done |].
      exists p. split; [by apply elem_of_cons; right | done].
Qed.

Lemma wide_diffStep_keeps st p :
  hasRealChanges st = true -> hasRealChanges (diffStep st p) = true.
Proof.
  intros H. unfold diffStep.
  destruct (added p); [|destruct (removed p)]; try destruct (truthy _); done.
Qed.

Lemma wide_fold_keeps ps : forall st,
  hasRealChanges st = true -> hasRealChanges (fold_left diffStep ps st) = true.
Proof.
  induction ps as [|p ps IH]; intros st H; [done |].
  cbn [fold_left]. by apply IH, wide_diffStep_keeps.
Qed.

Lemma wide_concat_not_blank (l : list ustr) n :
  n ∈ l -> isBlank n = false -> isBlank (concat l) = false.
Proof.
  intros Hn Hb. induction l as [|x l IH]; [by apply elem_of_nil in Hn |].
  simpl. rewrite wide_isBlank_app. apply elem_of_cons in Hn as [<-|Hn].
  - by rewrite Hb.
  - rewrite IH by done. apply andb_false_r.
Qed.

Lemma wide_fold_marks ps p : forall st,
  p ∈ ps -> added p = true -> isBlank (partText p) = false ->
  hasRealChanges (fold_left diffStep ps st) = true.
Proof.
  induction ps as [|q ps IH]; intros st Hp Ha Hb; [by apply elem_of_nil in Hp |].
  cbn [fold_left]. apply elem_of_cons in Hp as [<-|Hp]; [|by apply IH].
  apply wide_fold_keeps. unfold diffStep. rewrite Ha.
  destruct (trim (partText p)) as [|c r] eqn:E; [|done].
  apply wide_trim_nil_blank in E. congruence.
Qed.

(** A token of the new paragraph that is not blank and that no token of
    the old paragraph equals under the comparator is marked as inserted,
    whatever edit script the array diff returns. *)
Lemma new_token_is_marked toLowerCase diffArrays oldPara newPara n :
  diff_contract diffArrays ->
  n ∈ splitKeepSpaces newPara -> isBlank n = false ->
  (forall o, o ∈ splitKeepSpaces oldPara -> comparator toLowerCase o n = false) ->
  hasChanges (diffParagraphs toLowerCase diffArrays oldPara newPara) = true.
Proof.
  intros [Hscript _] Hn Hb Hno. unfold diffParagraphs, diffLoop. cbn [hasChanges].
  destruct (editScript_new_token _ _ _ _ n (Hscript (comparator toLowerCase) _ _) Hn Hno)
    as (p & Hp & Ha & Hv).
  apply (wide_fold_marks _ p); [done | done |].
  unfold partText. by apply (wide_concat_not_blank _ n).
Qed.

(** C10, amended.  [normalizeWord] maps a token to the empty string exactly
    when the token has no character of [\w] and neither U+0130 nor the
    Kelvin sign U+212A, the two characters outside [\w] that lower-casing
    turns into a letter; the comparator holds any two such tokens equal,
    and holds no other token equal to one of them.  When the new paragraph
    is the old one with one such token replaced by another, [Diff.diffArrays]
    reports common runs only, which carry the new tokens (the replacing
    token among them): [diffParagraphs] marks no insertion or deletion,
    renders the new paragraph unmarked and counts all its non-whitespace
    characters as unchanged. *)
Theorem punctuation_tokens_compare_equal
    (toLowerCase : ustr -> ustr)
    (diffArrays : (ustr -> ustr -> bool) -> list ustr -> list ustr -> list part) :
  lower_contract toLowerCase ->
  (forall t, normalizeWord toLowerCase t = [] <-> noWordCharsLowered t) /\
  (forall t, noWordCharsLowered t <-> noWordChars t /\ (0x130%N ∉ t) /\ (0x212A%N ∉ t)) /\
  (forall t1 t2, noWordCharsLowered t1 ->
     (comparator toLowerCase t1 t2 = true <-> noWordCharsLowered t2)) /\
  (diff_contract diffArrays ->
   forall oldPara newPara A B t1 t2,
     splitKeepSpaces oldPara = A ++ t1 :: B ->
     splitKeepSpaces newPara = A ++ t2 :: B ->
     noWordCharsLowered t1 -> noWordCharsLowered t2 ->
     let changes :=
       diffArrays (comparator toLowerCase) (splitKeepSpaces oldPara) (splitKeepSpaces newPara) in
     Forall isCommon changes /\
     concat (value <$> changes) = A ++ t2 :: B /\
     diffLoop toLowerCase diffArrays oldPara newPara =
       {| html := escapeHtml newPara; hasRealChanges := false;
          unchangedChars := trimmedLen newPara; totalChars := trimmedLen newPara |} /\
     hasChanges (diffParagraphs toLowerCase diffArrays oldPara newPara) = false).
Proof.
  intros lowering.
  assert (Hcmp : forall t1 t2, noWordCharsLowered t1 ->
            (comparator toLowerCase t1 t2 = true <-> noWordCharsLowered t2)).
  { intros t1 t2 H1. unfold comparator. rewrite bool_decide_eq_true.
    apply (normalizeWord_nil _ lowering) in H1. rewrite H1.
    rewrite <- (normalizeWord_nil _ lowering). split; intros H; by rewrite H. }
  split; [apply (normalizeWord_nil _ lowering) |].
  split; [apply staysNonWord_spec |]. split; [done |].
  intros contract oldPara newPara A B t1 t2 Ho Hn H1 H2 changes.
  assert (HF : Forall2 (fun o n => comparator toLowerCase o n = true)
                 (splitKeepSpaces oldPara) (splitKeepSpaces newPara)).
  { assert (Hrefl : forall l : list ustr,
              Forall2 (fun o n => comparator toLowerCase o n = true) l l).
    { intros l. apply Forall2_same_length_lookup_2; [done |].
      intros i x y Hx Hy. assert (x = y) as -> by congruence.
      by apply bool_decide_eq_true. }
    rewrite Ho, Hn. apply Forall2_app; [apply Hrefl |].
    constructor; [by apply Hcmp | apply Hrefl]. }
  destruct (wide_equal_tokens_state toLowerCase diffArrays oldPara newPara contract HF)
    as (Hc & Hv & Hst).
  unfold changes. rewrite <- Hn. repeat split; try done.
  unfold diffParagraphs. cbn [hasChanges]. by rewrite Hst.
Qed.

(** An em dash replaced by an ellipsis: "wait - what" with U+2014 for the
    dash, against "wait ... what" with U+2026 for the dots. *)
Lemma punctuation_tokens_compare_equal_witness :
  diffLoop lowerCase lcsDiff (lit "wait " ++ [0x2014%N] ++ lit " what")
    (lit "wait " ++ [0x2026%N] ++ lit " what") =
  {| html := lit "wait " ++ [0x2026%N] ++ lit " what"; hasRealChanges := false;
     unchangedChars := 9; totalChars := 9 |}.
Proof.
  destruct (punctuation_tokens_compare_equal lowerCase lcsDiff lowerCase_contract)
    as (_ & _ & _ & H).
  assert (Ho : splitKeepSpaces (lit "wait " ++ [0x2014%N] ++ lit " what") =
               [lit "wait"; lit " "] ++ [0x2014%N] :: [lit " "; lit "what"])
    by (vm_compute; reflexivity).
  assert (Hn : splitKeepSpaces (lit "wait " ++ [0x2026%N] ++ lit " what") =
               [lit "wait"; lit " "] ++ [0x2026%N] :: [lit " "; lit "what"])
    by (vm_compute; reflexivity).
  assert (H1 : noWordCharsLowered [0x2014%N]) by (vm_compute; reflexivity).
  assert (H2 : noWordCharsLowered [0x2026%N]) by (vm_compute; reflexivity).
  destruct (H wide_lcsDiff_contract _ _ _ _ _ _ Ho Hn H1 H2) as (_ & _ & Hst & _).
  exact Hst.
Defined.

(** C10, as the claim words it, fails on the Kelvin sign: the token has no
    character of [\w], yet [normalizeWord] maps it to the letter k, not to
    the empty string; the comparator tells it from a token of dots, and
    when it replaces the dots of "wait ... what" the pair has a marked
    change, whatever edit script the array diff returns. *)
Lemma punctuation_tokens_compare_equal_counterexample :
  noWordChars [0x212A%N] /\ noWordChars (lit "...") /\
  normalizeWord lowerCase [0x212A%N] = lit "k" /\
  normalizeWord lowerCase (lit "...") = [] /\
  comparator lowerCase (lit "...") [0x212A%N] = false /\
  hasChanges (diffParagraphs lowerCase lcsDiff (lit "wait ... what")
                (lit "wait " ++ [0x212A%N] ++ lit " what")) = true.
Proof.
  split; [vm_compute; reflexivity |]. split; [vm_compute; reflexivity |].
  split; [vm_compute; reflexivity |]. split; [vm_compute; reflexivity |].
  split; [vm_compute; reflexivity |].
  apply (new_token_is_marked lowerCase lcsDiff _ _ [0x212A%N] wide_lcsDiff_contract).
  - apply list_elem_of_In. vm_compute. tauto.
  - vm_compute. reflexivity.
  - intros o Ho.
    assert (Hs : splitKeepSpaces (lit "wait ... what") =
                 [lit "wait"; lit " "; lit "..."; lit " "; lit "what"])
      by (vm_compute; reflexivity).
    rewrite Hs in Ho.
    repeat (apply elem_of_cons in Ho as [->|Ho]; [vm_compute; reflexivity |]).
    by apply elem_of_nil in Ho.
Qed.

End AllCodeUnits.

(** *** The two embeddings agree on Latin-1 *)

Lemma widen_isSpace c : Utf16.isSpace (N_of_ascii c) = isSpace c.
Proof. destruct c as [[] [] [] [] [] [] [] []]; reflexivity. Qed.

Lemma widen_kept_word c :
  List.filter Utf16.isWordChar (Utf16.keptLower (N_of_ascii c)) =
  Utf16.widen (List.filter isWordChar [toLowerChar c]).
Proof. destruct c as [[] [] [] [] [] [] [] []]; reflexivity. Qed.

Lemma widen_kept c :
  Utf16.keptLower (N_of_ascii c) =
  Utf16.widen (List.filter (fun x => isWordChar x || isSpace x) [toLowerChar c]).
Proof. destruct c as [[] [] [] [] [] [] [] []]; reflexivity. Qed.

Lemma widen_app a b : Utf16.widen (a ++ b) = Utf16.widen a ++ Utf16.widen b.
Proof. apply fmap_app. Qed.

Lemma widen_rev s : Utf16.widen (rev s) = rev (Utf16.widen s).
Proof. apply (map_rev N_of_ascii). Qed.

Lemma widen_trimStart s : Utf16.trimStart (Utf16.widen s) = Utf16.widen (trimStart s).
Proof.
  induction s as [|c s IH]; [done |]. simpl. rewrite widen_isSpace.
  by destruct (isSpace c).
Qed.

Lemma widen_trim s : Utf16.trim (Utf16.widen s) = Utf16.widen (trim s).
Proof.
  unfold trim, Utf16.trim, trimEnd, Utf16.trimEnd.
  by rewrite widen_trimStart, <- widen_rev, widen_trimStart, widen_rev.
Qed.

Lemma widen_collapse s : forall b,
  Utf16.collapseSpaces b (Utf16.widen s) = Utf16.widen (collapseSpaces b s).
Proof.
  induction s as [|c s IH]; intros b; [done |]. simpl. rewrite widen_isSpace.
  destruct (isSpace c); [destruct b |]; simpl; by rewrite IH.
Qed.

(** On a string of Latin-1, [normalizeWord] and [normalizeForMatching] over
    the code units are the functions of the same names over Latin-1,
    whatever the lower-casing that meets the contract. *)
Lemma widen_normalize (toLowerCase16 : Utf16.ustr -> Utf16.ustr) (s : str) :
  Utf16.lower_contract toLowerCase16 ->
  Utf16.normalizeWord toLowerCase16 (Utf16.widen s) = Utf16.widen (normalizeWord s) /\
  Utf16.normalizeForMatching toLowerCase16 (Utf16.widen s) =
    Utf16.widen (normalizeForMatching s).
Proof.
  intros lowering. split.
  - rewrite (normalizeWord_kept _ lowering). unfold normalizeWord, toLowerCase.
    induction s as [|c s IH]; [done |].
    change (Utf16.widen (c :: s)) with (N_of_ascii c :: Utf16.widen s).
    cbn [flat_map map]. rewrite List.filter_app, IH, widen_kept_word.
    change (toLowerChar c :: map toLowerChar s) with ([toLowerChar c] ++ map toLowerChar s).
    by rewrite List.filter_app, widen_app.
  - rewrite (normalizeForMatching_kept _ lowering).
    unfold normalizeForMatching, toLowerCase.
    rewrite <- widen_trim, <- widen_collapse. f_equal. f_equal.
    induction s as [|c s IH]; [done |].
    change (Utf16.widen (c :: s)) with (N_of_ascii c :: Utf16.widen s).
    cbn [flat_map map]. rewrite IH, widen_kept.
    change (toLowerChar c :: map toLowerChar s) with ([toLowerChar c] ++ map toLowerChar s).
    by rewrite List.filter_app, widen_app.
Qed.

(** * Further properties *)

(** ** Examples *)

Example stripTags_example :
  stripTags (lit "a <add>b</add> c <> d <e") = lit "a b c <> d <e".
Proof. reflexivity. Qed.

Example generateDiffSummary_example :
  generateDiffSummary
    (lit "one" ++ [LF; LF] ++ lit "two" ++ [LF] ++ lit "two")
    (lit "two" ++ [LF] ++ lit "three" ++ [LF] ++ lit "  " ++ [LF] ++ lit "four") =
  {| linesAdded := 2; linesRemoved := 1;
     addedPreview := [lit "three"; lit "four"]; removedPreview := [lit "one"] |}.
Proof. vm_compute. reflexivity. Qed.

Example line_diff_example :
  Unified.generateDiff (lit "a" ++ [LF] ++ lit "b") (lit "a" ++ [LF] ++ lit "c" ++ [LF] ++ lit "d") =
  lit "--- previous" ++ [LF] ++ lit "+++ current" ++ [LF] ++
  lit "- b" ++ [LF] ++ lit "+ c" ++ [LF] ++ lit "+ d".
Proof. vm_compute. reflexivity. Qed.

Example formatTimestamp_example :
  formatTimestamp (lit "20250312081500") = lit "2025-03-12 08:15:00 UTC" /\
  formatTimestamp (lit "20250312") = lit "2025-03-12 00:00:00 UTC" /\
  formatTimestampForFile (lit "20250312081500") = lit "2025-03-12_08-15-00_UTC".
Proof. repeat split; reflexivity. Qed.

Example monitorTimestamp_example :
  monitorTimestamp (lit "2026-01-29T07:05:09.123Z") = lit "2026-01-29 07:05:09 UTC".
Proof. reflexivity. Qed.

Example splitStr_example :
  splitStr (lit "---") (lit "a---b------c") = [lit "a"; lit "b"; []; lit "c"] /\
  splitStr (lit "---") (lit "-----") = [[]; lit "--"] /\
  splitStr (lit "---") [] = [[]].
Proof. repeat split; reflexivity. Qed.

Example selectDailySnapshots_example :
  let snap ts := {| Snapshot.timestamp := lit ts; Snapshot.statuscode := lit "200";
                    Snapshot.digest := [] |} in
  selectDailySnapshots
    [snap "20250302120000"; snap "20250301180000"; snap "20250301090000";
     snap "20250302130000"] =
  [snap "20250301090000"; snap "20250302120000"].
Proof. reflexivity. Qed.

(** ** Escaped output *)

Lemma escapeHtml_single c :
  escapeHtml [c] =
  if Ascii.eqb c "&" then lit "&amp;"
  else if Ascii.eqb c "<" then lit "&lt;"
  else if Ascii.eqb c ">" then lit "&gt;" else [c].
Proof. destruct c as [[] [] [] [] [] [] [] []]; reflexivity. Qed.

Lemma escapeHtml_char c :
  (c = "&"%char /\ escapeHtml [c] = lit "&amp;") \/
  (c = "<"%char /\ escapeHtml [c] = lit "&lt;") \/
  (c = ">"%char /\ escapeHtml [c] = lit "&gt;") \/
  (c <> "&"%char /\ isAngle c = false /\ escapeHtml [c] = [c]).
Proof.
  rewrite escapeHtml_single. unfold isAngle.
  destruct (Ascii.eqb_spec c "&"); [by left |].
  destruct (Ascii.eqb_spec c "<"); [by right; left |].
  destruct (Ascii.eqb_spec c ">"); [by right; right; left |].
  by right; right; right.
Qed.

Lemma escapeHtml_cons c s : escapeHtml (c :: s) = escapeHtml [c] ++ escapeHtml s.
Proof. apply (escapeHtml_app [c] s). Qed.

Lemma escapeHtml_head c1 c2 t1 t2 :
  escapeHtml [c1] ++ t1 = escapeHtml [c2] ++ t2 -> c1 = c2 /\ t1 = t2.
Proof.
  destruct (escapeHtml_char c1) as [[-> ->]|[[-> ->]|[[-> ->]|(Ha & Hb & ->)]]];
  destruct (escapeHtml_char c2) as [[-> ->]|[[-> ->]|[[-> ->]|(Ha' & Hb' & ->)]]];
    cbn; intros H; try (injection H; intros; subst; try done; fail);
    try discriminate H.
Qed.

(** X1. [escapeHtml] loses nothing: two different texts have different
    escaped forms. *)
Theorem escapeHtml_injective (a b : str) : a <> b -> escapeHtml a <> escapeHtml b.
Proof.
  intros Hne H. apply Hne. clear Hne. revert b H.
  induction a as [|c a IH]; intros [|d b] H.
  - done.
  - rewrite escapeHtml_cons in H.
    destruct (escapeHtml_char d) as [[_ E]|[[_ E]|[[_ E]|(_ & _ & E)]]];
      rewrite E in H; discriminate H.
  - rewrite escapeHtml_cons in H.
    destruct (escapeHtml_char c) as [[_ E]|[[_ E]|[[_ E]|(_ & _ & E)]]];
      rewrite E in H; discriminate H.
  - rewrite (escapeHtml_cons c a), (escapeHtml_cons d b) in H.
    apply escapeHtml_head in H as [-> H].
    f_equal. by apply IH.
Qed.

Lemma escapeHtml_injective_witness :
  escapeHtml (lit "<") <> escapeHtml (lit "&lt;").
Proof. apply escapeHtml_injective. discriminate. Defined.

Lemma plain_app a b : plain a -> plain b -> plain (a ++ b).
Proof. unfold plain. rewrite forallb_app. intros -> ->. done. Qed.

Lemma escapeHtml_plain s : plain (escapeHtml s).
Proof.
  induction s as [|c s IH]; [done |].
  rewrite escapeHtml_cons. apply plain_app; [|done].
  destruct (escapeHtml_char c) as [[_ E]|[[_ E]|[[_ E]|(_ & Hc & E)]]]; rewrite E;
    try done.
  unfold plain. simpl. by rewrite Hc.
Qed.

Lemma space_not_angle c : isSpace c = true -> isAngle c = false.
Proof. by_cases_on_char c. Qed.

Lemma blank_plain s : isBlank s = true -> plain s.
Proof.
  unfold isBlank, plain. induction s as [|c s IH]; [done |]. simpl.
  intros [Hc Hs]%andb_true_iff. by rewrite (space_not_angle c Hc), IH.
Qed.

Lemma markup_app a b : markup a -> markup b -> markup (a ++ b).
Proof.
  induction 1; intros Hb; [done | |]; rewrite <- app_assoc.
  - apply markup_text; auto.
  - apply markup_tag; auto.
Qed.

Lemma markup_plain s : plain s -> markup s.
Proof. intros H. rewrite <- (app_nil_r s). apply markup_text; [done | constructor]. Qed.

Lemma markup_marker m :
  m ∈ [lit "<add>"; lit "</add>"; lit "<del>"; lit "</del>"] -> markup m.
Proof. intros H. rewrite <- (app_nil_r m). apply markup_tag; [done | constructor]. Qed.

Lemma diffStep_markup st p : markup (html st) -> markup (html (diffStep st p)).
Proof.
  intros H. unfold diffStep.
  destruct (added p); [|destruct (removed p)].
  - rewrite truthy_trim. destruct (isBlank (partText p)) eqn:E; cbn [negb html].
    + apply markup_app; [done |]. by apply markup_plain, blank_plain.
    + apply markup_app; [done |]. apply markup_app; [|apply markup_app].
      * apply markup_marker. set_solver.
      * apply markup_plain, escapeHtml_plain.
      * apply markup_marker. set_solver.
  - destruct (truthy _); cbn [html]; [|done].
    apply markup_app; [done |]. apply markup_app; [|apply markup_app].
    + apply markup_marker. set_solver.
    + apply markup_plain, escapeHtml_plain.
    + apply markup_marker. set_solver.
  - cbn [html]. apply markup_app; [done |]. apply markup_plain, escapeHtml_plain.
Qed.

Lemma fold_markup ps : forall st, markup (html st) -> markup (html (fold_left diffStep ps st)).
Proof.
  induction ps as [|p ps IH]; intros st H; [done |].
  simpl. apply IH. by apply diffStep_markup.
Qed.

Lemma stripFrom_plain s rest :
  plain s -> stripFrom None (s ++ rest) = s ++ stripFrom None rest.
Proof.
  unfold plain. induction s as [|c s IH]; [done |]. simpl.
  intros [Hc Hs]%andb_true_iff. unfold isAngle in Hc.
  apply negb_true_iff, orb_false_iff in Hc as [Hc _]. rewrite Hc.
  by rewrite IH.
Qed.

Lemma stripFrom_marker m rest :
  m ∈ [lit "<add>"; lit "</add>"; lit "<del>"; lit "</del>"] ->
  stripFrom None (m ++ rest) = stripFrom None rest.
Proof.
  intros H. repeat (apply elem_of_cons in H as [->|H]; [reflexivity |]).
  by apply elem_of_nil in H.
Qed.

Lemma stripTags_markup s : markup s -> plain (stripTags s).
Proof.
  unfold stripTags. induction 1 as [|s rest Hs _ IH|m rest Hm _ IH]; [done | |].
  - rewrite stripFrom_plain by done. by apply plain_app.
  - by rewrite stripFrom_marker.
Qed.

Lemma diffLoop_markup diffArrays oldPara newPara :
  markup (html (diffLoop diffArrays oldPara newPara)).
Proof. unfold diffLoop. apply fold_markup. constructor. Qed.

Lemma outcome_escaped diffArrays oldParas newPara m :
  Forall escaped (outcome diffArrays oldParas newPara m).
Proof.
  unfold outcome. destruct m as [j|].
  - destruct (hasChanges _); [|constructor].
    destruct (type _); repeat constructor; cbn.
    + apply escapeHtml_plain.
    + apply escapeHtml_plain.
    + apply diffLoop_markup.
  - repeat constructor. cbn. apply escapeHtml_plain.
Qed.

Lemma outcomes_escaped diffArrays oldParas news : forall al,
  Forall escaped (concat (zip_with (outcome diffArrays oldParas) news al)).
Proof.
  induction news as [|p rest IH]; intros [|m l]; try constructor.
  cbn. apply Forall_app. split; [apply outcome_escaped | apply IH].
Qed.

Lemma output_escaped_aux diffArrays oldContent newContent :
  Forall escaped (generateDiff diffArrays oldContent newContent).
Proof.
  unfold generateDiff. rewrite diffParas_spec. cbv zeta.
  apply Forall_app. split; [apply outcomes_escaped |].
  apply Forall_fmap, Forall_true. intros p. cbn. apply escapeHtml_plain.
Qed.

(** X2. Whatever the array diff returns, every text field of every entry of
    [generateDiff] is escaped: [content], [oldContent] and [newContent] of
    an added, removed or replaced entry hold no [<] and no [>], and the
    [content] of a changed entry is made of stretches without [<] and [>]
    and of the markers [<add>], [</add>], [<del>] and [</del>]. *)
Theorem output_is_escaped
    (diffArrays : (str -> str -> bool) -> list str -> list str -> list part)
    (oldContent newContent : str) :
  Forall escaped (generateDiff diffArrays oldContent newContent).
Proof.
  unfold generateDiff. rewrite diffParas_spec. cbv zeta.
  apply Forall_app. split.
  - generalize (align (splitIntoParagraphs oldContent) ∅ (splitIntoParagraphs newContent)).
    induction (splitIntoParagraphs newContent) as [|p rest IH]; intros [|m l];
      try constructor.
    cbn. apply Forall_app. split; [apply outcome_escaped | apply IH].
  - apply Forall_fmap, Forall_true. intros p. cbn. apply escapeHtml_plain.
Qed.

Lemma plain_take n s : plain s -> plain (take n s).
Proof.
  unfold plain. revert n. induction s as [|c s IH]; intros [|n]; try done.
  simpl. intros [Hc Hs]%andb_true_iff. by rewrite Hc, IH.
Qed.

Lemma describeEntry_plain e : escaped e -> plain (describeEntry e).
Proof.
  destruct e as [c|c|c|o n]; cbn [escaped describeEntry]; intros H.
  - apply plain_app; [done | by apply plain_take].
  - apply plain_app; [done | by apply plain_take].
  - apply plain_app; [done |]. by apply plain_take, stripTags_markup.
  - destruct H as [Ho Hn].
    repeat (apply plain_app; [done || by apply plain_take |]).
    done.
Qed.

Lemma join_plain sep l : plain sep -> Forall plain l -> plain (join sep l).
Proof.
  intros Hsep. induction 1 as [|x l Hx Hl IH]; [done |].
  destruct l as [|y l]; [done |].
  change (plain (x ++ sep ++ join sep (y :: l))).
  apply plain_app; [done |]. by apply plain_app.
Qed.

Lemma Forall_kept {A} (P : A -> Prop) (f : A -> bool) (l : list A) :
  Forall P l -> Forall P (List.filter f l).
Proof.
  induction 1 as [|x l Hx _ IH]; [constructor |].
  simpl. destruct (f x); [by constructor | done].
Qed.

(** X3. The description of the changes that [generateDiffLLMSummary] of
    [monitor.js] builds from the output of [generateDiff] holds no [<] and
    no [>]: the tag-stripping replacement removes exactly the markers of a
    changed entry, and everything else is escaped. *)
Theorem description_has_no_markup
    (diffArrays : (str -> str -> bool) -> list str -> list str -> list part)
    (oldContent newContent : str) :
  Forall (fun c => c <> "<"%char /\ c <> ">"%char)
    (describeChanges (generateDiff diffArrays oldContent newContent)).
Proof.
  assert (H : plain (describeChanges (generateDiff diffArrays oldContent newContent))).
  { unfold describeChanges. apply join_plain; [done |].
    apply Forall_kept, Forall_fmap.
    pose proof (output_escaped_aux diffArrays oldContent newContent) as He.
    revert He. apply List.Forall_impl. intros e. apply describeEntry_plain. }
  unfold plain in H. rewrite forallb_forall in H. apply Forall_forall.
  intros c Hc. apply H in Hc. unfold isAngle in Hc.
  apply negb_true_iff, orb_false_iff in Hc as [H1 H2].
  apply Ascii.eqb_neq in H1, H2. done.
Qed.

(** ** Scores and unmatched paragraphs *)

(** X4. The score of [findBestMatch] is symmetric: a paragraph scores
    against a candidate what the candidate scores against the paragraph. *)
Theorem similarity_symmetric (para other : str) :
  similarity para other = similarity other para.
Proof.
  unfold similarity, jaccard.
  assert (H1 : filter (fun w => w ∈ wordSet other) (wordSet para) =
               filter (fun w => w ∈ wordSet para) (wordSet other)).
  { apply set_eq. intros w. rewrite !elem_of_filter. tauto. }
  rewrite H1. by rewrite (union_comm_L (wordSet para)).
Qed.

Lemma align_none oldParas news : forall used,
  (forall p q, p ∈ news -> q ∈ oldParas ->
     greater (similarity p q) threshold = false) ->
  align oldParas used news = (fun _ => None) <$> news.
Proof.
  induction news as [|p rest IH]; intros used H; [done |].
  cbn [align]. pose proof (findBestMatch_spec p oldParas used) as Hspec.
  cbv zeta in Hspec.
  destruct (index (findBestMatch p oldParas used)) as [j|].
  - destruct Hspec as (q & Hq & _ & _ & Hgt & _).
    rewrite (H p q) in Hgt; [done | by left | by eapply list_elem_of_lookup_2].
  - cbn [markUsed fmap list_fmap]. f_equal. apply IH.
    intros p' q Hp Hq. apply H; [by right | done].
Qed.

Lemma unmatched_none (oldParas : list str) : unmatchedOld ∅ oldParas = oldParas.
Proof.
  unfold unmatchedOld.
  assert (H : forall (l : list str) i,
             (List.filter (fun ip => bool_decide (fst ip ∉ (∅ : gset nat)))
                (imap (fun k p => (i + k, p)) l)).*2 = l).
  { induction l as [|p l IH]; intros i; [done |].
    rewrite imap_cons. cbn [List.filter fst].
    rewrite bool_decide_eq_true_2 by set_solver. cbn. f_equal.
    rewrite (imap_ext _ (fun k p => (S i + k, p))) by (intros; simpl; f_equal; lia).
    apply IH. }
  apply (H oldParas 0).
Qed.

Lemma outcomes_none diffArrays (oldParas news : list str) :
  concat (zip_with (outcome diffArrays oldParas) news ((fun _ => None) <$> news)) =
  (fun p => EAdded (escapeHtml p)) <$> news.
Proof. induction news as [|p rest IH]; [done |]. cbn. by rewrite <- IH. Qed.

Lemma matchedOld_none (news : list str) :
  matchedOld ((fun _ => None) <$> news) = [].
Proof. by induction news. Qed.

(** X5. When no paragraph of the new text scores above 0.3 against any
    paragraph of the old text, the output of [generateDiff] is every new
    paragraph as an [added] entry, in order, followed by every old paragraph
    as a [removed] entry, in order - whatever the array diff returns. *)
Theorem unrelated_texts_added_then_removed
    (diffArrays : (str -> str -> bool) -> list str -> list str -> list part)
    (oldContent newContent : str) :
  let oldParas := splitIntoParagraphs oldContent in
  let newParas := splitIntoParagraphs newContent in
  (forall p q, p ∈ newParas -> q ∈ oldParas ->
     greater (similarity p q) threshold = false) ->
  generateDiff diffArrays oldContent newContent =
  ((fun p => EAdded (escapeHtml p)) <$> newParas) ++
  ((fun p => ERemoved (escapeHtml p)) <$> oldParas).
Proof.
  intros oldParas newParas H. unfold generateDiff. fold oldParas newParas.
  rewrite diffParas_spec. cbv zeta.
  rewrite (align_none oldParas newParas ∅ H), matchedOld_none, outcomes_none.
  cbn [list_to_set]. by rewrite unmatched_none.
Qed.

Lemma unrelated_texts_added_then_removed_witness :
  generateDiff lcsDiff (lit "Alpha beta gamma delta.") (lit "One two three four.") =
  [EAdded (lit "One two three four."); ERemoved (lit "Alpha beta gamma delta.")].
Proof.
  apply (unrelated_texts_added_then_removed lcsDiff
           (lit "Alpha beta gamma delta.") (lit "One two three four.")).
  intros p q Hp Hq.
  assert (Ep : p = lit "One two three four.").
  { revert Hp. vm_compute splitIntoParagraphs. intros Hp.
    by apply list_elem_of_singleton in Hp. }
  assert (Eq : q = lit "Alpha beta gamma delta.").
  { revert Hq. vm_compute splitIntoParagraphs. intros Hq.
    by apply list_elem_of_singleton in Hq. }
  subst. vm_compute. reflexivity.
Defined.

Lemma filter_index_length (used : gset nat) (l : list str) : forall i,
  length (List.filter (fun ip => bool_decide (fst ip ∉ used))
            (imap (fun k p => (i + k, p)) l)) =
  length (List.filter (fun k => bool_decide (k ∉ used)) (seq i (length l))).
Proof.
  induction l as [|p l IH]; intros i; [done |].
  rewrite imap_cons. cbn [List.filter fst length seq]. rewrite Nat.add_0_r.
  rewrite (imap_ext _ (fun k p => (S i + k, p))) by (intros; simpl; f_equal; lia).
  destruct (bool_decide (i ∉ used)); cbn [length]; by rewrite IH.
Qed.

Lemma used_count (l : list nat) : NoDup l -> forall n,
  (forall j, j ∈ l -> j < n) ->
  length (List.filter (fun k => bool_decide (k ∉ (list_to_set l : gset nat))) (seq 0 n))
    + length l = n.
Proof.
  intros Hnd n Hlt.
  pose proof (List.filter_length (fun k => bool_decide (k ∉ (list_to_set l : gset nat)))
                (seq 0 n)) as Hlen.
  rewrite length_seq in Hlen.
  assert (Hperm : List.filter (fun k => negb (bool_decide (k ∉ (list_to_set l : gset nat))))
                    (seq 0 n) ≡ₚ l).
  { apply NoDup_Permutation.
    - apply NoDup_ListNoDup, List.NoDup_filter, seq_NoDup.
    - done.
    - intros x. rewrite list_elem_of_In, filter_In, <- list_elem_of_In.
      rewrite negb_true_iff, bool_decide_eq_false, elem_of_seq.
      rewrite elem_of_list_to_set. split.
      + intros [_ Hx]. by apply dec_stable.
      + intros Hx. split; [specialize (Hlt x Hx); lia | tauto]. }
  apply Permutation_length in Hperm.
  rewrite <- Hperm. lia.
Qed.

Lemma outcomes_shape diffArrays (oldParas news : list str) : forall al,
  Forall (fun es => length es <= 1 /\ Forall (fun e => isRemoved e = false) es)
    (zip_with (outcome diffArrays oldParas) news al).
Proof.
  induction news as [|p rest IH]; intros [|m l]; try constructor.
  - split; [apply outcome_length | apply outcome_not_removed].
  - apply IH.
Qed.

Lemma outcomes_length diffArrays (oldParas news : list str) al :
  length (concat (zip_with (outcome diffArrays oldParas) news al)) <= length news.
Proof.
  pose proof (outcomes_shape diffArrays oldParas news al) as Hper.
  assert (Hl : length (zip_with (outcome diffArrays oldParas) news al) <= length news)
    by (rewrite length_zip_with; lia).
  revert Hl. generalize (length news).
  induction Hper as [|es l [Hes _] _ IH]; intros n Hn; simpl in *; [lia |].
  rewrite length_app. destruct n; [lia |]. specialize (IH n). lia.
Qed.

Lemma outcomes_none_removed diffArrays (oldParas news : list str) al :
  List.filter isRemoved (concat (zip_with (outcome diffArrays oldParas) news al)) = [].
Proof.
  pose proof (outcomes_shape diffArrays oldParas news al) as Hper.
  induction Hper as [|es l [_ Hes] _ IH]; [done |].
  simpl. rewrite List.filter_app, IH, app_nil_r.
  clear -Hes. induction Hes as [|e es He _ IH]; [done |]. simpl. by rewrite He.
Qed.

Lemma removed_all_removed (l : list str) :
  List.filter isRemoved ((fun p => ERemoved (escapeHtml p)) <$> l) =
  (fun p => ERemoved (escapeHtml p)) <$> l.
Proof. induction l as [|p l IH]; [done |]. cbn. by rewrite IH. Qed.

(** X6. Every old paragraph is accounted for once: the number of [removed]
    entries plus the number of pairs that the alignment formed is the number
    of old paragraphs, and the output has at most one entry per new
    paragraph beside the [removed] ones. *)
Theorem old_paragraphs_accounted
    (diffArrays : (str -> str -> bool) -> list str -> list str -> list part)
    (oldContent newContent : str) :
  let oldParas := splitIntoParagraphs oldContent in
  let newParas := splitIntoParagraphs newContent in
  let out := generateDiff diffArrays oldContent newContent in
  let pairsFormed := matchedOld (align oldParas ∅ newParas) in
  length (List.filter isRemoved out) + length pairsFormed = length oldParas /\
  length out <= length newParas + length oldParas - length pairsFormed.
Proof.
  intros oldParas newParas out pairsFormed.
  destruct (align_fresh oldParas newParas ∅) as [Hnd Hin].
  fold pairsFormed in Hnd, Hin.
  assert (Hrem : length (unmatchedOld (list_to_set pairsFormed) oldParas)
                 + length pairsFormed = length oldParas).
  { unfold unmatchedOld. rewrite length_fmap.
    rewrite (filter_index_length _ oldParas 0).
    apply used_count; [done |]. intros j Hj. by apply Hin. }
  unfold out, generateDiff. fold oldParas newParas. rewrite diffParas_spec. cbv zeta.
  fold pairsFormed.
  pose proof (outcomes_length diffArrays oldParas newParas (align oldParas ∅ newParas)) as Hlen.
  rewrite List.filter_app, outcomes_none_removed, removed_all_removed. cbn [app].
  rewrite length_app, !length_fmap. split; lia.
Qed.

(** ** Counters, and the length of a paragraph *)

Lemma trimmedLen_blank t : isBlank t = true -> trimmedLen t = 0.
Proof.
  unfold isBlank, trimmedLen. induction t as [|c t IH]; [done |]. simpl.
  intros [Hc Ht]%andb_true_iff. rewrite Hc. simpl. auto.
Qed.

Lemma fold_counters cmp old new ps :
  editScript cmp old new ps -> forall st,
  let st' := fold_left diffStep ps st in
  exists u t,
    unchangedChars st' = unchangedChars st + u /\
    totalChars st' = totalChars st + t /\
    u <= trimmedLen (concat new) /\
    trimmedLen (concat new) <= t /\
    t <= trimmedLen (concat new) + trimmedLen (concat old).
Proof.
  induction 1 as [|os ns old new ps Hf _ IH|os old new ps _ IH|ns old new ps _ IH];
    intros st; cbv zeta.
  - exists 0, 0. cbn [fold_left concat]. unfold trimmedLen. cbn [List.filter length]. lia.
  - cbn [fold_left]. destruct (IH (diffStep st (commonPart ns))) as (u & t & Hu & Ht & H1 & H2 & H3).
    rewrite Hu, Ht. unfold diffStep, commonPart, partText.
    cbn [added removed value unchangedChars totalChars].
    rewrite !concat_app, !trimmedLen_app.
    exists (trimmedLen (concat ns) + u), (trimmedLen (concat ns) + t). lia.
  - cbn [fold_left]. destruct (IH (diffStep st (removedPart os))) as (u & t & Hu & Ht & H1 & H2 & H3).
    rewrite Hu, Ht. unfold diffStep, removedPart, partText. cbn [added removed value].
    rewrite truthy_trim, !concat_app, !trimmedLen_app.
    destruct (isBlank (concat os)) eqn:E; cbn [negb unchangedChars totalChars].
    + exists u, t. lia.
    + exists u, (trimmedLen (concat os) + t). lia.
  - cbn [fold_left]. destruct (IH (diffStep st (addedPart ns))) as (u & t & Hu & Ht & H1 & H2 & H3).
    rewrite Hu, Ht. unfold diffStep, addedPart, partText. cbn [added removed value].
    rewrite truthy_trim, !concat_app, !trimmedLen_app.
    destruct (isBlank (concat ns)) eqn:E; cbn [negb unchangedChars totalChars].
    + rewrite (trimmedLen_blank _ E). exists u, t. lia.
    + exists u, (trimmedLen (concat ns) + t). lia.
Qed.

(** X7. With an array diff that meets the contract, the counters of
    [diffParagraphs] are bounded by the two paragraphs: the unchanged
    characters are at most the non-whitespace characters of the new
    paragraph, and the total lies between that number and the
    non-whitespace characters of both paragraphs together. *)
Theorem counted_characters
    (diffArrays : (str -> str -> bool) -> list str -> list str -> list part)
    (contract : diff_contract diffArrays) (oldPara newPara : str) :
  let st := diffLoop diffArrays oldPara newPara in
  unchangedChars st <= trimmedLen newPara /\
  trimmedLen newPara <= totalChars st /\
  totalChars st <= trimmedLen newPara + trimmedLen oldPara.
Proof.
  cbv zeta. unfold diffLoop. destruct contract as [Hscript _].
  destruct (fold_counters _ _ _ _
              (Hscript comparator (splitKeepSpaces oldPara) (splitKeepSpaces newPara))
              diffInit) as (u & t & Hu & Ht & H1 & H2 & H3).
  rewrite !splitKeepSpaces_concat in *. rewrite Hu, Ht. cbn. lia.
Qed.

Lemma counted_characters_witness :
  let st := diffLoop lcsDiff (lit "The cat sat on the mat.") (lit "The dog sat on the mat.") in
  unchangedChars st <= 18 /\ 18 <= totalChars st /\ totalChars st <= 36.
Proof.
  exact (counted_characters lcsDiff lcsDiff_contract
           (lit "The cat sat on the mat.") (lit "The dog sat on the mat.")).
Defined.

Lemma capOk_step st s :
  capOk (gopen st) -> Forall capOk (gclosed st) ->
  capOk (gopen (groupStep st s)) /\ Forall capOk (gclosed (groupStep st s)).
Proof.
  intros Ho Hc. unfold groupStep.
  destruct (capExceeded (bufferOf (gopen st)) s) eqn:E; cbn [gopen gclosed].
  - split.
    + right. cbn. by left.
    + apply Forall_app. split; [done | by constructor].
  - split; [|done]. unfold capOk. rewrite bufferOf_snoc.
    destruct (bufferOf (gopen st)) as [|c b] eqn:Eb.
    + right. cbn. apply elem_of_app. right. by left.
    + left. unfold capExceeded in E. apply andb_false_iff in E as [E|E].
      * apply Nat.ltb_ge in E. unfold appendSentence. rewrite !length_app.
        cbn in *. lia.
      * cbn in E. done.
Qed.

Lemma capOk_fold ss : forall st,
  capOk (gopen st) -> Forall capOk (gclosed st) ->
  Forall capOk (groupsOf (fold_left groupStep ss st)).
Proof.
  induction ss as [|s ss IH]; intros st Ho Hc.
  - unfold groupsOf. apply Forall_app. split; [done | by constructor].
  - cbn [fold_left]. destruct (capOk_step st s Ho Hc). by apply IH.
Qed.

Lemma trim_length s : length (trim s) <= length s.
Proof.
  assert (Hs : forall x, length (trimStart x) <= length x).
  { induction x as [|c x IH]; [done |]. simpl. destruct (isSpace c); simpl; lia. }
  unfold trim, trimEnd. rewrite length_rev.
  etrans; [apply Hs |]. rewrite length_rev. apply Hs.
Qed.

(** X8. The 500-character cap is soft in one way only: a paragraph that
    [splitIntoParagraphs] returns has at most 501 characters, or it is a
    single sentence of the text (trimmed, or the whole of a whitespace
    text). *)
Theorem long_paragraph_is_one_sentence (text p : str) :
  p ∈ splitIntoParagraphs text ->
  length p <= 501 \/
  exists s, s ∈ splitSentences text /\ (p = trim s \/ p = s).
Proof.
  intros Hp. destruct (isBlank text) eqn:Hb.
  { rewrite (paragraphs_of_blank text Hb) in Hp.
    apply list_elem_of_singleton in Hp as ->. right. exists text.
    rewrite (blank_single text Hb). split; [by left | by right]. }
  revert Hp. unfold splitIntoParagraphs. rewrite paraFold_init.
  set (gst := fold_left groupStep (splitSentences text) groupInit).
  assert (Hok : Forall capOk (groupsOf gst)).
  { apply capOk_fold; [left; cbn; lia | constructor]. }
  assert (Hcat : concat (groupsOf gst) = splitSentences text)
    by apply sentenceGroups_concat.
  assert (Hg : forall g, g ∈ groupsOf gst ->
             length (trim (bufferOf g)) <= 501 \/
             exists s, s ∈ splitSentences text /\
               (trim (bufferOf g) = trim s \/ trim (bufferOf g) = s)).
  { intros g Hin. rewrite list.Forall_forall in Hok. destruct (Hok g Hin) as [Hl|Hs].
    - left. pose proof (trim_length (bufferOf g)). lia.
    - right. exists (bufferOf g). split; [|by left].
      rewrite <- Hcat. rewrite list_elem_of_In, in_concat. exists g.
      by rewrite <- !list_elem_of_In. }
  unfold groupsOf in Hg.
  unfold paraFinish, renderState. cbn [paragraphs current].
  set (ps := match trim (bufferOf (gopen gst)) with
             | [] => (fun g => trim (bufferOf g)) <$> gclosed gst
             | _ => ((fun g => trim (bufferOf g)) <$> gclosed gst) ++ [trim (bufferOf (gopen gst))]
             end).
  assert (Hps : forall q, q ∈ ps ->
             length q <= 501 \/
             exists s, s ∈ splitSentences text /\ (q = trim s \/ q = s)).
  { intros q Hq. unfold ps in Hq.
    assert (Hcl : q ∈ (fun g => trim (bufferOf g)) <$> gclosed gst ->
             length q <= 501 \/
             exists s, s ∈ splitSentences text /\ (q = trim s \/ q = s)).
    { intros Hin. apply list_elem_of_fmap in Hin as (g & -> & Hin).
      apply Hg, elem_of_app. by left. }
    destruct (trim (bufferOf (gopen gst))) as [|c r] eqn:E; [by apply Hcl |].
    apply elem_of_app in Hq as [Hq|Hq]; [by apply Hcl |].
    apply list_elem_of_singleton in Hq as ->. rewrite <- E.
    apply Hg, elem_of_app. right. by left. }
  destruct ps as [|q ps'] eqn:Eps; [|intros Hp; by apply Hps].
  intros _. exfalso. unfold ps in Eps.
  destruct (trim (bufferOf (gopen gst))) as [|c r] eqn:E;
    [|by destruct (_ <$> gclosed gst)].
  apply fmap_nil_inv in Eps.
  unfold groupsOf in Hcat. rewrite Eps in Hcat. simpl in Hcat.
  rewrite app_nil_r in Hcat.
  apply trim_nil_blank in E. unfold bufferOf in E.
  apply fold_appendSentence_blank in E as [_ E]. rewrite Hcat in E.
  pose proof (sentences_blank text (splitSentences text) (sentences_complete text) E).
  congruence.
Qed.

Lemma long_paragraph_is_one_sentence_witness :
  length (lit "One. Two.") <= 501 \/
  exists s, s ∈ splitSentences (lit "One. Two.") /\
    (lit "One. Two." = trim s \/ lit "One. Two." = s).
Proof.
  apply (long_paragraph_is_one_sentence (lit "One. Two.") (lit "One. Two.")).
  vm_compute. by left.
Defined.

(** ** The line statistics *)

Lemma setAdd_elem s x y : y ∈ setAdd s x <-> y ∈ s \/ y = x.
Proof.
  unfold setAdd. case_bool_decide as H.
  - split; [by left | intros [?| ->]; done].
  - rewrite elem_of_app, list_elem_of_singleton. done.
Qed.

Lemma setAdd_NoDup s x : NoDup s -> NoDup (setAdd s x).
Proof.
  intros Hs. unfold setAdd. case_bool_decide as H; [done |].
  apply list.NoDup_app. split; [done |]. split; [|apply NoDup_singleton].
  intros y Hy Hx. apply list_elem_of_singleton in Hx as ->. done.
Qed.

Lemma setFold_spec l : forall s,
  NoDup s ->
  NoDup (fold_left setAdd l s) /\
  forall y, y ∈ fold_left setAdd l s <-> y ∈ s \/ y ∈ l.
Proof.
  induction l as [|x l IH]; intros s Hs.
  - split; [done |]. intros y. rewrite elem_of_nil. tauto.
  - cbn [fold_left]. destruct (IH (setAdd s x) (setAdd_NoDup s x Hs)) as [Hnd Hin].
    split; [done |]. intros y. rewrite Hin, setAdd_elem, elem_of_cons. tauto.
Qed.

Lemma setOf_NoDup l : NoDup (setOf l).
Proof. apply (setFold_spec l []). constructor. Qed.

Lemma setOf_elem l y : y ∈ setOf l <-> y ∈ l.
Proof.
  unfold setOf. destruct (setFold_spec l [] (NoDup_nil_2)) as [_ H].
  rewrite H, elem_of_nil. tauto.
Qed.

(** The elements of a set are in the order of their first occurrence. *)
Lemma setFold_sublist l : forall s, exists k, fold_left setAdd l s = s ++ k /\ sublist k l.
Proof.
  induction l as [|x l IH]; intros s.
  - exists []. by rewrite app_nil_r.
  - cbn [fold_left]. destruct (IH (setAdd s x)) as (k & Hk & Hsub).
    rewrite Hk. unfold setAdd. case_bool_decide.
    + exists k. split; [done | by apply sublist_cons].
    + exists (x :: k). rewrite <- app_assoc. split; [done | by apply sublist_skip].
Qed.

Lemma setOf_sublist l : sublist (setOf l) l.
Proof. destruct (setFold_sublist l []) as (k & Hk & Hsub). unfold setOf. by rewrite Hk. Qed.

Lemma nonBlankLines_elem content l :
  l ∈ nonBlankLines content <-> l ∈ splitOn LF content /\ isBlank l = false.
Proof.
  unfold nonBlankLines. rewrite list_elem_of_In, filter_In, <- list_elem_of_In.
  rewrite truthy_trim, negb_true_iff. done.
Qed.

Lemma onlyIn_elem these others l :
  l ∈ onlyIn these others <-> l ∈ these /\ l ∉ others.
Proof.
  unfold onlyIn, has. rewrite list_elem_of_In, filter_In, <- list_elem_of_In.
  rewrite negb_true_iff, bool_decide_eq_false. done.
Qed.

Lemma onlyIn_nil these others :
  length (onlyIn these others) = 0 <-> forall l, l ∈ these -> l ∈ others.
Proof.
  split.
  - intros H l Hl. destruct (decide (l ∈ others)) as [|Hn]; [done |].
    assert (Hin : l ∈ onlyIn these others) by (by apply onlyIn_elem).
    destruct (onlyIn these others); [by apply elem_of_nil in Hin | done].
  - intros H. destruct (onlyIn these others) as [|l k] eqn:E; [done |].
    assert (Hin : l ∈ onlyIn these others) by (rewrite E; by left).
    apply onlyIn_elem in Hin as [Hl Hn]. by specialize (H l Hl).
Qed.

Lemma filter_sublist {A} (f : A -> bool) (l : list A) : sublist (List.filter f l) l.
Proof.
  induction l as [|x l IH]; [constructor |]. simpl.
  destruct (f x); [by apply sublist_skip | by apply sublist_cons].
Qed.

(** X9. [generateDiffSummary] reports no added and no removed line exactly
    when the two contents have the same non-blank lines as sets: blank
    lines, the order of the lines and repeated lines do not count. *)
Theorem summary_counts_zero (oldContent newContent : str) :
  let r := generateDiffSummary oldContent newContent in
  (linesAdded r = 0 /\ linesRemoved r = 0) <->
  (forall l, l ∈ nonBlankLines oldContent <-> l ∈ nonBlankLines newContent).
Proof.
  cbv zeta. unfold generateDiffSummary. cbn [linesAdded linesRemoved].
  rewrite !onlyIn_nil. split.
  - intros [Ha Hr] l. split; intros Hl.
    + apply setOf_elem, Hr, setOf_elem, Hl.
    + apply setOf_elem, Ha, setOf_elem, Hl.
  - intros H. split; intros l Hl; rewrite setOf_elem in Hl; apply setOf_elem, H, Hl.
Qed.

Lemma before_cons {A} (z : A) l x y :
  before (z :: l) x y <-> (x = z /\ y ∈ l) \/ before l x y.
Proof.
  split.
  - intros (p & q & r & H). destruct p as [|z' p]; simpl in H; injection H as -> ->.
    + left. split; [done |]. apply elem_of_app. right. by left.
    + right. by exists p, q, r.
  - intros [[-> Hy]|(p & q & r & ->)].
    + apply list_elem_of_split in Hy as (q & r & ->). by exists [], q, r.
    + by exists (z :: p), q, r.
Qed.

Lemma before_elem {A} (l : list A) x y : before l x y -> x ∈ l /\ y ∈ l.
Proof.
  intros (p & q & r & ->). split.
  - apply elem_of_app. right. by left.
  - apply elem_of_app. right. right. apply elem_of_app. right. by left.
Qed.

Lemma occursFirst_cons z lines x y :
  occursFirst lines x y -> y <> z -> occursFirst (z :: lines) x y.
Proof.
  intros (a & b & -> & Hy & Hxy) Hz. exists (z :: a), b. split; [done |].
  split; [|done]. apply not_elem_of_cons. by split.
Qed.

Lemma occursFirst_asym lines x y : occursFirst lines x y -> occursFirst lines y x -> False.
Proof.
  intros (a & b & -> & Hy & Hxy) (a2 & b2 & E & Hx & _).
  apply app_eq_app in E as [k [[-> E]|[-> E]]].
  - destruct k as [|z k]; simpl in E; injection E as E1 E2; [by subst |].
    subst z. apply Hy. apply elem_of_app. right. by left.
  - destruct k as [|z k]; simpl in E; injection E as E1 E2; [by subst |].
    subst z. apply Hx. apply elem_of_app. right. by left.
Qed.

(** A [Set] keeps its elements in the order of their first insertion. *)
Lemma setFold_order l : forall s, exists k,
  fold_left setAdd l s = s ++ k /\
  (forall z, z ∈ k -> (z ∉ s) /\ z ∈ l) /\
  inOrderOfFirstOccurrence l k.
Proof.
  induction l as [|z0 l IH]; intros s.
  - exists []. split; [by rewrite app_nil_r |]. split.
    + intros z Hz. by apply elem_of_nil in Hz.
    + intros x y (p & q & r & H). by destruct p.
  - cbn [fold_left]. destruct (IH (setAdd s z0)) as (k & Hk & Hel & Hord).
    rewrite Hk. unfold setAdd in *. case_bool_decide as Hin.
    + exists k. split; [done |]. split.
      * intros z Hz. destruct (Hel z Hz) as [Hs Hl]. split; [done | by right].
      * intros x y Hb. apply occursFirst_cons; [by apply Hord |].
        intros ->. apply before_elem in Hb as [_ Hy]. by apply Hel in Hy as [Hy _].
    + exists (z0 :: k). split; [by rewrite <- app_assoc |]. split.
      * intros z Hz. apply elem_of_cons in Hz as [->|Hz]; [split; [done | by left] |].
        destruct (Hel z Hz) as [Hs Hl]. split; [|by right].
        intros Hz'. apply Hs, elem_of_app. by left.
      * intros x y Hb.
        assert (Hy : y ∈ k -> y <> z0).
        { intros Hy ->. apply Hel in Hy as [Hy _]. apply Hy, elem_of_app. right. by left. }
        apply before_cons in Hb as [[-> Hyk]|Hb].
        -- exists [], l. split; [done |]. split; [apply not_elem_of_nil | by apply Hy].
        -- apply occursFirst_cons; [by apply Hord |].
           apply Hy. by apply before_elem in Hb as [_ Hb].
Qed.

Lemma setOf_order l : inOrderOfFirstOccurrence l (setOf l).
Proof. destruct (setFold_order l []) as (k & Hk & _ & Hord). unfold setOf. by rewrite Hk. Qed.

Lemma filter_cons_inv {A} (f : A -> bool) l : forall a' x b',
  List.filter f l = a' ++ x :: b' ->
  exists a b, l = a ++ x :: b /\ List.filter f a = a' /\ List.filter f b = b'.
Proof.
  induction l as [|z l IH]; intros a' x b' H; [by destruct a' |].
  simpl in H. destruct (f z) eqn:Ez.
  - destruct a' as [|z' a']; simpl in H; injection H as -> H.
    + exists [], l. by subst.
    + destruct (IH _ _ _ H) as (a & b & -> & Ha & Hb).
      exists (z' :: a), b. simpl. rewrite Ez, Ha. done.
  - destruct (IH _ _ _ H) as (a & b & -> & Ha & Hb).
    exists (z :: a), b. simpl. by rewrite Ez.
Qed.

Lemma before_filter {A} (f : A -> bool) l x y :
  before (List.filter f l) x y -> before l x y.
Proof.
  intros (p & q & r & H).
  apply filter_cons_inv in H as (a & b & -> & _ & H).
  apply filter_cons_inv in H as (c & d & -> & _ & _).
  by exists a, c, d.
Qed.

Lemma occursFirst_filter (f : str -> bool) lines x y :
  f y = true -> occursFirst (List.filter f lines) x y -> occursFirst lines x y.
Proof.
  intros Hf (a' & b' & H & Hy & Hxy).
  apply filter_cons_inv in H as (a & b & -> & <- & _).
  exists a, b. split; [done |]. split; [|done].
  intros Hin. apply Hy. rewrite list_elem_of_In, filter_In, <- list_elem_of_In. done.
Qed.

(** Two lists without repetition that have the same elements, both in the
    order of their first occurrence in [lines], are the same list. *)
Lemma first_occurrence_unique lines : forall l1 l2,
  NoDup l1 -> NoDup l2 -> (forall z, z ∈ l1 <-> z ∈ l2) ->
  inOrderOfFirstOccurrence lines l1 -> inOrderOfFirstOccurrence lines l2 ->
  l1 = l2.
Proof.
  induction l1 as [|x l1 IH]; intros l2 H1 H2 Hel O1 O2.
  - destruct l2 as [|y l2]; [done |]. exfalso.
    apply (not_elem_of_nil y), Hel. by left.
  - assert (Hx : x ∈ l2) by (apply Hel; by left).
    apply list_elem_of_split in Hx as (a & b & ->).
    apply list.NoDup_cons in H1 as [Hx1 H1].
    destruct a as [|y a].
    + simpl in *. apply list.NoDup_cons in H2 as [Hx2 H2]. f_equal.
      apply IH; try done.
      * intros z. split; intros Hz.
        -- assert (Hz' : z ∈ x :: b) by (apply Hel; by right).
           apply elem_of_cons in Hz' as [->|Hz']; done.
        -- assert (Hz' : z ∈ x :: l1) by (apply Hel; by right).
           apply elem_of_cons in Hz' as [->|Hz']; done.
      * intros u v Hb. apply O1, before_cons. by right.
      * intros u v Hb. apply O2, before_cons. by right.
    + exfalso. simpl in H2. apply list.NoDup_cons in H2 as [Hy2 H2].
      assert (Hyx : y <> x).
      { intros ->. apply Hy2, elem_of_app. right. by left. }
      assert (Hy : y ∈ l1).
      { assert (Hy' : y ∈ x :: l1) by (apply Hel; by left).
        apply elem_of_cons in Hy' as [->|Hy']; done. }
      apply (occursFirst_asym lines x y).
      * apply O1, before_cons. by left.
      * apply O2. simpl. apply before_cons. left. split; [done |].
        apply elem_of_app. right. by left.
Qed.

(** X10. The added lines of [generateDiffSummary] are the non-blank lines
    of the new content that are no line of the old content, each once, in
    the order of their first occurrence in the new content, and no other
    list is that; [linesAdded] is their number and [addedPreview] the first
    five of them. *)
Theorem summary_added_lines (oldContent newContent : str) :
  let r := generateDiffSummary oldContent newContent in
  let lines := splitOn LF newContent in
  let isAdded := fun l => l ∈ lines /\ isBlank l = false /\ (l ∉ splitOn LF oldContent) in
  exists added,
    linesAdded r = length added /\
    addedPreview r = take 5 added /\
    NoDup added /\
    sublist added lines /\
    (forall l, l ∈ added <-> isAdded l) /\
    inOrderOfFirstOccurrence lines added /\
    forall other,
      NoDup other -> (forall l, l ∈ other <-> isAdded l) ->
      inOrderOfFirstOccurrence lines other ->
      other = added.
Proof.
  cbv zeta. unfold generateDiffSummary. cbn [linesAdded addedPreview].
  set (oldLines := setOf (nonBlankLines oldContent)).
  set (newLines := setOf (nonBlankLines newContent)).
  assert (Hnd : NoDup (onlyIn newLines oldLines)).
  { unfold onlyIn. apply NoDup_ListNoDup, List.NoDup_filter, NoDup_ListNoDup, setOf_NoDup. }
  assert (Hel : forall l, l ∈ onlyIn newLines oldLines <->
            l ∈ splitOn LF newContent /\ isBlank l = false /\ l ∉ splitOn LF oldContent).
  { intros l. rewrite onlyIn_elem. unfold newLines, oldLines.
    rewrite !setOf_elem, !nonBlankLines_elem. split.
    - intros [[Hl Hb] Hn]. repeat split; try done. intros Ho. by apply Hn.
    - intros (Hl & Hb & Hn). split; [done |]. intros [Ho _]. done. }
  assert (Hord : inOrderOfFirstOccurrence (splitOn LF newContent) (onlyIn newLines oldLines)).
  { intros x y Hb.
    assert (Hy : y ∈ onlyIn newLines oldLines) by (by apply before_elem in Hb as [_ Hy]).
    apply Hel in Hy as (_ & Hy & _).
    unfold onlyIn in Hb. apply before_filter in Hb. unfold newLines in Hb.
    apply setOf_order in Hb. unfold nonBlankLines in Hb.
    apply occursFirst_filter in Hb; [done |]. by rewrite truthy_trim, Hy. }
  exists (onlyIn newLines oldLines). split; [done |]. split; [done |].
  split; [done |]. split; [|split; [done |split; [done |]]].
  - unfold onlyIn. etrans; [apply filter_sublist |]. unfold newLines.
    etrans; [apply setOf_sublist |]. unfold nonBlankLines. apply filter_sublist.
  - intros other Hn Ho Hoo. apply (first_occurrence_unique (splitOn LF newContent)); try done.
    intros z. by rewrite Ho, Hel.
Qed.

(** The lines a, b, a: the added lines are a, b, in that order. *)
Example summary_order_example :
  addedPreview (generateDiffSummary [] (lit "a" ++ [LF] ++ lit "b" ++ [LF] ++ lit "a")) =
  [lit "a"; lit "b"].
Proof. vm_compute. reflexivity. Qed.

(** ** The line diff *)

Lemma join_cons sep x y l : join sep (x :: y :: l) = x ++ sep ++ join sep (y :: l).
Proof. done. Qed.

Lemma join_app sep l1 l2 :
  l1 <> [] -> l2 <> [] -> join sep (l1 ++ l2) = join sep l1 ++ sep ++ join sep l2.
Proof.
  intros H1 H2. induction l1 as [|x l1 IH]; [done |].
  destruct l1 as [|y l1].
  - destruct l2 as [|z l2]; [done |]. done.
  - change ((x :: y :: l1) ++ l2) with (x :: y :: (l1 ++ l2)).
    rewrite !join_cons. change (y :: l1 ++ l2) with ((y :: l1) ++ l2).
    rewrite IH by done. by rewrite <- !app_assoc.
Qed.

Lemma fold_changes (f : nat -> list str) (l : list nat) : forall acc,
  fold_left (fun changes i => changes ++ f i) l acc = acc ++ flat_map f l.
Proof.
  induction l as [|i l IH]; intros acc; [by rewrite app_nil_r |].
  cbn [fold_left flat_map]. by rewrite IH, <- app_assoc.
Qed.

Lemma changesAt_nil oldLines newLines i :
  Unified.changesAt oldLines newLines i = [] <->
  Unified.lineAt oldLines i = Unified.lineAt newLines i.
Proof.
  unfold Unified.changesAt. cbv zeta. case_bool_decide as H.
  - split; [|done]. intros E.
    destruct (Unified.lineAt oldLines i) as [|c r]; [|done].
    destruct (Unified.lineAt newLines i) as [|d r']; [done | done].
  - split; [|done]. intros _.
    destruct (decide (Unified.lineAt oldLines i = Unified.lineAt newLines i)); [done |].
    by destruct H.
Qed.

Lemma flat_map_nil {A B} (f : A -> list B) (l : list A) :
  flat_map f l = [] <-> forall x, x ∈ l -> f x = [].
Proof.
  induction l as [|a l IH]; simpl.
  - split; [intros _ x Hx; by apply elem_of_nil in Hx | done].
  - split.
    + intros [Ha Hl]%app_eq_nil x Hx. apply elem_of_cons in Hx as [->|Hx]; [done |].
      by apply IH.
    + intros H. rewrite (H a) by (by left). apply IH. intros x Hx. apply H. by right.
Qed.

(** X11. The line diff of the first version of [monitor.js] is its two
    header lines and nothing else exactly when the two contents agree line
    by line, a missing line counting as an empty one. *)
Theorem line_diff_silent (oldContent newContent : str) :
  Unified.generateDiff oldContent newContent = join [LF] Unified.header <->
  forall i, Unified.lineAt (splitOn LF oldContent) i =
            Unified.lineAt (splitOn LF newContent) i.
Proof.
  unfold Unified.generateDiff. cbv zeta. rewrite fold_changes. cbn [app].
  set (oldLines := splitOn LF oldContent). set (newLines := splitOn LF newContent).
  set (changes := flat_map _ _).
  assert (Hch : changes = [] <->
                forall i, Unified.lineAt oldLines i = Unified.lineAt newLines i).
  { unfold changes. rewrite flat_map_nil. split.
    - intros H i. destruct (decide (i < max (length oldLines) (length newLines))) as [Hi|Hi].
      + apply changesAt_nil, H, elem_of_seq. lia.
      + unfold Unified.lineAt. rewrite !lookup_ge_None_2 by lia. done.
    - intros H i _. by apply changesAt_nil. }
  rewrite <- Hch. split.
  - intros H. destruct changes as [|c cs]; [done |]. exfalso.
    change (Unified.header ++ c :: cs) with (Unified.header ++ (c :: cs)) in H.
    rewrite join_app in H by done.
    rewrite <- (app_nil_r (join [LF] Unified.header)) in H at 2.
    apply app_inv_head in H. done.
  - intros ->. by rewrite app_nil_r.
Qed.

(** ** The order of strings *)

Lemma code_inj x y : code x = code y -> x = y.
Proof.
  unfold code. intros H. rewrite <- (ascii_nat_embedding x), <- (ascii_nat_embedding y).
  by rewrite H.
Qed.

Lemma strCompare_refl a : strCompare a a = Eq.
Proof. induction a as [|x a IH]; [done |]. simpl. by rewrite Nat.compare_refl. Qed.

Lemma strCompare_eq a : forall b, strCompare a b = Eq -> a = b.
Proof.
  induction a as [|x a IH]; intros [|y b]; try done. simpl.
  destruct (code x ?= code y) eqn:E; try done.
  apply Nat.compare_eq in E. apply code_inj in E as ->. intros H. f_equal. by apply IH.
Qed.







(** ** Sorting *)

Section Sorting.

Context {A : Type}.
Variable key : A -> str.








End Sorting.

(** ** One snapshot per day *)











(** ** Timestamps *)

(** X13. [formatTimestamp] keeps the order of the timestamps: two Wayback
    timestamps of 14 characters compare, as formatted strings, the way they
    compare themselves.  In particular different timestamps have different
    formatted forms. *)
Theorem formatTimestamp_keeps_order (a b : str) :
  length a = 14 -> length b = 14 ->
  strCompare (formatTimestamp a) (formatTimestamp b) = strCompare a b /\
  (formatTimestamp a = formatTimestamp b -> a = b).
Proof.
  intros Ha Hb.
  assert (H : strCompare (formatTimestamp a) (formatTimestamp b) = strCompare a b).
  { do 15 (destruct a as [|? a]; try discriminate Ha).
    do 15 (destruct b as [|? b]; try discriminate Hb).
    cbn -[code Nat.compare]. rewrite !Nat.compare_refl.
    repeat (destruct (code _ ?= code _); try reflexivity). }
  split; [done |]. intros E. apply strCompare_eq. rewrite <- H, E. apply strCompare_refl.
Qed.

Lemma formatTimestamp_keeps_order_witness :
  strCompare (formatTimestamp (lit "20250312081500")) (formatTimestamp (lit "20250401000000"))
  = strCompare (lit "20250312081500") (lit "20250401000000").
Proof.
  apply (proj1 (formatTimestamp_keeps_order (lit "20250312081500") (lit "20250401000000")
                  eq_refl eq_refl)).
Defined.

Lemma safeTimestamp_app a b : safeTimestamp (a ++ b) = safeTimestamp a ++ safeTimestamp b.
Proof. unfold safeTimestamp. by rewrite !replaceAll_app. Qed.

Lemma safeTimestamp_char c :
  forallb (fun x => negb (Ascii.eqb x ":") && negb (Ascii.eqb x " ")) (safeTimestamp [c]) = true.
Proof. destruct c as [[] [] [] [] [] [] [] []]; reflexivity. Qed.

(** X14. A file-name timestamp ([safeTimestamp] in [saveVersion] and
    [runMonitor], [formatTimestampForFile] in [backfill.js]) holds no colon
    and no space, whatever the timestamp. *)
Theorem safeTimestamp_is_file_safe (timestamp : str) :
  Forall (fun c => c <> ":"%char /\ c <> " "%char) (safeTimestamp timestamp).
Proof.
  induction timestamp as [|c t IH]; [constructor |].
  change (c :: t) with ([c] ++ t). rewrite safeTimestamp_app.
  apply Forall_app. split; [|done].
  pose proof (safeTimestamp_char c) as H. rewrite forallb_forall in H.
  apply List.Forall_forall. intros x Hx. apply H in Hx.
  apply andb_true_iff in Hx as [H1 H2].
  apply negb_true_iff, Ascii.eqb_neq in H1. apply negb_true_iff, Ascii.eqb_neq in H2.
  done.
Qed.

Lemma digit_not_T c : isDigit c = true -> Ascii.eqb "T" c = false.
Proof. by_cases_on_char c. Qed.

(** X15. [runMonitor] and [backfill] write timestamps of one layout: for
    the ISO string of an instant, the timestamp of [runMonitor] is what
    [formatTimestamp] gives for the 14 digits of that instant, and the
    file-name forms agree as well. *)
Theorem monitor_and_backfill_timestamps_agree (year month day hour min sec ms : str) :
  digits 4 year -> digits 2 month -> digits 2 day ->
  digits 2 hour -> digits 2 min -> digits 2 sec -> digits 3 ms ->
  let iso := isoString year month day hour min sec ms in
  let ts := year ++ month ++ day ++ hour ++ min ++ sec in
  monitorTimestamp iso = formatTimestamp ts /\
  safeTimestamp (monitorTimestamp iso) = formatTimestampForFile ts.
Proof.
  intros [Hy Dy] [Hm Dm] [Hd Dd] [Hh Dh] [Hmi Dmi] [Hs Ds] [Hms Dms]. cbv zeta.
  assert (E : monitorTimestamp (isoString year month day hour min sec ms) =
              formatTimestamp (year ++ month ++ day ++ hour ++ min ++ sec)).
  { do 5 (destruct year as [|? year]; try discriminate Hy).
    do 3 (destruct month as [|? month]; try discriminate Hm).
    do 3 (destruct day as [|? day]; try discriminate Hd).
    do 3 (destruct hour as [|? hour]; try discriminate Hh).
    do 3 (destruct min as [|? min]; try discriminate Hmi).
    do 3 (destruct sec as [|? sec]; try discriminate Hs).
    do 4 (destruct ms as [|? ms]; try discriminate Hms).
    cbn [forallb] in *.
    repeat match goal with
           | H : _ && _ = true |- _ => apply andb_true_iff in H as [? ?]
           end.
    unfold monitorTimestamp, isoString.
    cbn [app lit String.list_ascii_of_string replaceFirst prefixb length drop].
    repeat match goal with
           | H : isDigit ?c = true |- _ => rewrite (digit_not_T c H)
           end.
    cbn -[isDigit].
    repeat match goal with
           | H : isDigit _ = true |- _ => rewrite H
           end.
    reflexivity. }
  split; [done |]. unfold formatTimestampForFile. by rewrite E.
Qed.

Lemma monitor_and_backfill_timestamps_agree_witness :
  monitorTimestamp (lit "2026-01-29T07:05:09.123Z") = lit "2026-01-29 07:05:09 UTC" /\
  safeTimestamp (monitorTimestamp (lit "2026-01-29T07:05:09.123Z")) =
    lit "2026-01-29_07-05-09_UTC".
Proof.
  apply (monitor_and_backfill_timestamps_agree
           (lit "2026") (lit "01") (lit "29") (lit "07") (lit "05") (lit "09") (lit "123"));
    split; reflexivity.
Defined.

(** ** File names *)

Lemma txt_no_straddle c p :
  prefixb (lit ".txt") (c :: p) = false ->
  prefixb (lit ".txt") (c :: p ++ lit ".txt") = false.
Proof.
  change (lit ".txt") with ["."; "t"; "x"; "t"]%char.
  destruct p as [|x [|y [|z r]]]; cbn [prefixb app]; intros H.
  - destruct (Ascii.eqb "." c); [|done]. reflexivity.
  - destruct (Ascii.eqb "." c); [|done]. destruct (Ascii.eqb "t" x); [|done]. reflexivity.
  - destruct (Ascii.eqb "." c); [|done]. destruct (Ascii.eqb "t" x); [|done].
    destruct (Ascii.eqb "x" y); [|done]. reflexivity.
  - done.
Qed.

Lemma replaceFirst_txt p :
  includes (lit ".txt") p = false ->
  replaceFirst (lit ".txt") (lit ".diff") (p ++ lit ".txt") = p ++ lit ".diff".
Proof.
  induction p as [|c p IH]; [done |].
  cbn [includes]. intros [Hc Hp]%orb_false_iff.
  change ((c :: p) ++ lit ".txt") with (c :: p ++ lit ".txt").
  cbn [replaceFirst]. rewrite (txt_no_straddle c p Hc).
  change ((c :: p) ++ lit ".diff") with (c :: p ++ lit ".diff").
  f_equal. by apply IH.
Qed.

(** X16. [getDiff] looks for the diff of a version under the name that
    [runMonitor] and [backfill] gave it: when [.txt] does not occur in the
    timestamp and hash part of the version file name, replacing the first
    [.txt] of that name by [.diff] gives the name of the diff file. *)
Theorem getDiff_finds_the_diff_file (safe hash : str) :
  includes (lit ".txt") (safe ++ lit "_" ++ hash) = false ->
  diffNameOf (versionFileName safe hash) = diffFileName safe hash.
Proof.
  intros H. unfold diffNameOf, versionFileName, diffFileName.
  rewrite !(app_assoc safe), !(app_assoc (safe ++ _)).
  rewrite replaceFirst_txt; [done |]. by rewrite <- app_assoc.
Qed.

Lemma getDiff_finds_the_diff_file_witness :
  diffNameOf (versionFileName (lit "2026-01-29_07-05-09_UTC") (lit "0a1b2c3d4e5f")) =
  lit "2026-01-29_07-05-09_UTC_0a1b2c3d4e5f.diff".
Proof.
  apply (getDiff_finds_the_diff_file (lit "2026-01-29_07-05-09_UTC") (lit "0a1b2c3d4e5f")).
  reflexivity.
Defined.

Example showNat_example :
  showNat 0 = lit "0" /\ showNat 7 = lit "7" /\ showNat 120 = lit "120".
Proof. repeat split; reflexivity. Qed.

Example changelogEntry_example :
  changelogEntry (lit "T") (lit "h")
    {| linesAdded := 1; linesRemoved := 0; addedPreview := [lit "x"]; removedPreview := [] |}
    None =
  [LF] ++ lit "## T" ++ [LF; LF] ++ lit "**Version:** `h`" ++ [LF; LF] ++
  lit "### Statistics" ++ [LF] ++ lit "- Lines added: 1" ++ [LF] ++
  lit "- Lines removed: 0" ++ [LF; LF] ++
  lit "### Sample of additions" ++ [LF] ++ lit "> x" ++ [LF; LF] ++ lit "---" ++ [LF].
Proof. reflexivity. Qed.

(** The number itself is fuel enough for its digits. *)
Lemma showFrom_enough f1 : forall f2 n acc,
  n <= f1 -> n <= f2 -> showFrom f1 n acc = showFrom f2 n acc.
Proof.
  induction f1 as [|f1 IH]; intros [|f2] n acc H1 H2; try done.
  - assert (n = 0) as -> by lia. done.
  - assert (n = 0) as -> by lia. done.
  - cbn [showFrom]. destruct (n <? 10) eqn:E; [done |].
    apply Nat.ltb_ge in E.
    assert (n / 10 < n) by (apply Nat.div_lt; lia).
    apply IH; lia.
Qed.

(** ** Splitting at a separator *)

Lemma prefixb_spec pat : forall s,
  prefixb pat s = true -> s = pat ++ drop (length pat) s.
Proof.
  induction pat as [|p pat IH]; intros [|c s]; try done. simpl.
  intros [Hc Hs]%andb_true_iff. apply Ascii.eqb_eq in Hc as ->. f_equal. by apply IH.
Qed.

Lemma prefixb_app pat s : prefixb pat (pat ++ s) = true.
Proof. induction pat as [|p pat IH]; [done |]. simpl. by rewrite Ascii.eqb_refl. Qed.

Lemma cutAt_spec sep : forall s before after,
  cutAt sep s = Some (before, after) ->
  s = before ++ sep ++ after /\
  forall k, k < length before -> prefixb sep (drop k s) = false.
Proof.
  induction s as [|c s IH]; intros before after; simpl.
  - destruct (prefixb sep []) eqn:E; [|done].
    intros [= <- <-]. split; [by apply prefixb_spec in E | simpl; lia].
  - destruct (prefixb sep (c :: s)) eqn:E.
    + intros [= <- <-]. split; [by apply prefixb_spec in E | simpl; lia].
    + destruct (cutAt sep s) as [[b a]|] eqn:Ec; [|done].
      intros [= <- <-]. destruct (IH b a eq_refl) as [Hs Hk].
      split; [simpl; by f_equal |].
      intros [|k] Hlt; [done |]. simpl in *. apply Hk. lia.
Qed.

Lemma cutAt_includes sep s : includes sep s = true <-> cutAt sep s <> None.
Proof.
  induction s as [|c s IH]; simpl.
  - rewrite orb_false_r. by destruct (prefixb sep []).
  - destruct (prefixb sep (c :: s)); simpl; [done |].
    rewrite IH. by destruct (cutAt sep s) as [[b a]|].
Qed.

Lemma join_splitFuel sep fuel : forall s, join sep (splitFuel fuel sep s) = s.
Proof.
  induction fuel as [|fuel IH]; intros s; [done |]. simpl.
  destruct (cutAt sep s) as [[b a]|] eqn:E; [|done].
  apply cutAt_spec in E as [-> _].
  specialize (IH a). destruct (splitFuel fuel sep a) as [|x l] eqn:El.
  - by destruct fuel; simpl in El; [|destruct (cutAt sep a) as [[]|]].
  - change (join sep (b :: x :: l)) with (b ++ sep ++ join sep (x :: l)). by rewrite IH.
Qed.

(** The length of the string is fuel enough. *)
Lemma splitFuel_enough sep : sep <> [] -> forall f1 f2 s,
  length s <= f1 -> length s <= f2 -> splitFuel f1 sep s = splitFuel f2 sep s.
Proof.
  intros Hsep. induction f1 as [|f1 IH]; intros f2 s H1 H2.
  - destruct s; [|simpl in H1; lia]. destruct f2; [done |]. simpl.
    destruct sep; [done |]. done.
  - destruct f2 as [|f2].
    + destruct s; [|simpl in H2; lia]. simpl. destruct sep; [done |]. done.
    + simpl. destruct (cutAt sep s) as [[b a]|] eqn:E; [|done].
      f_equal. apply cutAt_spec in E as [-> _].
      rewrite !length_app in H1, H2.
      assert (0 < length sep) by (destruct sep; [done | simpl; lia]).
      apply IH; lia.
Qed.

(** X17. [updateChangelog] loses nothing of a changelog that holds a
    separator: the new content is the old one with a line feed and the new
    entry put right after the first [---].  A changelog without a separator
    (or an unreadable one) is replaced by the header and the entry. *)
Theorem changelog_insertion (existing entry : str) :
  (includes (lit "---") existing = true ->
   exists before after,
     existing = before ++ lit "---" ++ after /\
     (forall k, k < length before -> prefixb (lit "---") (drop k existing) = false) /\
     insertEntry existing entry = before ++ lit "---" ++ [LF] ++ entry ++ after) /\
  (includes (lit "---") existing = false ->
   insertEntry existing entry = changelogHeader ++ entry).
Proof.
  unfold insertEntry. split.
  - intros Hinc. rewrite Hinc.
    assert (Hne : truthy existing = true) by (by destruct existing).
    rewrite Hne. cbn [andb]. cbv zeta.
    apply cutAt_includes in Hinc as Hcut.
    destruct (cutAt (lit "---") existing) as [[before after]|] eqn:E; [|done].
    exists before, after. destruct (cutAt_spec _ _ _ _ E) as [Hs Hk].
    split; [done |]. split; [done |].
    unfold splitStr. destruct (length existing) as [|n] eqn:El.
    { by destruct existing. }
    cbn [splitFuel]. rewrite E. unfold firstPart. cbn [head default].
    rewrite skipn_cons, drop_0, join_splitFuel. by rewrite <- !app_assoc.
  - intros ->. by rewrite andb_false_r.
Qed.

Lemma changelog_insertion_witness :
  exists before after,
    lit "# Log---old" = before ++ lit "---" ++ after /\
    (forall k, k < length before -> prefixb (lit "---") (drop k (lit "# Log---old")) = false) /\
    insertEntry (lit "# Log---old") (lit "new") = before ++ lit "---" ++ [LF] ++ lit "new" ++ after.
Proof.
  apply (proj1 (changelog_insertion (lit "# Log---old") (lit "new"))). reflexivity.
Defined.

(** ** The samples of a changelog entry *)

Lemma sampleFold (quote : str -> str) (lines : list str) : forall entry : str,
  Forall (fun l => isBlank l = false) lines ->
  fold_left (fun entry line =>
               if truthy (trim line) then entry ++ quote (previewOf line) else entry)
    lines entry =
  entry ++ concat ((fun l => quote (previewOf l)) <$> lines).
Proof.
  induction lines as [|l lines IH]; intros entry H; [by rewrite app_nil_r |].
  inversion H as [|? ? Hl Hrest]; subst. cbn [fold_left].
  rewrite truthy_trim, Hl. cbn [negb]. rewrite IH by done.
  rewrite fmap_cons. cbn [concat]. by rewrite <- app_assoc.
Qed.

Lemma previewOf_length line : length (previewOf line) <= 203.
Proof.
  unfold previewOf. destruct (200 <? length line) eqn:E.
  - rewrite length_app, length_take. change (length (lit "...")) with 3. lia.
  - apply Nat.ltb_ge in E. lia.
Qed.

Lemma onlyIn_not_blank content others :
  Forall (fun l => isBlank l = false) (onlyIn (setOf (nonBlankLines content)) others).
Proof.
  apply list.Forall_forall. intros l Hl.
  apply onlyIn_elem in Hl as [Hl _]. apply setOf_elem, nonBlankLines_elem in Hl as [_ Hl].
  done.
Qed.

(** X18. In a changelog entry built from a summary of
    [generateDiffSummary], the test for blank lines never skips a line: the
    sample shows the first three preview lines, or all of them if there are
    fewer, each cut to at most 200 characters and an ellipsis. *)
Theorem samples_of_a_summary (quote : str -> str) (oldContent newContent : str) :
  let r := generateDiffSummary oldContent newContent in
  let shown := take 3 (addedPreview r) in
  sampleLines quote (addedPreview r) = concat ((fun l => quote (previewOf l)) <$> shown) /\
  length shown = min 3 (linesAdded r) /\
  Forall (fun l => length (previewOf l) <= 203) shown.
Proof.
  cbv zeta. unfold generateDiffSummary. cbn [addedPreview linesAdded].
  set (added := onlyIn _ _).
  assert (Hnb : Forall (fun l => isBlank l = false) added) by apply onlyIn_not_blank.
  split; [|split].
  - unfold sampleLines. rewrite sampleFold; [done |].
    by apply Forall_take, Forall_take.
  - rewrite !length_take. lia.
  - apply list.Forall_forall. intros l _. apply previewOf_length.
Qed.

(** ** The historical section *)

Lemma prefixb_app_l pat a b : prefixb pat a = true -> prefixb pat (a ++ b) = true.
Proof.
  revert a. induction pat as [|p pat IH]; intros [|c a]; try done. simpl.
  intros [Hc Ha]%andb_true_iff. rewrite Hc. by apply IH.
Qed.

Lemma includes_app_l pat a b : includes pat a = true -> includes pat (a ++ b) = true.
Proof.
  induction a as [|c a IH].
  - simpl. rewrite orb_false_r. intros H. destruct pat; [|done]. by destruct b.
  - cbn [includes]. intros [H|H]%orb_true_iff.
    + change ((c :: a) ++ b) with (c :: a ++ b). cbn [includes].
      change (c :: a ++ b) with ((c :: a) ++ b). by rewrite (prefixb_app_l _ _ _ H).
    + change ((c :: a) ++ b) with (c :: a ++ b). cbn [includes].
      rewrite (IH H). apply orb_true_r.
Qed.

Lemma includes_app_r pat a b : includes pat b = true -> includes pat (a ++ b) = true.
Proof.
  intros H. induction a as [|c a IH]; [done |].
  change ((c :: a) ++ b) with (c :: a ++ b). cbn [includes]. rewrite IH. apply orb_true_r.
Qed.

Lemma includes_here pat rest : includes pat (pat ++ rest) = true.
Proof.
  destruct (pat ++ rest) eqn:E; simpl.
  - destruct pat; [done | done].
  - rewrite <- E, prefixb_app. done.
Qed.

Lemma historicalFold changes : forall start,
  exists rest, fold_left (fun entries change => entries ++ archivedEntry change)
                 changes start = start ++ rest.
Proof.
  induction changes as [|c changes IH]; intros start.
  - exists []. by rewrite app_nil_r.
  - cbn [fold_left]. destruct (IH (start ++ archivedEntry c)) as [rest ->].
    exists (archivedEntry c ++ rest). by rewrite <- app_assoc.
Qed.

Lemma historicalEntries_marks changes initialVersion :
  includes historicalTitle (historicalEntries changes initialVersion) = true /\
  includes (lit "---") (historicalEntries changes initialVersion) = true.
Proof.
  unfold historicalEntries. cbv zeta.
  destruct (historicalFold changes
              (([LF] ++ lit "## " ++ historicalTitle ++ [LF; LF] ++
                lit "The following changes were detected by analyzing archived snapshots." ++
                [LF; LF] ++ lit "---" ++ [LF]) ++
               ([LF] ++ lit "## " ++ Version.timestamp initialVersion ++
                lit " (Initial - Archived)" ++ [LF; LF] ++
                lit "**Version:** `" ++ Version.hash initialVersion ++ lit "`" ++ [LF; LF] ++
                lit "First archived snapshot of the constitution." ++ [LF; LF] ++
                lit "---" ++ [LF]))) as [rest ->].
  split.
  - apply includes_app_l, includes_app_l.
    apply (includes_app_r _ [LF]), (includes_app_r _ (lit "## ")), includes_here.
  - apply includes_app_l, includes_app_l.
    do 6 apply includes_app_r. apply includes_here.
Qed.

(** X19. [updateChangelogWithHistory] writes the historical section at
    most once: after one call, whatever it did, every further call returns
    without writing. *)
Theorem historical_section_written_once
    (file : option str)
    (changes changes' : list Change.change) (initialVersion initialVersion' : Version.version) :
  let after := written file (updateChangelogWithHistory file changes initialVersion) in
  updateChangelogWithHistory after changes' initialVersion' = None.
Proof.
  cbv zeta. unfold updateChangelogWithHistory at 2. cbv zeta.
  destruct (historicalEntries_marks changes initialVersion) as [Ht Hs].
  set (entries := historicalEntries changes initialVersion) in *.
  assert (Hdone : forall content,
             includes historicalTitle content = true ->
             includes (lit "---") content = true ->
             updateChangelogWithHistory (Some content) changes' initialVersion' = None).
  { intros content H1 H2. unfold updateChangelogWithHistory. cbv zeta.
    change (default [] (Some content)) with content.
    assert (Hne : truthy content = true) by (by destruct content).
    by rewrite Hne, H1, H2. }
  destruct (truthy (default [] file) && includes (lit "---") (default [] file)) eqn:Hc.
  - destruct (includes historicalTitle (default [] file)) eqn:Hh.
    + cbn [written]. apply andb_true_iff in Hc as [Hne Hi].
      destruct file as [content|]; [|done]. by apply Hdone.
    + cbn [written]. apply Hdone.
      * apply includes_app_r, includes_app_l. done.
      * apply includes_app_r, includes_app_l. done.
  - cbn [written]. apply Hdone; by apply includes_app_r.
Qed.

(** ** The versions of the metadata *)





(** ** The pieces of a split *)

Lemma splitStep_prepend sep d st c :
  splitStep sep (prependPieces d st) c = prependPieces d (splitStep sep st c).
Proof.
  unfold splitStep, prependPieces. destruct (Ascii.eqb c sep); cbn [sdone scur]; [|done].
  by rewrite app_assoc.
Qed.

Lemma splitFold_prepend sep d s : forall st,
  fold_left (splitStep sep) s (prependPieces d st) =
  prependPieces d (fold_left (splitStep sep) s st).
Proof.
  induction s as [|c s IH]; intros st; [done |].
  cbn [fold_left]. by rewrite splitStep_prepend, IH.
Qed.

Lemma splitFold_plain sep a : forall st,
  sep ∉ a ->
  fold_left (splitStep sep) a st = {| sdone := sdone st; scur := scur st ++ a |}.
Proof.
  induction a as [|c a IH]; intros st Hn.
  - rewrite app_nil_r. by destruct st.
  - apply not_elem_of_cons in Hn as [Hc Ha]. cbn [fold_left]. unfold splitStep at 2.
    assert (E : Ascii.eqb c sep = false) by (apply Ascii.eqb_neq; congruence).
    rewrite E, IH by done. cbn [sdone scur]. by rewrite <- app_assoc.
Qed.

Lemma splitOn_plain sep a : sep ∉ a -> splitOn sep a = [a].
Proof. intros H. unfold splitOn. by rewrite splitFold_plain. Qed.

Lemma splitOn_cut sep a rest :
  sep ∉ a -> splitOn sep (a ++ sep :: rest) = a :: splitOn sep rest.
Proof.
  intros H. unfold splitOn. rewrite fold_left_app, (splitFold_plain sep a) by done.
  cbn [fold_left sdone scur app].
  assert (E : splitStep sep {| sdone := []; scur := a |} sep =
              prependPieces [a] {| sdone := []; scur := [] |}).
  { unfold splitStep. rewrite Ascii.eqb_refl. done. }
  rewrite E, splitFold_prepend. cbn [prependPieces sdone scur]. by rewrite <- app_assoc.
Qed.

Lemma trim_elem c s : c ∈ trim s -> c ∈ s.
Proof.
  assert (Hs : forall x, In c (trimStart x) -> In c x).
  { induction x as [|d x IH]; [done |]. simpl. destruct (isSpace d); [|done].
    intros H. right. by apply IH. }
  rewrite !list_elem_of_In. unfold trim, trimEnd. intros H.
  apply in_rev, Hs, in_rev in H. by apply Hs.
Qed.

(** ** Runs of the monitor *)

Lemma latest_after_save content timestamp versionHash d :
  getLatestVersion (saveVersion content timestamp versionHash d) = Some content.
Proof.
  unfold getLatestVersion, saveVersion, saveMetadata, write. cbn [texts].
  destruct (decide (versionFileName (safeTimestamp timestamp) versionHash = lit "latest.txt"))
    as [E|E].
  - rewrite E. apply lookup_insert_eq.
  - rewrite lookup_insert_ne by done. apply lookup_insert_eq.
Qed.

Lemma latest_writeChangelog content d :
  getLatestVersion (writeChangelog content d) = getLatestVersion d.
Proof. done. Qed.

Lemma run_latest (getContentHash : str -> str) (diffText : str -> str -> str)
    (summaryOf : str -> option str) content iso d :
  content <> [] ->
  exists prev,
    getLatestVersion (fst (runMonitor getContentHash diffText summaryOf content iso d))
      = Some prev /\
    prev <> [] /\ getContentHash content = getContentHash prev.
Proof.
  intros Hne. unfold runMonitor. cbv zeta.
  destruct (getLatestVersion d) as [[|c p]|] eqn:Hl.
  - exists content. cbn [fst]. by rewrite latest_writeChangelog, latest_after_save.
  - destruct (bool_decide (getContentHash content = getContentHash (c :: p))) eqn:Hb.
    + apply bool_decide_eq_true in Hb. exists (c :: p). done.
    + exists content. cbn [fst]. by rewrite latest_writeChangelog, latest_after_save.
  - exists content. cbn [fst]. by rewrite latest_writeChangelog, latest_after_save.
Qed.

(** X23. A second run that fetches the same content writes nothing: after
    any run of the monitor that fetched a non-empty content, a run that
    fetches that content again leaves every file as it is and reports no
    change. *)
Theorem second_run_changes_nothing
    (getContentHash : str -> str) (diffText : str -> str -> str)
    (summaryOf : str -> option str) (content iso iso' : str) (d : disk) :
  content <> [] ->
  let d1 := fst (runMonitor getContentHash diffText summaryOf content iso d) in
  runMonitor getContentHash diffText summaryOf content iso' d1 =
  (d1, NoChange (getContentHash content)).
Proof.
  intros Hne d1.
  destruct (run_latest getContentHash diffText summaryOf content iso d Hne)
    as (prev & Hl & Hp & Hh).
  fold d1 in Hl. clearbody d1. unfold runMonitor. cbv zeta. rewrite Hl.
  destruct prev as [|c p]; [done |]. by rewrite bool_decide_eq_true_2.
Qed.

Lemma second_run_changes_nothing_witness :
  runMonitor (take 12) (fun _ _ => []) (fun _ => None) (lit "Text.")
    (lit "2026-02-01T06:00:00.000Z")
    (fst (runMonitor (take 12) (fun _ _ => []) (fun _ => None) (lit "Text.")
            (lit "2026-01-31T06:00:00.000Z") emptyDisk)) =
  (fst (runMonitor (take 12) (fun _ _ => []) (fun _ => None) (lit "Text.")
          (lit "2026-01-31T06:00:00.000Z") emptyDisk),
   NoChange (lit "Text.")).
Proof.
  apply (second_run_changes_nothing (take 12) (fun _ _ => []) (fun _ => None)
           (lit "Text.") (lit "2026-01-31T06:00:00.000Z") (lit "2026-02-01T06:00:00.000Z")
           emptyDisk).
  discriminate.
Defined.

(** ** What a run stores *)

Lemma diff_not_txt (a b : str) : a ++ lit ".diff" <> b ++ lit ".txt".
Proof.
  intros H. apply (f_equal (@rev ascii)) in H. rewrite !rev_app_distr in H.
  discriminate H.
Qed.

Lemma diffNameOf_versionFile safe hash :
  includes (lit ".txt") (safe ++ lit "_" ++ hash) = false ->
  diffNameOf (versionFileName safe hash) = diffFileName safe hash.
Proof.
  intros H. unfold diffNameOf, versionFileName, diffFileName.
  rewrite !(app_assoc safe), !(app_assoc (safe ++ _)).
  rewrite replaceFirst_txt; [done |]. by rewrite <- app_assoc.
Qed.

Lemma findIndex_last (hash : str) (old : list Version.version) v :
  (forall x, x ∈ old -> Version.hash x <> hash) -> Version.hash v = hash ->
  forall i, findIndex hash i (old ++ [v]) = Some (i + length old).
Proof.
  intros Hold Hv. induction old as [|x old IH]; intros i.
  - cbn. rewrite bool_decide_eq_true_2 by done. f_equal. lia.
  - cbn. rewrite bool_decide_eq_false_2 by (apply Hold; apply elem_of_cons; by left).
    rewrite IH by (intros y Hy; apply Hold; apply elem_of_cons; by right).
    f_equal. lia.
Qed.

Lemma find_last (hash : str) (old : list Version.version) v :
  (forall x, x ∈ old -> Version.hash x <> hash) -> Version.hash v = hash ->
  List.find (fun x => bool_decide (Version.hash x = hash)) (old ++ [v]) = Some v.
Proof.
  intros Hold Hv. induction old as [|x old IH]; cbn.
  - by rewrite bool_decide_eq_true_2.
  - rewrite bool_decide_eq_false_2 by (apply Hold; apply elem_of_cons; by left).
    apply IH. intros y Hy. apply Hold. apply elem_of_cons. by right.
Qed.

(** X24. What a run that detects a change stores is what the readers
    return.  If the latest version is [previous], the fetched content has
    another hash, no stored version has that hash yet and [.txt] does not
    occur in the timestamp and hash of the file name, then after the run
    the latest version is the fetched content, the list of versions has one
    more entry, at its end, [getVersion] returns that entry with the fetched
    content and [getDiff] returns it with the diff text of the run. *)
Theorem changed_run_is_served
    (diffArrays : (str -> str -> bool) -> list str -> list str -> list part)
    (getContentHash : str -> str) (diffText : str -> str -> str)
    (summaryOf : str -> option str) (content iso previous : str) (d : disk) :
  let hash := getContentHash content in
  let timestamp := monitorTimestamp iso in
  let safe := safeTimestamp timestamp in
  let version := {| Version.timestamp := timestamp;
                    Version.hash := hash;
                    Version.file := versionFileName safe hash;
                    Version.waybackTimestamp := None |} in
  let d' := fst (runMonitor getContentHash diffText summaryOf content iso d) in
  getLatestVersion d = Some previous -> previous <> [] ->
  hash <> getContentHash previous ->
  (forall v, v ∈ getVersions d -> Version.hash v <> hash) ->
  includes (lit ".txt") (safe ++ lit "_" ++ hash) = false ->
  getLatestVersion d' = Some content /\
  getVersions d' = getVersions d ++ [version] /\
  getVersion hash d' = Some (version, content) /\
  getDiff diffArrays hash d' = Some (Stored version (diffText previous content)).
Proof.
  intros hash timestamp safe version d' Hl Hp Hh Hfresh Hname.
  assert (Hd : d' =
    writeChangelog
      (updateChangelog
         (changelog (saveVersion content timestamp hash
                       (write (diffFileName safe hash) (diffText previous content) d)))
         timestamp hash (generateDiffSummary previous content)
         (summaryOf (diffText previous content)))
      (saveVersion content timestamp hash
         (write (diffFileName safe hash) (diffText previous content) d))).
  { unfold d', runMonitor. cbv zeta. rewrite Hl.
    destruct previous as [|c p]; [done |]. fold hash.
    rewrite bool_decide_eq_false_2 by done. done. }
  assert (Hmeta : loadMetadata d' = loadMetadata d ++ [version]).
  { rewrite Hd. done. }
  assert (Hfile : texts d' !! versionFileName safe hash = Some content).
  { rewrite Hd. unfold writeChangelog, saveVersion, saveMetadata, write. cbn [texts].
    apply lookup_insert_eq. }
  assert (Hdiff : texts d' !! diffFileName safe hash = Some (diffText previous content)).
  { rewrite Hd. unfold writeChangelog, saveVersion, saveMetadata, write. cbn [texts].
    rewrite lookup_insert_ne.
    2:{ unfold versionFileName, diffFileName.
        rewrite !(app_assoc safe), !(app_assoc (safe ++ _)).
        intros E. by apply (diff_not_txt _ _ (eq_sym E)). }
    rewrite lookup_insert_ne.
    2:{ unfold diffFileName. rewrite !(app_assoc safe), !(app_assoc (safe ++ _)).
        intros E. by apply (diff_not_txt _ (lit "latest") (eq_sym E)). }
    apply lookup_insert_eq. }
  split; [|split; [|split]].
  - rewrite Hd, latest_writeChangelog. apply latest_after_save.
  - done.
  - unfold getVersion. rewrite Hmeta, (find_last hash (loadMetadata d) version) by done.
    cbn [Version.file version]. by rewrite Hfile.
  - unfold getDiff. cbv zeta. rewrite Hmeta.
    rewrite (findIndex_last hash (loadMetadata d) version) by done. cbn [Nat.add].
    rewrite lookup_app_r, Nat.sub_diag by done. cbn [lookup list_lookup].
    cbn [Version.file version].
    by rewrite (diffNameOf_versionFile safe hash Hname), Hdiff.
Qed.

Lemma changed_run_is_served_witness :
  let d := {| texts := {[ lit "latest.txt" := lit "Old text." ]};
              metadata := None; changelog := None |} in
  let d' := fst (runMonitor (take 12) (fun _ _ => lit "{}") (fun _ => None)
                   (lit "New text.") (lit "2026-02-01T06:00:00.000Z") d) in
  getLatestVersion d' = Some (lit "New text.") /\
  getVersions d' =
    [{| Version.timestamp := lit "2026-02-01 06:00:00 UTC";
        Version.hash := lit "New text.";
        Version.file := lit "2026-02-01_06-00-00_UTC_New text..txt";
        Version.waybackTimestamp := None |}] /\
  getVersion (lit "New text.") d' =
    Some ({| Version.timestamp := lit "2026-02-01 06:00:00 UTC";
             Version.hash := lit "New text.";
             Version.file := lit "2026-02-01_06-00-00_UTC_New text..txt";
             Version.waybackTimestamp := None |}, lit "New text.") /\
  getDiff lcsDiff (lit "New text.") d' =
    Some (Stored {| Version.timestamp := lit "2026-02-01 06:00:00 UTC";
                    Version.hash := lit "New text.";
                    Version.file := lit "2026-02-01_06-00-00_UTC_New text..txt";
                    Version.waybackTimestamp := None |} (lit "{}")).
Proof.
  intros d d'.
  apply (changed_run_is_served lcsDiff (take 12) (fun _ _ => lit "{}") (fun _ => None)
           (lit "New text.") (lit "2026-02-01T06:00:00.000Z") (lit "Old text.") d).
  - reflexivity.
  - discriminate.
  - discriminate.
  - intros v Hv. by apply elem_of_nil in Hv.
  - reflexivity.
Defined.

(** ** A hash that is stored already *)

Lemma find_app_Some {A} (f : A -> bool) (l k : list A) x :
  List.find f l = Some x -> List.find f (l ++ k) = Some x.
Proof.
  induction l as [|y l IH]; [done |]. simpl. destruct (f y); [done | apply IH].
Qed.

(** X25. Saving a version whose hash is listed already does not change
    what [getVersion] returns for that hash: the earlier entry still
    answers, with its own timestamp and the content of its own file
    (a file other than [latest.txt] and the file just written). *)
Theorem earlier_version_answers
    (content timestamp hash : str) (d : disk) (v : Version.version) (stored : str) :
  getVersion hash d = Some (v, stored) ->
  Version.file v <> lit "latest.txt" ->
  Version.file v <> versionFileName (safeTimestamp timestamp) hash ->
  getVersion hash (saveVersion content timestamp hash d) = Some (v, stored).
Proof.
  unfold getVersion. intros Hget Hl Hf.
  destruct (List.find _ (loadMetadata d)) as [w|] eqn:Hfind; [|done].
  destruct (texts d !! Version.file w) as [c|] eqn:Hc; [|done].
  injection Hget as -> ->.
  assert (Hmeta : loadMetadata (saveVersion content timestamp hash d) =
                  loadMetadata d ++
                  [{| Version.timestamp := timestamp; Version.hash := hash;
                      Version.file := versionFileName (safeTimestamp timestamp) hash;
                      Version.waybackTimestamp := None |}]) by done.
  rewrite Hmeta, (find_app_Some _ _ _ _ Hfind).
  unfold saveVersion, saveMetadata, write. cbn [texts].
  rewrite !lookup_insert_ne by done. by rewrite Hc.
Qed.

Lemma earlier_version_answers_witness :
  let first := {| Version.timestamp := lit "2026-01-01 00:00:00 UTC";
                  Version.hash := lit "abc";
                  Version.file := lit "2026-01-01_00-00-00_UTC_abc.txt";
                  Version.waybackTimestamp := None |} in
  let d := {| texts := {[ lit "2026-01-01_00-00-00_UTC_abc.txt" := lit "First." ]};
              metadata := Some [first]; changelog := None |} in
  getVersion (lit "abc") (saveVersion (lit "Again.") (lit "2026-03-01 00:00:00 UTC") (lit "abc") d)
  = Some (first, lit "First.").
Proof.
  intros first d.
  apply (earlier_version_answers (lit "Again.") (lit "2026-03-01 00:00:00 UTC") (lit "abc")
           d first (lit "First.")).
  - reflexivity.
  - discriminate.
  - discriminate.
Defined.

(** ** The versions after any runs *)

Lemma versionFile_not_latest safe hash : versionFileName safe hash <> lit "latest.txt".
Proof.
  intros E.
  assert (H : existsb (Ascii.eqb "_") (versionFileName safe hash) = true).
  { unfold versionFileName. rewrite existsb_app. apply orb_true_iff. right. done. }
  rewrite E in H. discriminate H.
Qed.

Lemma diffFile_not_latest safe hash : diffFileName safe hash <> lit "latest.txt".
Proof.
  unfold diffFileName. rewrite !(app_assoc safe), !(app_assoc (safe ++ _)).
  apply (diff_not_txt _ (lit "latest")).
Qed.

Lemma diffFile_not_versionFile safe hash safe' hash' :
  diffFileName safe hash <> versionFileName safe' hash'.
Proof.
  unfold diffFileName, versionFileName.
  rewrite !(app_assoc safe), !(app_assoc (safe ++ _)).
  rewrite !(app_assoc safe'), !(app_assoc (safe' ++ _)).
  apply diff_not_txt.
Qed.

Lemma versionFile_hash safe hash safe' hash' :
  length hash = length hash' ->
  versionFileName safe hash = versionFileName safe' hash' -> hash = hash'.
Proof.
  unfold versionFileName. intros Hlen E.
  apply (f_equal (@rev ascii)) in E. rewrite !rev_app_distr in E.
  rewrite <- !app_assoc in E. apply app_inv_head in E.
  apply app_inj_1 in E as [E _]; [|by rewrite !length_rev].
  by apply rev_inj in E.
Qed.

Section Integrity.

Variable getContentHash : str -> str.
Variable diffText : str -> str -> str.
Variable summaryOf : str -> option str.

(** The hash has a fixed number of characters (twelve, in the code). *)
Hypothesis hash_length : forall a b, length (getContentHash a) = length (getContentHash b).

Lemma served_write_diff safe hash diff d :
  served getContentHash d ->
  served getContentHash (write (diffFileName safe hash) diff d).
Proof.
  intros H v Hv. destruct (H v Hv) as [[s Hs] (c & Hc & Hh)].
  split; [by exists s |]. exists c. split; [|done].
  unfold write. cbn [texts]. rewrite lookup_insert_ne; [done |].
  rewrite Hs. apply diffFile_not_versionFile.
Qed.

Lemma latest_write_diff safe hash diff d :
  latestIsLast getContentHash d -> served getContentHash d ->
  latestIsLast getContentHash (write (diffFileName safe hash) diff d).
Proof.
  intros H Hs content Hl. unfold getLatestVersion, write in Hl. cbn [texts] in Hl.
  rewrite lookup_insert_ne in Hl by apply diffFile_not_latest.
  destruct (H content Hl) as (v & Hv & Hh & Hc). exists v.
  split; [done |]. split; [done |].
  unfold write. cbn [texts]. rewrite lookup_insert_ne; [done |].
  assert (Hin : v ∈ loadMetadata d).
  { apply last_Some in Hv as [l' ->]. apply elem_of_app. right. by left. }
  destruct (Hs v Hin) as [[s Hname] _]. rewrite Hname. apply diffFile_not_versionFile.
Qed.

Lemma served_saveVersion content timestamp d :
  served getContentHash d ->
  served getContentHash (saveVersion content timestamp (getContentHash content) d) /\
  latestIsLast getContentHash (saveVersion content timestamp (getContentHash content) d).
Proof.
  intros H.
  set (name := versionFileName (safeTimestamp timestamp) (getContentHash content)).
  assert (Hmeta : loadMetadata (saveVersion content timestamp (getContentHash content) d) =
                  loadMetadata d ++
                  [{| Version.timestamp := timestamp;
                      Version.hash := getContentHash content;
                      Version.file := name;
                      Version.waybackTimestamp := None |}]) by done.
  assert (Htexts : texts (saveVersion content timestamp (getContentHash content) d) =
                   <[ name := content ]> (<[ lit "latest.txt" := content ]> (texts d))) by done.
  split.
  - intros v Hv. rewrite Hmeta in Hv. rewrite Htexts.
    apply elem_of_app in Hv as [Hv|Hv].
    + destruct (H v Hv) as [[s Hs] (c & Hc & Hh)]. split; [by exists s |].
      destruct (decide (Version.file v = name)) as [E|E].
      * exists content. rewrite E, lookup_insert_eq. split; [done |].
        rewrite Hs in E. apply versionFile_hash in E; [done |].
        rewrite <- Hh. apply hash_length.
      * exists c. rewrite lookup_insert_ne by done.
        rewrite lookup_insert_ne; [done |]. rewrite Hs. intros E'.
        by apply (versionFile_not_latest s (Version.hash v)).
    + apply list_elem_of_singleton in Hv as ->. cbn [Version.file Version.hash].
      split; [by exists (safeTimestamp timestamp) |].
      exists content. by rewrite lookup_insert_eq.
  - intros c Hl. rewrite latest_after_save in Hl. injection Hl as <-.
    eexists. rewrite Hmeta, last_snoc. split; [done |]. cbn [Version.file Version.hash].
    split; [done |]. rewrite Htexts. apply lookup_insert_eq.
Qed.

Lemma runMonitor_invariant content iso d :
  served getContentHash d /\ latestIsLast getContentHash d ->
  served getContentHash (fst (runMonitor getContentHash diffText summaryOf content iso d)) /\
  latestIsLast getContentHash (fst (runMonitor getContentHash diffText summaryOf content iso d)).
Proof.
  intros [Hs Hl]. unfold runMonitor. cbv zeta.
  destruct (getLatestVersion d) as [[|c p]|] eqn:E; cbn [fst].
  - apply (served_saveVersion content (monitorTimestamp iso) d Hs).
  - destruct (bool_decide _); cbn [fst]; [done |].
    apply (served_saveVersion content (monitorTimestamp iso)).
    by apply served_write_diff.
  - apply (served_saveVersion content (monitorTimestamp iso) d Hs).
Qed.

Lemma runAll_invariant inputs : forall d,
  served getContentHash d /\ latestIsLast getContentHash d ->
  served getContentHash (runAll getContentHash diffText summaryOf inputs d) /\
  latestIsLast getContentHash (runAll getContentHash diffText summaryOf inputs d).
Proof.
  induction inputs as [|[content iso] inputs IH]; intros d H; [done |].
  apply IH. by apply runMonitor_invariant.
Qed.

End Integrity.

(** X26. After any runs of the monitor on an empty disk, with a hash of
    fixed length, every listed version can be served: [getVersion] of its
    hash returns a version of that hash, with a content that has that hash.
    The latest version, if there is one, has the hash of the last listed
    version. *)
Theorem stored_versions_can_be_served
    (getContentHash : str -> str) (diffText : str -> str -> str)
    (summaryOf : str -> option str) (inputs : list (str * str)) :
  (forall a b, length (getContentHash a) = length (getContentHash b)) ->
  let d := runAll getContentHash diffText summaryOf inputs emptyDisk in
  (forall v, v ∈ getVersions d ->
     exists w content,
       getVersion (Version.hash v) d = Some (w, content) /\
       Version.hash w = Version.hash v /\
       getContentHash content = Version.hash v) /\
  (forall content, getLatestVersion d = Some content ->
     exists v, list.last (getVersions d) = Some v /\
       Version.hash v = getContentHash content /\
       getVersion (Version.hash v) d <> None).
Proof.
  intros Hlen d.
  destruct (runAll_invariant getContentHash diffText summaryOf Hlen inputs emptyDisk)
    as [Hs Hl].
  { split.
    - intros v Hv. by apply elem_of_nil in Hv.
    - intros c Hc. unfold getLatestVersion, emptyDisk in Hc. cbn in Hc.
      by rewrite lookup_empty in Hc. }
  fold d in Hs, Hl.
  assert (Hserve : forall v, v ∈ getVersions d ->
             exists w content,
               getVersion (Version.hash v) d = Some (w, content) /\
               Version.hash w = Version.hash v /\
               getContentHash content = Version.hash v).
  { intros v Hv. unfold getVersion.
    destruct (List.find (fun x => bool_decide (Version.hash x = Version.hash v))
                (loadMetadata d)) as [w|] eqn:Hfind.
    - apply find_some in Hfind as [Hw Hh]. apply bool_decide_eq_true in Hh.
      apply list_elem_of_In in Hw. destruct (Hs w Hw) as [_ (c & Hc & Hhc)].
      exists w, c. rewrite Hc. split; [done |]. split; [done | congruence].
    - exfalso. apply list_elem_of_In in Hv.
      pose proof (find_none _ _ Hfind v Hv) as Hn. cbn in Hn.
      by rewrite bool_decide_eq_true_2 in Hn. }
  split; [done |].
  intros content Hc. destruct (Hl content Hc) as (v & Hv & Hh & Hf).
  exists v. split; [done |]. split; [done |].
  assert (Hin : v ∈ getVersions d).
  { apply last_Some in Hv as [l' Hv]. unfold getVersions. rewrite Hv.
    apply elem_of_app. right. by left. }
  destruct (Hserve v Hin) as (w & c & Hg & _). by rewrite Hg.
Qed.

Lemma stored_versions_can_be_served_witness :
  let hashOf := fun content : str => take 12 (content ++ replicate 12 "0"%char) in
  let d := runAll hashOf (fun _ _ => lit "{}") (fun _ => None)
             [(lit "First text.", lit "2026-01-31T06:00:00.000Z");
              (lit "Second text.", lit "2026-02-01T06:00:00.000Z")] emptyDisk in
  (forall v, v ∈ getVersions d ->
     exists w content,
       getVersion (Version.hash v) d = Some (w, content) /\
       Version.hash w = Version.hash v /\
       hashOf content = Version.hash v) /\
  (forall content, getLatestVersion d = Some content ->
     exists v, list.last (getVersions d) = Some v /\
       Version.hash v = hashOf content /\
       getVersion (Version.hash v) d <> None).
Proof.
  intros hashOf d.
  apply (stored_versions_can_be_served hashOf (fun _ _ => lit "{}") (fun _ => None)).
  intros a b. unfold hashOf. rewrite !length_take, !length_app, !length_replicate. lia.
Defined.

(** ** The changelog after any runs *)

Lemma prefixb_false_app sep s rest :
  prefixb sep s = false -> length sep <= length s -> prefixb sep (s ++ rest) = false.
Proof.
  revert s. induction sep as [|p sep IH]; intros [|c s]; simpl; try done; try lia.
  intros H Hlen. destruct (Ascii.eqb p c); [|done]. simpl in *. apply IH; [done | lia].
Qed.

Lemma cutAt_app sep s rest before after :
  cutAt sep s = Some (before, after) ->
  cutAt sep (s ++ rest) = Some (before, after ++ rest).
Proof.
  revert before after. induction s as [|c s IH]; intros before after; simpl.
  - destruct (prefixb sep []) eqn:E; [|done]. intros [= <- <-].
    destruct sep; [|done]. by destruct rest.
  - destruct (prefixb sep (c :: s)) eqn:E.
    + intros [= <- <-]. change (c :: s ++ rest) with ((c :: s) ++ rest).
      rewrite (prefixb_app_l _ _ _ E). f_equal. f_equal.
      rewrite drop_app_le; [done |].
      apply prefixb_spec, (f_equal length) in E. rewrite length_app in E. lia.
    + destruct (cutAt sep s) as [[b a]|] eqn:Ec; [|done].
      intros [= <- <-].
      change (c :: s ++ rest) with ((c :: s) ++ rest).
      rewrite prefixb_false_app; [| done |].
      * by rewrite (IH b a eq_refl).
      * apply cutAt_spec in Ec as [-> _]. simpl. rewrite !length_app. lia.
Qed.

Lemma insertEntry_under_header body entry :
  insertEntry (changelogHeader ++ body) entry = changelogHeader ++ entry ++ [LF] ++ body.
Proof.
  assert (Hcut : exists top, cutAt (lit "---") changelogHeader = Some (top, [LF])).
  { eexists. vm_compute. reflexivity. }
  destruct Hcut as [top Hcut].
  pose proof (cutAt_app _ _ body _ _ Hcut) as Hcut'.
  destruct (cutAt_spec _ _ _ _ Hcut) as [Hhead _].
  unfold insertEntry.
  assert (Hinc : includes (lit "---") (changelogHeader ++ body) = true).
  { apply cutAt_includes. by rewrite Hcut'. }
  assert (Hne : truthy (changelogHeader ++ body) = true) by done.
  rewrite Hinc, Hne. cbn [andb]. cbv zeta. unfold splitStr.
  destruct (length (changelogHeader ++ body)) as [|n] eqn:El; [done |].
  cbn [splitFuel]. rewrite Hcut'. unfold firstPart. cbn [head default].
  rewrite skipn_cons, drop_0, join_splitFuel.
  unfold id. by rewrite <- Hhead.
Qed.

(** One run, on a disk with a latest content and a changelog of the
    monitor. *)
Lemma run_changelog (getContentHash : str -> str) (diffText : str -> str -> str)
    (summaryOf : str -> option str) content iso d previous body :
  getLatestVersion d = Some previous -> previous <> [] ->
  changelog d = Some (changelogHeader ++ body) ->
  let d' := fst (runMonitor getContentHash diffText summaryOf content iso d) in
  if bool_decide (getContentHash content = getContentHash previous)
  then d' = d
  else
    getLatestVersion d' = Some content /\
    changelog d' =
      Some (changelogHeader ++
            changelogEntry (monitorTimestamp iso) (getContentHash content)
              (generateDiffSummary previous content)
              (summaryOf (diffText previous content)) ++ [LF] ++ body).
Proof.
  intros Hl Hp Hlog. cbv zeta. unfold runMonitor. cbv zeta. rewrite Hl.
  destruct previous as [|c p]; [done |].
  destruct (bool_decide _); cbn [fst]; [done |]. split.
  - by rewrite latest_writeChangelog, latest_after_save.
  - unfold writeChangelog. cbn [changelog]. unfold updateChangelog.
    change (changelog (saveVersion _ _ _ (write _ _ d))) with (changelog d).
    rewrite Hlog.
    change (default [] (Some (changelogHeader ++ body))) with (changelogHeader ++ body).
    by rewrite insertEntry_under_header.
Qed.

Lemma changeEntries_length (getContentHash : str -> str) (diffText : str -> str -> str)
    (summaryOf : str -> option str) inputs : forall previous,
  length (changeEntries getContentHash diffText summaryOf previous inputs) <= length inputs.
Proof.
  induction inputs as [|input rest IH]; intros previous; [done |].
  cbn [changeEntries]. destruct (bool_decide _); simpl.
  - specialize (IH previous). lia.
  - specialize (IH (fst input)). lia.
Qed.

(** X27. Once there is a non-empty latest version and a changelog that
    starts with the header of the monitor, runs that fetch non-empty
    contents lose nothing of the changelog and add to it the entries of the runs that found a change and
    nothing else: the header stays on top, what was under it stays at the
    end, and between them stand the entries of [changeEntries], the newest
    first, each followed by a line feed - one for every run whose content
    has another hash than the latest content stored before it. *)
Theorem changelog_only_grows
    (getContentHash : str -> str) (diffText : str -> str -> str)
    (summaryOf : str -> option str) (inputs : list (str * str))
    (d : disk) (previous body : str) :
  Forall (fun input => fst input <> []) inputs ->
  getLatestVersion d = Some previous -> previous <> [] ->
  changelog d = Some (changelogHeader ++ body) ->
  let entries := rev (changeEntries getContentHash diffText summaryOf previous inputs) in
  changelog (runAll getContentHash diffText summaryOf inputs d) =
    Some (changelogHeader ++ concat ((fun e => e ++ [LF]) <$> entries) ++ body) /\
  length entries <= length inputs.
Proof.
  intros Hall Hl Hp Hlog. cbv zeta.
  split; [|rewrite length_rev; apply changeEntries_length].
  revert d previous body Hl Hp Hlog.
  induction Hall as [|[content iso] inputs Hc _ IH]; intros d previous body Hl Hp Hlog;
    [done |].
  cbn [fst] in Hc. cbn [runAll fold_left changeEntries fst snd].
  pose proof (run_changelog getContentHash diffText summaryOf content iso d previous body
                Hl Hp Hlog) as Hstep.
  cbv zeta in Hstep.
  destruct (bool_decide (getContentHash content = getContentHash previous)) eqn:Hb.
  - rewrite Hstep. by apply IH.
  - destruct Hstep as [Hl' Hlog'].
    fold (runAll getContentHash diffText summaryOf inputs
            (fst (runMonitor getContentHash diffText summaryOf content iso d))).
    rewrite (IH _ content _ Hl' Hc Hlog').
    cbn [rev]. do 2 f_equal. rewrite fmap_app, concat_app.
    cbn [fmap list_fmap concat]. by rewrite app_nil_r, <- !app_assoc.
Qed.

Lemma changelog_only_grows_witness :
  let hashOf := fun content : str => take 12 content in
  let d := fst (runMonitor hashOf (fun _ _ => lit "{}") (fun _ => None)
                  (lit "First text.") (lit "2026-01-31T06:00:00.000Z") emptyDisk) in
  let body := drop (length changelogHeader)
                (initialChangelog (lit "2026-01-31 06:00:00 UTC") (lit "First text.")) in
  let entry :=
    changelogEntry (lit "2026-02-01 06:00:00 UTC") (lit "Second text.")
      {| linesAdded := 1; linesRemoved := 1;
         addedPreview := [lit "Second text."]; removedPreview := [lit "First text."] |}
      None in
  changelog (runAll hashOf (fun _ _ => lit "{}") (fun _ => None)
               [(lit "Second text.", lit "2026-02-01T06:00:00.000Z");
                (lit "Second text.", lit "2026-02-02T06:00:00.000Z")] d) =
    Some (changelogHeader ++ entry ++ [LF] ++ body).
Proof.
  intros hashOf d body entry.
  destruct (changelog_only_grows hashOf (fun _ _ => lit "{}") (fun _ => None)
              [(lit "Second text.", lit "2026-02-01T06:00:00.000Z");
               (lit "Second text.", lit "2026-02-02T06:00:00.000Z")]
              d (lit "First text.") body) as [H _].
  - repeat constructor; discriminate.
  - reflexivity.
  - discriminate.
  - reflexivity.
  - rewrite H. vm_compute. reflexivity.
Defined.

(** ** A backfill between two runs *)

(** X28. A backfill puts the historical section right under the header
    of a changelog of the monitor, and the heading [Live Monitoring] above
    what was under the header; an entry that the monitor adds afterwards
    goes under the header, above the historical section. *)
Theorem entries_after_a_backfill
    (body entry : str) (changes : list Change.change) (initialVersion : Version.version) :
  includes historicalTitle (changelogHeader ++ body) = false ->
  let history := historicalEntries changes initialVersion in
  let backfilled := changelogHeader ++ history ++ liveHeading ++ [LF] ++ body in
  updateChangelogWithHistory (Some (changelogHeader ++ body)) changes initialVersion =
    Some backfilled /\
  insertEntry backfilled entry =
    changelogHeader ++ entry ++ [LF] ++ history ++ liveHeading ++ [LF] ++ body.
Proof.
  intros Hno history backfilled. split; [|apply insertEntry_under_header].
  assert (Hcut : exists top, cutAt (lit "---") changelogHeader = Some (top, [LF])).
  { eexists. vm_compute. reflexivity. }
  destruct Hcut as [top Hcut].
  pose proof (cutAt_app _ _ body _ _ Hcut) as Hcut'.
  destruct (cutAt_spec _ _ _ _ Hcut) as [Hhead _].
  unfold updateChangelogWithHistory. cbv zeta.
  change (default [] (Some (changelogHeader ++ body))) with (changelogHeader ++ body).
  assert (Hinc : includes (lit "---") (changelogHeader ++ body) = true).
  { apply cutAt_includes. by rewrite Hcut'. }
  assert (Hne : truthy (changelogHeader ++ body) = true) by done.
  rewrite Hinc, Hne, Hno. cbn [andb]. unfold splitStr.
  destruct (length (changelogHeader ++ body)) as [|n] eqn:El; [done |].
  cbn [splitFuel]. rewrite Hcut'. unfold firstPart. cbn [head default].
  rewrite skipn_cons, drop_0, join_splitFuel. unfold id, backfilled.
  by rewrite <- Hhead.
Qed.

Lemma entries_after_a_backfill_witness :
  let initialVersion := {| Version.timestamp := lit "2025-05-01 00:00:00 UTC";
                           Version.hash := lit "0a1b2c3d4e5f";
                           Version.file := lit "2025-05-01_00-00-00_UTC_0a1b2c3d4e5f.txt";
                           Version.waybackTimestamp := Some (lit "20250501000000") |} in
  let history := historicalEntries [] initialVersion in
  let backfilled := changelogHeader ++ history ++ liveHeading ++ [LF] ++ lit "live" in
  updateChangelogWithHistory (Some (changelogHeader ++ lit "live")) [] initialVersion =
    Some backfilled /\
  insertEntry backfilled (lit "new") =
    changelogHeader ++ lit "new" ++ [LF] ++ history ++ liveHeading ++ [LF] ++ lit "live".
Proof.
  intros initialVersion history backfilled.
  apply (entries_after_a_backfill (lit "live") (lit "new") [] initialVersion).
  vm_compute. reflexivity.
Defined.

(** ** The tokens of a paragraph *)

Lemma alternating_app l k :
  alternating l -> Nat.even (length l) = true -> alternating k -> alternating (l ++ k).
Proof.
  intros Hl He Hk i t Hi. destruct (decide (i < length l)) as [Hlt|Hge].
  - rewrite lookup_app_l in Hi by done. by apply Hl.
  - rewrite lookup_app_r in Hi by lia. specialize (Hk _ _ Hi).
    replace i with (length l + (i - length l)) by lia.
    rewrite Nat.even_add, He. by destruct (Nat.even (i - length l)).
Qed.

Lemma alternating_pair w s : noSpace w -> s <> [] -> isBlank s = true -> alternating [w; s].
Proof. intros Hw Hs Hb [|[|i]] t Hi; simplify_eq/=; done. Qed.

Lemma tokStep_alternating st c :
  alternating (tdone st) /\ Nat.even (length (tdone st)) = true /\
    noSpace (tword st) /\ isBlank (tws st) = true ->
  let st' := tokStep st c in
  alternating (tdone st') /\ Nat.even (length (tdone st')) = true /\
    noSpace (tword st') /\ isBlank (tws st') = true.
Proof.
  intros (Ha & He & Hw & Hb). cbv zeta. unfold tokStep.
  destruct (isSpace c) eqn:Ec; cbn [tdone tword tws].
  - repeat split; try done. rewrite isBlank_app, Hb. cbn. by rewrite Ec.
  - destruct (tws st) as [|x ws] eqn:Ews; cbn [tdone tword tws].
    + repeat split; try done. unfold noSpace in *. rewrite forallb_app, Hw. cbn.
      by rewrite Ec.
    + repeat split; try done.
      * apply alternating_app; [done | done |]. by apply alternating_pair.
      * rewrite length_app. cbn [length]. rewrite Nat.even_add, He. done.
      * unfold noSpace. cbn. by rewrite Ec.
Qed.

Lemma tokFold_alternating s : forall st,
  alternating (tdone st) /\ Nat.even (length (tdone st)) = true /\
    noSpace (tword st) /\ isBlank (tws st) = true ->
  let st' := fold_left tokStep s st in
  alternating (tdone st') /\ Nat.even (length (tdone st')) = true /\
    noSpace (tword st') /\ isBlank (tws st') = true.
Proof.
  induction s as [|c s IH]; intros st H; [done |].
  cbn [fold_left]. apply IH. by apply tokStep_alternating.
Qed.

(** X29. The tokens into which [diffParagraphs] splits a paragraph rejoin
    to the paragraph; their number is odd; the tokens at even positions
    hold no whitespace and those at odd positions are non-empty whitespace
    runs. *)
Theorem tokens_of_a_paragraph (p : str) :
  let tokens := splitKeepSpaces p in
  concat tokens = p /\
  Nat.odd (length tokens) = true /\
  alternating tokens.
Proof.
  cbv zeta. split; [apply splitKeepSpaces_concat |].
  unfold splitKeepSpaces, tokFinish.
  destruct (tokFold_alternating p tokInit) as (Ha & He & Hw & Hb).
  { repeat split; done. }
  set (st := fold_left tokStep p tokInit) in *.
  destruct (tws st) as [|x ws] eqn:Ews.
  - split.
    + rewrite length_app. cbn [length]. rewrite Nat.add_1_r, Nat.odd_succ. done.
    + apply alternating_app; [done | done |]. intros [|i] t Hi; simplify_eq/=. done.
  - split.
    + rewrite length_app. cbn [length].
      replace (length (tdone st) + 3) with (S (S (S (length (tdone st))))) by lia.
      rewrite Nat.odd_succ, Nat.even_succ, Nat.odd_succ. done.
    + apply alternating_app; [done | done |].
      intros [|[|[|i]]] t Hi; simplify_eq/=; done.
Qed.

(** ** An empty old text *)

Lemma lower_word c : isWordChar c = true -> isWordChar (toLowerChar c) = true.
Proof. destruct c as [[] [] [] [] [] [] [] []]; intros H; done. Qed.

Lemma word_not_space c : isWordChar c = true -> isSpace c = false.
Proof. by_cases_on_char c. Qed.

Lemma hasWord_lower s : hasWord s = true -> hasWord (toLowerCase s) = true.
Proof.
  unfold hasWord, toLowerCase. induction s as [|c s IH]; [done |].
  simpl. intros [Hc|Hs]%orb_true_iff.
  - by rewrite lower_word.
  - rewrite IH by done. apply orb_true_r.
Qed.

Lemma hasWord_filter s :
  hasWord (List.filter (fun c => isWordChar c || isSpace c) s) = hasWord s.
Proof.
  unfold hasWord. induction s as [|c s IH]; [done |]. simpl.
  destruct (isWordChar c) eqn:Ew; simpl; [by rewrite Ew |].
  destruct (isSpace c); simpl; [by rewrite Ew |]. done.
Qed.

Lemma hasWord_collapse s : forall b, hasWord (collapseSpaces b s) = hasWord s.
Proof.
  unfold hasWord. induction s as [|c s IH]; intros b; [done |]. simpl.
  destruct (isSpace c) eqn:Es.
  - assert (Ew : isWordChar c = false).
    { destruct (isWordChar c) eqn:E; [|done]. apply word_not_space in E. congruence. }
    rewrite Ew. destruct b; simpl; by rewrite IH.
  - simpl. by rewrite IH.
Qed.

Lemma hasWord_not_blank s : hasWord s = true -> isBlank s = false.
Proof.
  unfold hasWord, isBlank. induction s as [|c s IH]; [done |]. simpl.
  intros [Hc|Hs]%orb_true_iff.
  - by rewrite (word_not_space c Hc).
  - rewrite (IH Hs). apply andb_false_r.
Qed.

Lemma noDouble_collapse s : forall b, noDouble b (collapseSpaces b s) = true.
Proof.
  induction s as [|c s IH]; intros b; [done |]. simpl.
  destruct (isSpace c) eqn:Es.
  - destruct b; [apply IH |]. simpl. change (isSpace " ") with true. simpl. apply IH.
  - simpl. rewrite Es. apply IH.
Qed.

Lemma noDouble_weaken s : noDouble true s = true -> noDouble false s = true.
Proof. destruct s as [|c s]; [done |]. simpl. destruct (isSpace c); [done | done]. Qed.

Lemma noDouble_app_l a : forall b x, noDouble b (a ++ x) = true -> noDouble b a = true.
Proof.
  induction a as [|c a IH]; intros b x; [done |]. simpl.
  destruct (isSpace c).
  - intros [Hb H]%andb_true_iff. rewrite Hb. simpl. by apply (IH true x).
  - apply IH.
Qed.

Lemma noDouble_app_r a : forall b x, noDouble b (a ++ x) = true -> noDouble false x = true.
Proof.
  induction a as [|c a IH]; intros b x; simpl.
  - destruct b; [apply noDouble_weaken | done].
  - destruct (isSpace c).
    + intros [_ H]%andb_true_iff. by apply (IH true).
    + apply IH.
Qed.

(** A string is cut at its first space, or it has none. *)
Lemma first_space s :
  " "%char ∉ s \/ exists a rest, s = a ++ " "%char :: rest /\ " "%char ∉ a.
Proof.
  induction s as [|c s IH]; [left; apply not_elem_of_nil |].
  destruct (decide (c = " "%char)) as [->|Hc].
  - right. exists [], s. split; [done | apply not_elem_of_nil].
  - destruct IH as [Hn|(a & rest & -> & Ha)].
    + left. apply not_elem_of_cons. by split.
    + right. exists (c :: a), rest. split; [done |]. apply not_elem_of_cons. by split.
Qed.

Lemma pieces_nonempty n : forall r,
  length r <= n -> tight r -> noDouble false r = true ->
  [] ∉ splitOn " " r.
Proof.
  induction n as [|n IH]; intros r Hlen [Hs He] Hd.
  { destruct r; [done | simpl in Hlen; lia]. }
  destruct (first_space r) as [Hn|(a & rest & -> & Ha)].
  - rewrite splitOn_plain by done. intros Hin.
    apply list_elem_of_singleton in Hin. by subst.
  - rewrite splitOn_cut by done. intros Hin.
    apply elem_of_cons in Hin as [Hin|Hin].
    + subst a. simpl in Hs. done.
    + revert Hin. apply IH.
      * rewrite length_app in Hlen. simpl in Hlen. lia.
      * assert (Hrest : startsNonSpace rest = true).
        { apply noDouble_app_r in Hd. simpl in Hd. change (isSpace " ") with true in Hd.
          simpl in Hd. destruct rest as [|c rest].
          - exfalso. unfold endsNonSpace in He. rewrite rev_app_distr in He. simpl in He.
            done.
          - simpl in *. destruct (isSpace c); [done | done]. }
        split; [done |].
        unfold endsNonSpace in *. rewrite rev_app_distr in He. simpl in He.
        rewrite <- app_assoc in He.
        destruct (rev rest) as [|c k] eqn:Er; [|done].
        apply (f_equal (@rev ascii)) in Er. rewrite rev_involutive in Er. subst rest. done.
      * apply noDouble_app_r in Hd. simpl in Hd. change (isSpace " ") with true in Hd.
        simpl in Hd. by apply noDouble_weaken.
Qed.

(** A paragraph with a word character has no empty word. *)
Lemma hasWord_wordSet p : hasWord p = true -> [] ∉ wordSet p.
Proof.
  intros Hw. unfold wordSet. rewrite elem_of_list_to_set.
  set (g := collapseSpaces false
              (List.filter (fun c => isWordChar c || isSpace c) (toLowerCase p))).
  assert (Hg : hasWord g = true).
  { unfold g. rewrite hasWord_collapse, hasWord_filter. by apply hasWord_lower. }
  assert (Hnb : isBlank g = false) by (by apply hasWord_not_blank).
  destruct (trim_decompose g Hnb) as (lead & trail & Hdec & _ & _ & Ht).
  unfold normalizeForMatching. fold g.
  apply (pieces_nonempty (length (trim g))); [done | done |].
  pose proof (noDouble_collapse
                (List.filter (fun c => isWordChar c || isSpace c) (toLowerCase p)) false) as Hd.
  fold g in Hd. rewrite Hdec in Hd.
  apply noDouble_app_r in Hd. by apply noDouble_app_l in Hd.
Qed.

Lemma similarity_empty p :
  hasWord p = true -> greater (similarity p []) threshold = false.
Proof.
  intros Hw. unfold similarity, jaccard.
  rewrite wordSet_empty.
  assert (Hf : filter (fun w => w ∈ ({[ [] ]} : gset str)) (wordSet p) = ∅).
  { apply set_eq. intros w. rewrite elem_of_filter, elem_of_singleton. split.
    - intros [-> Hin]. by apply hasWord_wordSet in Hin.
    - intros Hin. by apply elem_of_empty in Hin. }
  rewrite Hf, size_empty.
  destruct (greater _ _) eqn:E; [|done].
  rewrite threshold_divide in E.
  apply gt_divide in E; [lia | apply union_size_pos, wordSet_inhabited | lia].
Qed.

(** X30. Against an empty old text, and whatever the array diff returns,
    [generateDiff] gives every paragraph of the new text as an [added]
    entry - provided each has a word character - and then one [removed]
    entry with an empty content, for the empty paragraph of the old
    text. *)
Theorem first_diff_has_an_empty_removal
    (diffArrays : (str -> str -> bool) -> list str -> list str -> list part)
    (newContent : str) :
  Forall (fun p => hasWord p = true) (splitIntoParagraphs newContent) ->
  generateDiff diffArrays [] newContent =
  ((fun p => EAdded (escapeHtml p)) <$> splitIntoParagraphs newContent) ++ [ERemoved []].
Proof.
  intros Hall. unfold generateDiff.
  rewrite (paragraphs_of_blank [] eq_refl). rewrite diffParas_spec. cbv zeta.
  rewrite (align_none [[]] (splitIntoParagraphs newContent) ∅).
  - rewrite matchedOld_none, outcomes_none. cbn [list_to_set].
    by rewrite unmatched_none.
  - intros p q Hp Hq. apply list_elem_of_singleton in Hq as ->.
    apply similarity_empty. rewrite list.Forall_forall in Hall. by apply Hall.
Qed.

Lemma first_diff_has_an_empty_removal_witness :
  generateDiff lcsDiff [] (lit "Be helpful. Be honest.") =
  [EAdded (lit "Be helpful. Be honest."); ERemoved []].
Proof.
  apply (first_diff_has_an_empty_removal lcsDiff (lit "Be helpful. Be honest.")).
  vm_compute. repeat constructor.
Defined.

(** ** The fetched text *)

Lemma trim_idem s : trim (trim s) = trim s.
Proof. destruct (trim_shape s) as [E|Ht]; [by rewrite E | by apply trim_tight]. Qed.

Lemma cleanText_trimmed text : trim (cleanText text) = cleanText text.
Proof. apply trim_idem. Qed.

(** X21. The text that [fetchConstitution] returns has no whitespace at
    its ends, so [splitIntoParagraphs] segments it without loss: the
    sentences of its paragraphs are the sentences of the text. *)
Theorem fetched_text_is_segmented_without_loss (text : str) :
  let content := cleanText text in
  trim content = content /\
  concat (splitSentences <$> splitIntoParagraphs content) = splitSentences content.
Proof.
  cbv zeta. split; [apply cleanText_trimmed |].
  destruct (isBlank (cleanText text)) eqn:Hb.
  - rewrite (paragraphs_of_blank _ Hb). simpl. apply app_nil_r.
  - destruct (paragraphs_of_not_blank _ Hb) as (Hp & Hc & Hn). cbv zeta in *.
    rewrite Hp, splitSentences_paragraphs by done.
    rewrite sentenceGroups_concat, <- splitSentences_trim by done.
    by rewrite cleanText_trimmed.
Qed.

(** ** The lines of the fetched text *)

Lemma collapse_onlySpaces s : forall b, onlySpaces (collapseSpaces b s).
Proof.
  induction s as [|c s IH]; intros b x Hx Hs; [by apply elem_of_nil in Hx |].
  simpl in Hx. destruct (isSpace c) eqn:Ec.
  - destruct b; [by apply (IH true) |].
    apply elem_of_cons in Hx as [->|Hx]; [done | by apply (IH true)].
  - apply elem_of_cons in Hx as [->|Hx]; [congruence | by apply (IH false)].
Qed.

Lemma cleanText_onlySpaces text : onlySpaces (cleanText text).
Proof.
  intros c Hc. apply (collapse_onlySpaces text false). by apply trim_elem.
Qed.

Lemma cleanText_noDouble text : noDouble false (cleanText text) = true.
Proof.
  unfold cleanText. set (g := collapseSpaces false text).
  destruct (isBlank g) eqn:Hb; [by rewrite (trim_blank g Hb) |].
  destruct (trim_decompose g Hb) as (lead & trail & Hdec & _ & _ & _).
  pose proof (noDouble_collapse text false) as Hd. fold g in Hd. rewrite Hdec in Hd.
  apply noDouble_app_r in Hd. by apply noDouble_app_l in Hd.
Qed.

(** Collapsing changes nothing in a string whose whitespace is single
    spaces. *)
Lemma collapse_fixed s : forall b,
  noDouble b s = true -> onlySpaces s -> collapseSpaces b s = s.
Proof.
  induction s as [|c s IH]; intros b Hd Ho; [done |]. simpl in *.
  assert (Hs : onlySpaces s) by (intros x Hx; apply Ho; by right).
  destruct (isSpace c) eqn:Ec.
  - apply andb_true_iff in Hd as [Hb Hd]. apply negb_true_iff in Hb. subst b.
    f_equal; [|by apply IH]. symmetry. apply Ho; [by left | done].
  - f_equal. by apply IH.
Qed.

Lemma cleanText_no_LF text : LF ∉ cleanText text.
Proof.
  intros H. pose proof (cleanText_onlySpaces text LF H eq_refl) as E. discriminate E.
Qed.

Lemma nonBlankLines_one s :
  LF ∉ s -> trim s = s -> nonBlankLines s = if truthy s then [s] else [].
Proof.
  intros Hlf Ht. unfold nonBlankLines. rewrite splitOn_plain by done.
  cbn [List.filter]. by rewrite Ht.
Qed.

(** X22. The text that [fetchConstitution] returns is one line, with
    single spaces for all its whitespace: cleaning it again changes
    nothing, and for two such texts that differ, neither of them empty,
    [generateDiffSummary] counts one added and one removed line - the two
    texts themselves. *)
Theorem fetched_text_lines (previousPage page : str) :
  let previous := cleanText previousPage in
  let current := cleanText page in
  cleanText current = current /\
  onlySpaces current /\ noDouble false current = true /\
  nonBlankLines current = (if truthy current then [current] else []) /\
  (previous <> [] -> current <> [] -> current <> previous ->
   generateDiffSummary previous current =
     {| linesAdded := 1; linesRemoved := 1;
        addedPreview := [current]; removedPreview := [previous] |}).
Proof.
  cbv zeta.
  assert (Hlines : forall t, nonBlankLines (cleanText t) =
                     if truthy (cleanText t) then [cleanText t] else []).
  { intros t. apply nonBlankLines_one; [apply cleanText_no_LF | apply cleanText_trimmed]. }
  split.
  { unfold cleanText at 1.
    rewrite collapse_fixed; [apply cleanText_trimmed | apply cleanText_noDouble |
                             apply cleanText_onlySpaces]. }
  split; [apply cleanText_onlySpaces |]. split; [apply cleanText_noDouble |].
  split; [apply Hlines |].
  intros Hp Hc Hne. unfold generateDiffSummary. rewrite !Hlines.
  destruct (cleanText previousPage) as [|x p] eqn:Ep; [done |].
  destruct (cleanText page) as [|y c] eqn:Ec; [done |].
  cbn [truthy]. unfold setOf, setAdd, onlyIn, has. cbn [fold_left].
  rewrite !bool_decide_eq_false_2 by apply not_elem_of_nil. cbn [app List.filter].
  rewrite !bool_decide_eq_false_2.
  - done.
  - intros H. apply list_elem_of_singleton in H. congruence.
  - intros H. apply list_elem_of_singleton in H. congruence.
Qed.

(** Two pages that differ in a word. *)
Lemma fetched_text_lines_witness :
  generateDiffSummary (lit "Be helpful. Be honest.") (lit "Be helpful. Be kind.") =
  {| linesAdded := 1; linesRemoved := 1;
     addedPreview := [lit "Be helpful. Be kind."];
     removedPreview := [lit "Be helpful. Be honest."] |}.
Proof.
  destruct (fetched_text_lines (lit " Be helpful." ++ [LF; LF] ++ lit "Be  honest. ")
              (lit "Be helpful." ++ [LF] ++ lit " Be kind." ++ [LF]))
    as (_ & _ & _ & _ & H).
  apply H; vm_compute; discriminate.
Defined.

Example cleanText_example :
  cleanText (lit "  Be helpful." ++ [LF; LF] ++ lit "   Be honest.  " ++ [LF]) =
  lit "Be helpful. Be honest.".
Proof. vm_compute. reflexivity. Qed.
